(** * Cooked-mesh cache of the metaverse viewer: [geometryToPxMesh] and [PMeshHandle]

    A shallow embedding of the module that cooks three.js geometries into PhysX
    collision meshes and shares the cooked results through a reference-counted
    cache.  JavaScript numbers are IEEE 754 binary64 values and are modelled by
    Rocq's primitive floats; objects that the code mutates or shares (cache
    items, handles, geometries, typed arrays) live in explicit heaps indexed by
    object identity; the PhysX module (foreign memory, cooking, native meshes)
    is part of the state, with every call into it recorded in a log. *)

From Stdlib Require Import ZArith Floats Lia.
From stdpp Require Import gmap strings list pretty.

(** ** JavaScript numbers *)

Module Number.

(** [a === b] on numbers: IEEE equality ([NaN] differs from itself, the two
    zeros are equal). *)
Definition strict_eq (a b : float) : bool := PrimFloat.eqb a b.

(** [a !== b]. *)
Definition strict_ne (a b : float) : bool := negb (strict_eq a b).

(** [a > b]. *)
Definition gt (a b : float) : bool := PrimFloat.ltb b a.

Definition is_pos_zero (a : float) : bool := is_zero a && negb (get_sign a).
Definition is_neg_zero (a : float) : bool := is_zero a && get_sign a.

(** [Math.max(...)]: [NaN] when an argument is [NaN]; otherwise the largest
    argument, starting from [-Infinity], with [+0] above [-0]. *)
Definition Math_max (args : list float) : float :=
  if existsb is_nan args then nan
  else fold_left
         (fun highest n =>
            if is_pos_zero n && is_neg_zero highest then n
            else if PrimFloat.ltb highest n then n else highest)
         args neg_infinity.

(** Rounding to binary32 (ties to even), as a store into a [Float32Array]
    element does. *)
Definition round32 (x : spec_float) : spec_float :=
  match x with
  | S754_finite s m e => binary_round 24 128 s m e
  | _ => x
  end.

Definition fround (x : float) : float := SF2Prim (round32 (Prim2SF x)).

(** [ToUint16] of an integer value, as a store into a [Uint16Array] element
    does. *)
Definition to_uint16 (v : Z) : Z := Z.land v 65535.

End Number.

(** ** three.js data *)

Definition loc := nat.

Record Vector3 := { x : float; y : float; z : float }.

Record Box3 := { min : Vector3; max : Vector3 }.

(** [geometry.attributes.position].  [array] is the identity of the
    [Float32Array] holding the data (for an interleaved attribute, the array of
    its interleaved buffer, with [stride] and [offset] locating the items). *)
Record BufferAttribute := {
  array : loc;
  itemSize : nat;
  isInterleavedBufferAttribute : bool;
  stride : nat;
  offset : nat
}.

(** [index.array]: three.js index buffers are unsigned integer arrays. *)
Inductive IndexArray :=
  | Uint8Array (elems : list Z)
  | Uint16Array (elems : list Z)
  | Uint32Array (elems : list Z).

Definition index_elems (a : IndexArray) : list Z :=
  match a with Uint8Array l | Uint16Array l | Uint32Array l => l end.

Definition BYTES_PER_ELEMENT (a : IndexArray) : Z :=
  match a with Uint8Array _ => 1 | Uint16Array _ => 2 | Uint32Array _ => 4 end.

(** A [BufferGeometry]; [index] is the identity of [geometry.index.array], or
    [None] when [geometry.index] is [null]. *)
Record BufferGeometry := {
  uuid : string;
  boundingBox : option Box3;
  position : BufferAttribute;
  index : option loc
}.

Record World := { cookingParams : Z }.

(** ** The PhysX module *)

Record PxBoundedData := { count : Z; data_stride : Z; data : Z }.

Inductive PxMeshDesc :=
  | PxConvexMeshDesc (points : PxBoundedData) (eCOMPUTE_CONVEX : bool)
  | PxTriangleMeshDesc (points triangles : PxBoundedData) (e16_BIT_INDICES : bool).

(** What a heap view holds at an address after a [set]. *)
Inductive HeapData :=
  | F32 (elems : list float)
  | U16 (elems : list Z)
  | U32 (elems : list Z).

(** How one call of the native cooking routine ends: a cooked mesh, no mesh
    (the routine gives a null pointer), or a thrown exception. *)
Inductive CookOutcome := Cooked (pmesh : nat) | Rejected | Threw.

(** What the routine decides, the identity of a cooked mesh left aside. *)
Inductive CookVerdict := Accept | Reject | Crash.

Inductive Event :=
  | console_warn (uuid : string) (bakeScale : float)
  | console_error
  | webidl_malloc (bytes ptr : Z)
  | webidl_free (ptr : Z)
  | new_desc (convex : bool)
  | CreateConvexMesh (params : Z) (desc : PxMeshDesc) (points : option HeapData)
      (result : CookOutcome)
  | CreateTriangleMesh (params : Z) (desc : PxMeshDesc) (points indices : option HeapData)
      (result : CookOutcome)
  | destroy (desc : PxMeshDesc)
  | pmesh_release (pmesh : nat).

(** ** Cache items and handles *)

(** The objects stored in the module-level [cache]:
    [{ id, pmesh, refs, bakeScale }].  [pmesh] is the object a cooking routine
    returned, which names a native mesh or is the wrapper of the null pointer. *)
Record Item := {
  item_id : string;
  item_pmesh : nat;
  item_refs : Z;
  item_bakeScale : float
}.

(** A [PMeshHandle] object; [value] is [None] for [null]. *)
Record PMeshHandle := {
  value : option nat;
  item : loc;
  released : bool
}.

(** ** Program state

    [cache] is the module-level [Map]; it maps an id to the identity of an item
    object, which handles reference too.  [allocated] are the live blocks of
    PhysX's heap with their sizes, [HEAP] what was last written at an address,
    [pmeshes] the native meshes ([true] while live, [false] once [release()]
    was called on them).  [log] lists the calls into the environment, latest
    first. *)
Record State := {
  cache : gmap string loc;
  items : gmap loc Item;
  handles : gmap loc PMeshHandle;
  geometries : gmap loc BufferGeometry;
  f32arrays : gmap loc (list float);
  indexarrays : gmap loc IndexArray;
  allocated : gmap Z Z;
  HEAP : gmap Z HeapData;
  pmeshes : gmap nat bool;
  log : list Event
}.

Definition set_cache (f : gmap string loc → gmap string loc) (s : State) : State :=
  Build_State (f (cache s)) (items s) (handles s) (geometries s) (f32arrays s)
    (indexarrays s) (allocated s) (HEAP s) (pmeshes s) (log s).
Definition set_items (f : gmap loc Item → gmap loc Item) (s : State) : State :=
  Build_State (cache s) (f (items s)) (handles s) (geometries s) (f32arrays s)
    (indexarrays s) (allocated s) (HEAP s) (pmeshes s) (log s).
Definition set_handles (f : gmap loc PMeshHandle → gmap loc PMeshHandle) (s : State) : State :=
  Build_State (cache s) (items s) (f (handles s)) (geometries s) (f32arrays s)
    (indexarrays s) (allocated s) (HEAP s) (pmeshes s) (log s).
Definition set_geometries (f : gmap loc BufferGeometry → gmap loc BufferGeometry)
    (s : State) : State :=
  Build_State (cache s) (items s) (handles s) (f (geometries s)) (f32arrays s)
    (indexarrays s) (allocated s) (HEAP s) (pmeshes s) (log s).
Definition set_f32arrays (f : gmap loc (list float) → gmap loc (list float))
    (s : State) : State :=
  Build_State (cache s) (items s) (handles s) (geometries s) (f (f32arrays s))
    (indexarrays s) (allocated s) (HEAP s) (pmeshes s) (log s).
Definition set_indexarrays (f : gmap loc IndexArray → gmap loc IndexArray)
    (s : State) : State :=
  Build_State (cache s) (items s) (handles s) (geometries s) (f32arrays s)
    (f (indexarrays s)) (allocated s) (HEAP s) (pmeshes s) (log s).
Definition set_allocated (f : gmap Z Z → gmap Z Z) (s : State) : State :=
  Build_State (cache s) (items s) (handles s) (geometries s) (f32arrays s)
    (indexarrays s) (f (allocated s)) (HEAP s) (pmeshes s) (log s).
Definition set_HEAP (f : gmap Z HeapData → gmap Z HeapData) (s : State) : State :=
  Build_State (cache s) (items s) (handles s) (geometries s) (f32arrays s)
    (indexarrays s) (allocated s) (f (HEAP s)) (pmeshes s) (log s).
Definition set_pmeshes (f : gmap nat bool → gmap nat bool) (s : State) : State :=
  Build_State (cache s) (items s) (handles s) (geometries s) (f32arrays s)
    (indexarrays s) (allocated s) (HEAP s) (f (pmeshes s)) (log s).
Definition emit (e : Event) (s : State) : State :=
  Build_State (cache s) (items s) (handles s) (geometries s) (f32arrays s)
    (indexarrays s) (allocated s) (HEAP s) (pmeshes s) (e :: log s).

(** The state of a freshly loaded module. *)
Definition initial : State :=
  Build_State ∅ ∅ ∅ ∅ ∅ ∅ ∅ ∅ ∅ [].

(** ** Computations: state and exceptions *)

Inductive Exn := TypeError | NativeError.

Inductive Completion (A : Type) :=
  | Normal (a : A)
  | Throw (e : Exn).
Arguments Normal {A} a.
Arguments Throw {A} e.

Definition M (A : Type) : Type := State → Completion A * State.

Definition ret {A} (a : A) : M A := fun s => (Normal a, s).

Definition bind {A B} (m : M A) (k : A → M B) : M B :=
  fun s =>
    match m s with
    | (Normal a, s') => k a s'
    | (Throw e, s') => (Throw e, s')
    end.

Definition throw {A} (e : Exn) : M A := fun s => (Throw e, s).

(** A statement that only changes the state. *)
Definition modify (f : State → State) : M unit := fun s => (Normal tt, f s).

(** A read of the state. *)
Definition gets {A} (f : State → A) : M A := fun s => (Normal (f s), s).

(** Dereferencing: an identity that names no object stands for [undefined],
    and reading a property of [undefined] throws a [TypeError]. *)
Definition deref {A} (o : option A) : M A :=
  match o with
  | Some a => ret a
  | None => throw TypeError
  end.

(** [try { body } catch (err) { handler } finally { finalizer }]. *)
Definition try_catch_finally {A} (body : M A) (handler : Exn → M A)
    (finalizer : M unit) : M A :=
  fun s =>
    let '(r, s1) :=
      match body s with
      | (Normal a, s') => (Normal a, s')
      | (Throw e, s') => handler e s'
      end in
    match finalizer s1 with
    | (Normal _, s2) => (r, s2)
    | (Throw e, s2) => (Throw e, s2)
    end.

(** [for (let i = start; i < start + n; i++) body(i)], for a body that only
    changes the state. *)
Fixpoint for_loop (start n : nat) (body : nat → State → State) (s : State) : State :=
  match n with
  | O => s
  | S n' => for_loop (S start) n' body (body start s)
  end.

Declare Scope js_scope.
Delimit Scope js_scope with js.
Notation "'let*' a := m 'in' k" := (bind m (fun a => k))
  (at level 10, a name, m at level 100, k at level 200) : js_scope.
Notation "'let*' ' p := m 'in' k" := (bind m (fun a => match a with p => k end))
  (at level 10, p pattern, m at level 100, k at level 200) : js_scope.
Notation "m ;; k" := (bind m (fun _ => k))
  (at level 100, k at level 200, right associativity, only parsing) : js_scope.

(** Reading the object at an identity [l] of one of the heaps. *)
Definition load {A} (heap : State → gmap loc A) (l : loc) : M A :=
  fun s => deref (heap s !! l) s.

(** ** What the module imports

    three.js, the JavaScript runtime and the PhysX cooking routines are not part
    of the module; the development is parametric in them.  The cooking routines
    see the cooking parameters, the descriptor, what the heap holds at the
    descriptor's pointers, and the number of cooking calls made before.
    [computeBoundingBox] gives the box of a geometry and its positions, and
    [computeBoundingBox_errors] the number of [console.error] calls it makes on
    the way (three.js reports a box that holds [NaN]). *)
Class Externals := {
  Number_toString : float → string;
  computeBoundingBox : BufferGeometry → list float → Box3;
  computeBoundingBox_errors : BufferGeometry → list float → nat;
  getSize : Box3 → Vector3;
  deinterleaveAttribute : BufferAttribute → list float → list float;
  cook_convex : Z → PxMeshDesc → option HeapData → nat → CookVerdict;
  cook_triangles :
    Z → PxMeshDesc → option HeapData → option HeapData → nat → CookVerdict
}.

(** The outcomes of the native cooking calls of a log, latest first. *)
Fixpoint native_cooks (l : list Event) : list CookOutcome :=
  match l with
  | [] => []
  | CreateConvexMesh _ _ _ r :: l' => r :: native_cooks l'
  | CreateTriangleMesh _ _ _ _ r :: l' => r :: native_cooks l'
  | _ :: l' => native_cooks l'
  end.

(** The native releases of cooked mesh [pm] in a log. *)
Fixpoint native_releases (pm : nat) (l : list Event) : nat :=
  match l with
  | [] => 0
  | pmesh_release pm' :: l' =>
      (if bool_decide (pm' = pm) then 1 else 0) + native_releases pm l'
  | _ :: l' => native_releases pm l'
  end.

(** *** Foreign memory *)

(** The end of the highest live block (at least 8, so that no block is at the
    null address). *)
Definition heap_top (blocks : gmap Z Z) : Z :=
  map_fold (fun p n top => Z.max top (p + Z.max n 1)) 8%Z blocks.

(** The address of the next block: above the live ones, 8 byte aligned. *)
Definition next_block (blocks : gmap Z Z) : Z :=
  (8 * ((heap_top blocks + 7) / 8))%Z.

(** [PHYSX._webidl_malloc(bytes)]. *)
Definition _webidl_malloc (bytes : Z) : M Z :=
  fun s =>
    let ptr := next_block (allocated s) in
    (Normal ptr, emit (webidl_malloc bytes ptr) (set_allocated <[ptr := bytes]> s)).

(** [PHYSX._webidl_free(ptr)]. *)
Definition _webidl_free (ptr : Z) : M unit :=
  modify (fun s => emit (webidl_free ptr) (set_allocated (delete ptr) s)).

(** [PHYSX.HEAPF32.set(src, offset)]: [offset] counts 4 byte elements. *)
Definition HEAPF32_set (src : list float) (offset : Z) : M unit :=
  modify (set_HEAP <[Z.shiftl offset 2 := F32 src]>).

(** [PHYSX.HEAPU16.set(src, offset)]: [offset] counts 2 byte elements. *)
Definition HEAPU16_set (src : list Z) (offset : Z) : M unit :=
  modify (set_HEAP <[Z.shiftl offset 1 := U16 src]>).

(** [PHYSX.HEAPU32.set(src, offset)]. *)
Definition HEAPU32_set (src : list Z) (offset : Z) : M unit :=
  modify (set_HEAP <[Z.shiftl offset 2 := U32 src]>).

Definition desc_points (desc : PxMeshDesc) : PxBoundedData :=
  match desc with
  | PxConvexMeshDesc p _ => p
  | PxTriangleMeshDesc p _ _ => p
  end.

Definition desc_triangles (desc : PxMeshDesc) : option PxBoundedData :=
  match desc with
  | PxConvexMeshDesc _ _ => None
  | PxTriangleMeshDesc _ t _ => Some t
  end.

(** The binding wraps the pointer a native routine returns in an object.  A
    routine that gives no mesh returns the null pointer, and the binding wraps
    it like any other: [null_mesh] is this wrapper, an object as truthy as the
    wrapper of a mesh. *)
Definition null_mesh : nat := 0.

(** The end of a native cooking call: the wrapper of a new live mesh, the
    wrapper of the null pointer, or an exception; the call and its outcome are
    logged.  The result is [Some] wrapper: a cooking routine that returns,
    returns an object. *)
Definition finish_cook (verdict : CookVerdict) (call : CookOutcome → Event) :
    M (option nat) :=
  fun s =>
    match verdict with
    | Accept =>
        let pm := fresh ({[null_mesh]} ∪ dom (pmeshes s)) in
        (Normal (Some pm), emit (call (Cooked pm)) (set_pmeshes <[pm := true]> s))
    | Reject => (Normal (Some null_mesh), emit (call Rejected) s)
    | Crash => (Throw NativeError, emit (call Threw) s)
    end.

(** [pmesh.release()] on the object a cooking routine returned: the call is
    made and logged, also on the wrapper of the null pointer. *)
Definition PxMesh_release (pm : nat) : M unit :=
  modify (fun s => emit (pmesh_release pm) (set_pmeshes <[pm := false]> s)).

(** [PHYSX.destroy(desc)]. *)
Definition PHYSX_destroy (desc : PxMeshDesc) : M unit :=
  modify (emit (destroy desc)).

(** *** Typed arrays *)

(** [new Float32Array(...)] with the given contents. *)
Definition new_Float32Array (contents : list float) : M loc :=
  fun s =>
    let l := fresh (dom (f32arrays s)) in
    (Normal l, set_f32arrays <[l := contents]> s).

(** [arr[i]] on a [Float32Array]; [undefined] past the end, which arithmetic
    turns into [NaN]. *)
Definition f32_get (arr : loc) (i : nat) (s : State) : float :=
  match f32arrays s !! arr with
  | Some xs => nth i xs nan
  | None => nan
  end.

(** [arr[i] = v] on a [Float32Array]: [v] is rounded to binary32; a store past
    the end does nothing. *)
Definition f32_store (arr : loc) (i : nat) (v : float) : State → State :=
  set_f32arrays (alter (fun xs => <[i := Number.fround v]> xs) arr).

(** [new Uint16Array(n)]. *)
Definition new_Uint16Array (n : nat) : M loc :=
  fun s =>
    let l := fresh (dom (indexarrays s)) in
    (Normal l, set_indexarrays <[l := Uint16Array (replicate n 0%Z)]> s).

(** [arr[i]] on an index array; [undefined] past the end, which a store into an
    integer array turns into 0. *)
Definition index_get (arr : loc) (i : nat) (s : State) : Z :=
  match indexarrays s !! arr with
  | Some a => nth i (index_elems a) 0%Z
  | None => 0%Z
  end.

(** [arr[i] = v] on an index array: [v] wraps to the element width. *)
Definition index_store (arr : loc) (i : nat) (v : Z) : State → State :=
  set_indexarrays
    (alter (fun a =>
              match a with
              | Uint8Array l => Uint8Array (<[i := Z.land v 255]> l)
              | Uint16Array l => Uint16Array (<[i := Number.to_uint16 v]> l)
              | Uint32Array l => Uint32Array (<[i := Z.land v 4294967295]> l)
              end) arr).

(** ** The module *)

Section Program.
Context `{Externals}.
Local Open Scope js_scope.

(** *** [class PMeshHandle] *)

(** [constructor(item)] (lines 7-12): the new handle takes the item's mesh as
    its value and counts itself in [item.refs]. *)
Definition new_PMeshHandle (item : loc) : M loc :=
  let* it := load items item in
  fun s =>
    let h := fresh (dom (handles s)) in
    let this := {| value := Some (item_pmesh it); item := item; released := false |} in
    let it' := {| item_id := item_id it; item_pmesh := item_pmesh it;
                  item_refs := item_refs it + 1;
                  item_bakeScale := item_bakeScale it |} in
    (Normal h, set_items <[item := it']> (set_handles <[h := this]> s)).

(** [release()] (lines 14-24): nothing for a released handle; otherwise the
    count of the item goes down by one, at 0 the mesh is released and the id is
    deleted from the cache, and the handle is marked released and loses its
    value. *)
Definition release (h : loc) : M unit :=
  let* this := load handles h in
  if released this then ret tt
  else
    let* it := load items (item this) in
    let it' := {| item_id := item_id it; item_pmesh := item_pmesh it;
                  item_refs := item_refs it - 1;
                  item_bakeScale := item_bakeScale it |} in
    modify (set_items <[item this := it']>) ;;
    (if (item_refs it' =? 0)%Z then
       PxMesh_release (item_pmesh it') ;;
       modify (set_cache (delete (item_id it')))
     else ret tt) ;;
    modify (set_handles
              <[h := {| value := None; item := item this; released := true |}]>).

(** *** [geometryToPxMesh]: the bake scale (lines 32-40) *)

Definition TARGET_EXTENT : float := 1%float.

(** [Math.max(size.x, size.y, size.z)] (line 35). *)
Definition maxExtentOf (size : Vector3) : float :=
  Number.Math_max [x size; y size; z size].

(** [maxExtent > TARGET_EXTENT * 5 ? TARGET_EXTENT / maxExtent : 1.0]
    (line 37). *)
Definition bakeScaleOf (maxExtent : float) : float :=
  if Number.gt maxExtent (TARGET_EXTENT * 5)%float
  then (TARGET_EXTENT / maxExtent)%float
  else 1%float.

(** [n] calls of [console.error]. *)
Definition console_errors (n : nat) : M unit :=
  modify (fun s => Nat.iter n (emit console_error) s).

(** [geometry.boundingBox || (() => { geometry.computeBoundingBox(); return
    geometry.boundingBox })()] (line 32): a missing box is computed from the
    positions, with the error reports of [computeBoundingBox], and stored in
    the geometry. *)
Definition get_boundingBox (geometry : loc) : M Box3 :=
  let* G := load geometries geometry in
  match boundingBox G with
  | Some bbox => ret bbox
  | None =>
      let* positions :=
        gets (fun s => default [] (f32arrays s !! array (position G))) in
      let bbox := computeBoundingBox G positions in
      console_errors (computeBoundingBox_errors G positions) ;;
      modify (set_geometries
                <[geometry := {| uuid := uuid G; boundingBox := Some bbox;
                                 position := position G; index := index G |}]>) ;;
      ret bbox
  end.

(** Lines 32-40: the bake scale of a geometry, with the warning when it is
    not 1. *)
Definition computeBakeScale (geometry : loc) : M float :=
  let* bbox := get_boundingBox geometry in
  let size := getSize bbox in
  let maxExtent := maxExtentOf size in
  let bakeScale := bakeScaleOf maxExtent in
  let* G := load geometries geometry in
  (if Number.strict_ne bakeScale 1
   then modify (emit (console_warn (uuid G) bakeScale))
   else ret tt) ;;
  ret bakeScale.

(** The cache id (line 42),
    [`${geometry.uuid}_${convex ? 'convex' : 'triangles'}_bs${bakeScale}`]. *)
Definition cache_id (uuid : string) (convex : bool) (bakeScale : float) : string :=
  uuid +:+ "_" +:+ (if convex then "convex" else "triangles") +:+ "_bs"
       +:+ Number_toString bakeScale.

(** *** [geometryToPxMesh]: positions (lines 59-76) *)

(** Lines 59-66 and 72.  The positions array: that of the attribute, or a
    fresh [Float32Array] with the de-interleaved items (made by
    [deinterleaveAttribute] and copied once more by
    [new Float32Array(position.array)]). *)
Definition normalizePosition (G : BufferGeometry) : M loc :=
  let position := position G in
  if isInterleavedBufferAttribute position then
    let* interleaved := load f32arrays (array position) in
    let* deinterleaved :=
      new_Float32Array (deinterleaveAttribute position interleaved) in
    let* items := load f32arrays deinterleaved in
    new_Float32Array items
  else ret (array position).

(** [scaledPositions[i] = positions[i] * bakeScale] (line 75). *)
Definition scale_body (positions scaledPositions : loc) (bakeScale : float)
    (i : nat) (s : State) : State :=
  f32_store scaledPositions i (f32_get positions i s * bakeScale)%float s.

(** Lines 73-76.  The positions sent to PhysX: [positions] itself when the
    bake scale is 1, otherwise a new array of the same length, filled by the
    loop. *)
Definition scalePositions (positions : loc) (bakeScale : float) : M loc :=
  let* original := load f32arrays positions in
  let* scaledPositions :=
    (if Number.strict_eq bakeScale 1 then ret positions
     else new_Float32Array (replicate (length original) 0%float)) in
  (if Number.strict_ne bakeScale 1 then
     modify (for_loop 0 (length original)
               (scale_body positions scaledPositions bakeScale))
   else ret tt) ;;
  ret scaledPositions.

(** *** [geometryToPxMesh]: cooking (lines 77-144) *)

(** The two cooking routines of the PhysX module: the imported routine decides
    on what the descriptor points to. *)

Definition PHYSX_CreateConvexMesh (params : Z) (desc : PxMeshDesc) : M (option nat) :=
  fun s =>
    let pts := HEAP s !! data (desc_points desc) in
    finish_cook
      (cook_convex params desc pts (length (native_cooks (log s))))
      (CreateConvexMesh params desc pts) s.

Definition PHYSX_CreateTriangleMesh (params : Z) (desc : PxMeshDesc) : M (option nat) :=
  fun s =>
    let pts := HEAP s !! data (desc_points desc) in
    let tris := t ← desc_triangles desc; HEAP s !! data t in
    finish_cook
      (cook_triangles params desc pts tris (length (native_cooks (log s))))
      (CreateTriangleMesh params desc pts tris) s.

(** The convex branch (lines 85-90).  [desc.points.count] is
    [positions.length / 3], which the binding stores as an unsigned integer. *)
Definition cookConvex (params : Z) (pointsPtr : Z) (npositions : nat) :
    M (PxMeshDesc * option nat) :=
  modify (emit (new_desc true)) ;;
  let desc :=
    PxConvexMeshDesc
      {| count := Z.of_nat npositions / 3; data_stride := 12; data := pointsPtr |}
      true in
  let* pmesh := PHYSX_CreateConvexMesh params desc in
  ret (desc, pmesh).

(** [indices[i] = index.array[i]] (line 108). *)
Definition widen_body (source indices : loc) (i : nat) (s : State) : State :=
  index_store indices i (index_get source i s) s.

(** Lines 101-110.  The indices sent to PhysX: a [Uint8Array] is copied into
    a new [Uint16Array], any other array is used as it is. *)
Definition normalizeIndices (source : loc) : M loc :=
  let* original := load indexarrays source in
  match original with
  | Uint8Array elems =>
      let* indices := new_Uint16Array (length elems) in
      modify (for_loop 0 (length elems) (widen_body source indices)) ;;
      ret indices
  | _ => ret source
  end.

(** Lines 112-140: the indices are copied into foreign memory and the mesh
    is cooked; an exception of the cooking routine is caught and logged, and
    the index block is freed in the [finally] clause. *)
Definition cookIndexed (params : Z) (points : PxBoundedData) (indices : loc) :
    M (PxMeshDesc * option nat) :=
  let* arr := load indexarrays indices in
  let len := Z.of_nat (length (index_elems arr)) in
  let indexBytes := (len * BYTES_PER_ELEMENT arr)%Z in
  let* indexPtr := _webidl_malloc indexBytes in
  let* '(tri_stride, flag) :=
    match arr with
    | Uint16Array elems =>
        HEAPU16_set elems (Z.shiftr indexPtr 1) ;; ret (6%Z, true)
    | Uint8Array elems | Uint32Array elems =>
        HEAPU32_set elems (Z.shiftr indexPtr 2) ;; ret (12%Z, false)
    end in
  let desc :=
    PxTriangleMeshDesc points
      {| count := len / 3; data_stride := tri_stride; data := indexPtr |} flag in
  let* pmesh :=
    try_catch_finally
      (PHYSX_CreateTriangleMesh params desc)
      (fun err =>
         modify (emit console_error) ;; modify (emit console_error) ;; ret None)
      (_webidl_free indexPtr) in
  ret (desc, pmesh).

(** The triangle mesh branch (lines 92-140).  [index.array] throws when
    [geometry.index] is [null]. *)
Definition cookTriangles (params : Z) (G : BufferGeometry) (pointsPtr : Z)
    (npositions : nat) : M (PxMeshDesc * option nat) :=
  modify (emit (new_desc false)) ;;
  let points :=
    {| count := Z.of_nat npositions / 3; data_stride := 12; data := pointsPtr |} in
  let* source := deref (index G) in
  let* indices := normalizeIndices source in
  cookIndexed params points indices.

(** Lines 77-144: the positions are copied into foreign memory, the mesh is
    cooked, and the positions block and the descriptor are given back.  The
    result is [pmesh]: the object the cooking routine returned, or [None] for
    the [undefined] that is left when the exception of the triangle branch was
    caught. *)
Definition marshal (world : World) (G : BufferGeometry) (convex : bool)
    (scaled : list float) (npositions : nat) : M (option nat) :=
  let floatBytes := (Z.of_nat (length scaled) * 4)%Z in
  let* pointsPtr := _webidl_malloc floatBytes in
  HEAPF32_set scaled (Z.shiftr pointsPtr 2) ;;
  let* '(desc, pmesh) :=
    (if convex then cookConvex (cookingParams world) pointsPtr npositions
     else cookTriangles (cookingParams world) G pointsPtr npositions) in
  _webidl_free pointsPtr ;;
  PHYSX_destroy desc ;;
  ret pmesh.

(** Lines 50-144: the body after a cache miss, up to [PHYSX.destroy(desc)]. *)
Definition cook (world : World) (G : BufferGeometry) (convex : bool)
    (bakeScale : float) : M (option nat) :=
  let* positions := normalizePosition G in
  let* scaledPositions := scalePositions positions bakeScale in
  let* scaled := load f32arrays scaledPositions in
  let* original := load f32arrays positions in
  marshal world G convex scaled (length original).

(** [item = { id, pmesh, refs: 0, bakeScale }] (line 148). *)
Definition new_item (id : string) (pmesh : nat) (bakeScale : float) : M loc :=
  fun s =>
    let l := fresh (dom (items s)) in
    (Normal l,
     set_items <[l := {| item_id := id; item_pmesh := pmesh; item_refs := 0;
                         item_bakeScale := bakeScale |}]> s).

(** [geometryToPxMesh(world, geometry, convex)] (lines 27-151): the handle,
    or [None] for [null].  [if (!pmesh) return null] (line 146) tests the
    object: it is taken for [undefined] only. *)
Definition geometryToPxMesh (world : World) (geometry : loc) (convex : bool) :
    M (option loc) :=
  let* bakeScale := computeBakeScale geometry in
  let* G := load geometries geometry in
  let id := cache_id (uuid G) convex bakeScale in
  let* cached := gets (fun s => cache s !! id) in
  match cached with
  | Some item =>
      let* h := new_PMeshHandle item in
      ret (Some h)
  | None =>
      let* pmesh := cook world G convex bakeScale in
      match pmesh with
      | None => ret None
      | Some pmesh =>
          let* item := new_item id pmesh bakeScale in
          modify (set_cache <[id := item]>) ;;
          let* h := new_PMeshHandle item in
          ret (Some h)
      end
  end.

End Program.


(** ** Vocabulary of the statements *)

Section Vocabulary.
Context `{Externals}.

(** The foreign-memory allocations of a log, latest first. *)
Fixpoint mallocs (l : list Event) : list (Z * Z) :=
  match l with
  | [] => []
  | webidl_malloc bytes ptr :: l' => (bytes, ptr) :: mallocs l'
  | _ :: l' => mallocs l'
  end.

(** The bounding box a call works with: the geometry's, or the one computed
    from its positions when it has none yet. *)
Definition current_boundingBox (s : State) (G : BufferGeometry) : Box3 :=
  match boundingBox G with
  | Some bbox => bbox
  | None => computeBoundingBox G (default [] (f32arrays s !! array (position G)))
  end.

(** The [console.error] calls of [computeBoundingBox] in a call: none when the
    geometry has its box. *)
Definition box_errors (s : State) (G : BufferGeometry) : nat :=
  match boundingBox G with
  | Some _ => 0
  | None =>
      computeBoundingBox_errors G (default [] (f32arrays s !! array (position G)))
  end.

(** The bake scale and the cache id a call computes for a geometry. *)
Definition bakeScale_in (s : State) (G : BufferGeometry) : float :=
  bakeScaleOf (maxExtentOf (getSize (current_boundingBox s G))).

Definition cache_id_in (s : State) (G : BufferGeometry) (convex : bool) : string :=
  cache_id (uuid G) convex (bakeScale_in s G).

(** The geometry with its bounding box set. *)
Definition boxed (G : BufferGeometry) (bbox : Box3) : BufferGeometry :=
  {| uuid := uuid G; boundingBox := Some bbox; position := position G;
     index := index G |}.

(** What computing the bake scale of geometry [g] changes: the geometry gets
    its bounding box, and a warning may be logged. *)
Record prelude_step (g : loc) (G : BufferGeometry) (s s1 : State) : Prop := {
  pre_cache : cache s1 = cache s;
  pre_items : items s1 = items s;
  pre_handles : handles s1 = handles s;
  pre_geometries :
    geometries s1 = <[g := boxed G (current_boundingBox s G)]> (geometries s);
  pre_f32arrays : f32arrays s1 = f32arrays s;
  pre_indexarrays : indexarrays s1 = indexarrays s;
  pre_allocated : allocated s1 = allocated s;
  pre_HEAP : HEAP s1 = HEAP s;
  pre_pmeshes : pmeshes s1 = pmeshes s;
  pre_cooks : native_cooks (log s1) = native_cooks (log s);
  pre_mallocs : mallocs (log s1) = mallocs (log s);
  pre_releases : ∀ pm, native_releases pm (log s1) = native_releases pm (log s)
}.

(** What a loop [for (i = start; i < start + n; i++) dst[i] = f(src[i])]
    leaves in [dst]; [d] stands for a read past the end of [src]. *)
Fixpoint fill {A B} (f : A → B) (d : A) (start n : nat) (src : list A)
    (dst : list B) : list B :=
  match n with
  | O => dst
  | S n' => fill f d (S start) n' src (<[start := f (nth start src d)]> dst)
  end.

(** A step that at most creates typed arrays. *)
Record arrays_step (s s' : State) : Prop := {
  as_cache : cache s' = cache s;
  as_items : items s' = items s;
  as_handles : handles s' = handles s;
  as_geometries : geometries s' = geometries s;
  as_f32arrays : ∀ l xs, f32arrays s !! l = Some xs → f32arrays s' !! l = Some xs;
  as_indexarrays : ∀ l a, indexarrays s !! l = Some a → indexarrays s' !! l = Some a;
  as_allocated : allocated s' = allocated s;
  as_HEAP : HEAP s' = HEAP s;
  as_pmeshes : pmeshes s' = pmeshes s;
  as_log : log s' = log s
}.

(** What cooking leaves alone: the cache, the items, the handles and the
    geometries; the typed arrays and the cooked meshes that exist; the
    releases of cooked meshes. *)
Record call_frame (s s' : State) : Prop := {
  cf_cache : cache s' = cache s;
  cf_items : items s' = items s;
  cf_handles : handles s' = handles s;
  cf_geometries : geometries s' = geometries s;
  cf_f32arrays : ∀ l xs, f32arrays s !! l = Some xs → f32arrays s' !! l = Some xs;
  cf_indexarrays : ∀ l a, indexarrays s !! l = Some a → indexarrays s' !! l = Some a;
  cf_pmeshes : ∀ pm b, pmeshes s !! pm = Some b → pmeshes s' !! pm = Some b;
  cf_releases : ∀ pm, native_releases pm (log s') = native_releases pm (log s)
}.

(** The geometry has what the chosen mode reads: its positions array, and
    in triangle mode its index array. *)
Definition has_positions (s : State) (G : BufferGeometry) : Prop :=
  is_Some (f32arrays s !! array (position G)).

Definition has_indices (s : State) (G : BufferGeometry) (convex : bool) : Prop :=
  convex = false → ∃ il, index G = Some il ∧ is_Some (indexarrays s !! il).

(** How the result of the cooking bridge follows from the outcome of the
    native call: the wrapper of the cooked mesh is returned; so is the wrapper
    of the null pointer, when the routine gave no mesh; an exception is caught
    in triangle mode only, and leaves [pmesh] undefined. *)
Definition bridge_result (convex : bool) (o : CookOutcome)
    (r : Completion (option nat)) : Prop :=
  match o with
  | Cooked pm => r = Normal (Some pm)
  | Rejected => r = Normal (Some null_mesh)
  | Threw => r = if convex then Throw NativeError else Normal None
  end.

(** The result of a branch, with its descriptor. *)
Definition branch_result (convex : bool) (o : CookOutcome)
    (r : Completion (PxMeshDesc * option nat)) : Prop :=
  match o with
  | Cooked pm => ∃ desc, r = Normal (desc, Some pm)
  | Rejected => ∃ desc, r = Normal (desc, Some null_mesh)
  | Threw => if convex then r = Throw NativeError else ∃ desc, r = Normal (desc, None)
  end.

(** The handle made for an item, the item once a handle counts itself in it,
    and the state after [new PMeshHandle(item)] for the item [it] at [l]. *)
Definition open_handle (l : loc) (it : Item) : PMeshHandle :=
  {| value := Some (item_pmesh it); item := l; released := false |}.

Definition retained (it : Item) : Item :=
  {| item_id := item_id it; item_pmesh := item_pmesh it;
     item_refs := item_refs it + 1; item_bakeScale := item_bakeScale it |}.

Definition with_handle (l : loc) (it : Item) (s : State) : State :=
  set_items <[l := retained it]>
    (set_handles <[fresh (dom (handles s)) := open_handle l it]> s).

(** The handle once released, the item once a handle is released, and the
    state after the first [release()] of the handle [this] at [h], whose item
    is [it]. *)
Definition closed_handle (this : PMeshHandle) : PMeshHandle :=
  {| value := None; item := item this; released := true |}.

Definition dropped (it : Item) : Item :=
  {| item_id := item_id it; item_pmesh := item_pmesh it;
     item_refs := item_refs it - 1; item_bakeScale := item_bakeScale it |}.

Definition destroyed (it : Item) (s : State) : State :=
  set_cache (delete (item_id it))
    (emit (pmesh_release (item_pmesh it))
       (set_pmeshes <[item_pmesh it := false]> s)).

Definition after_release (h : loc) (this : PMeshHandle) (it : Item) (s : State) :
    State :=
  let s1 := set_items <[item this := dropped it]> s in
  set_handles <[h := closed_handle this]>
    (if (item_refs it - 1 =? 0)%Z then destroyed it s1 else s1).

(** The item made for a new cooked mesh, and the state after it is stored in
    the cache and wrapped in its first handle. *)
Definition fresh_item (id : string) (pm : nat) (bakeScale : float) : Item :=
  {| item_id := id; item_pmesh := pm; item_refs := 0; item_bakeScale := bakeScale |}.

Definition with_entry (id : string) (pm : nat) (bakeScale : float) (s : State) :
    State :=
  let l := fresh (dom (items s)) in
  with_handle l (fresh_item id pm bakeScale)
    (set_cache <[id := l]> (set_items <[l := fresh_item id pm bakeScale]> s)).

(** How the result of [geometryToPxMesh] follows from the outcome of the
    native call it made: a handle whenever the routine returned, with or
    without a mesh. *)
Definition acquire_result (convex : bool) (o : CookOutcome)
    (r : Completion (option loc)) : Prop :=
  match o with
  | Cooked _ => ∃ h, r = Normal (Some h)
  | Rejected => ∃ h, r = Normal (Some h)
  | Threw => r = if convex then Throw NativeError else Normal None
  end.

(** What a handle shows of its item: the item's cooked mesh until the handle is
    released, nothing afterwards. *)
Definition handle_ok (s : State) (this : PMeshHandle) : Prop :=
  if released this then value this = None
  else ∃ it, items s !! item this = Some it ∧ value this = Some (item_pmesh it).

Definition handles_ok (s : State) : Prop :=
  ∀ h this, handles s !! h = Some this → handle_ok s this.

(** What a call leaves alone: the typed arrays that exist keep their
    contents. *)
Definition arrays_kept (s s' : State) : Prop :=
  (∀ l xs, f32arrays s !! l = Some xs → f32arrays s' !! l = Some xs) ∧
  (∀ l a, indexarrays s !! l = Some a → indexarrays s' !! l = Some a).

(** A step of the caller: geometries and typed arrays are the caller's to
    create and change; the cache, its items, the handles and PhysX are not. *)
Definition caller_step (s s' : State) : Prop :=
  cache s' = cache s ∧ items s' = items s ∧ handles s' = handles s ∧
  allocated s' = allocated s ∧ HEAP s' = HEAP s ∧ pmeshes s' = pmeshes s ∧
  log s' = log s.

(** The states a program can be in: it starts with an empty cache and no
    handle, and goes on by calls of [geometryToPxMesh] and [release] and by
    steps of the caller. *)
Inductive reachable : State → Prop :=
  | reach_start s :
      caller_step initial s → reachable s
  | reach_caller s s' :
      reachable s → caller_step s s' → reachable s'
  | reach_acquire s world geometry convex r s' :
      reachable s → geometryToPxMesh world geometry convex s = (r, s') →
      reachable s'
  | reach_release s h r s' :
      reachable s → release h s = (r, s') → reachable s'.

(** One such step, and one such step that is not [release()] on the handle
    [h]. *)
Inductive step : State → State → Prop :=
  | step_caller s s' :
      caller_step s s' → step s s'
  | step_acquire s world geometry convex r s' :
      geometryToPxMesh world geometry convex s = (r, s') → step s s'
  | step_release s h r s' :
      release h s = (r, s') → step s s'.

Inductive step_without (h : loc) : State → State → Prop :=
  | without_caller s s' :
      caller_step s s' → step_without h s s'
  | without_acquire s world geometry convex r s' :
      geometryToPxMesh world geometry convex s = (r, s') → step_without h s s'
  | without_release s h' r s' :
      h' ≠ h → release h' s = (r, s') → step_without h s s'.

(** *** Counting handles, and the bookkeeping of the cache *)

(** The handles that hold the item at [l]: those that reference it and have
    not been released. *)
Definition holders (hs : gmap loc PMeshHandle) (l : loc) : nat :=
  size (filter (fun p : loc * PMeshHandle =>
                  item p.2 = l ∧ released p.2 = false) hs).

(** The cooked meshes once a native cooking call has ended with outcome [o]:
    a cooked mesh is a new live mesh. *)
Definition cooked_into (o : CookOutcome) (m : gmap nat bool) : gmap nat bool :=
  match o with Cooked pm => <[pm := true]> m | _ => m end.

(** A step that releases no mesh and changes the cooked meshes only by native
    cooking calls, none of which gives the wrapper of the null pointer for a
    mesh. *)
Record cooking_step (s s' : State) : Prop := {
  ck_meshes : ∃ new, native_cooks (log s') = new ++ native_cooks (log s) ∧
                     pmeshes s' = foldr cooked_into (pmeshes s) new ∧
                     Cooked null_mesh ∉ new;
  ck_releases : ∀ pm, native_releases pm (log s') = native_releases pm (log s)
}.

(** The computation [m] relates every state it is run in to the state it
    ends in, however it ends. *)
Definition respects {A} (R : State → State → Prop) (m : M A) : Prop :=
  ∀ s r s', m s = (r, s') → R s s'.

(** The bookkeeping of the cache: an item's count is the number of handles
    that hold it; the cache holds exactly the items with a positive count,
    each under its own id; the mesh of an item is live while the count is
    positive and released, once, when it is 0; every cooked mesh belongs to
    one item.  An item may hold the wrapper of the null pointer instead of a
    mesh: then a native routine gave no mesh, and the wrapper is never a live
    mesh. *)
Record consistent (s : State) : Prop := {
  co_refs : ∀ l it, items s !! l = Some it →
    item_refs it = Z.of_nat (holders (handles s) l);
  co_handles : ∀ h this, handles s !! h = Some this → released this = false →
    is_Some (items s !! item this);
  co_cache : ∀ id l, cache s !! id = Some l →
    ∃ it, items s !! l = Some it ∧ item_id it = id ∧ (0 < item_refs it)%Z;
  co_cached : ∀ l it, items s !! l = Some it → (0 < item_refs it)%Z →
    cache s !! item_id it = Some l;
  co_pmesh : ∀ l it, items s !! l = Some it → item_pmesh it ≠ null_mesh →
    pmeshes s !! item_pmesh it = Some (bool_decide (0 < item_refs it)%Z);
  co_inj : ∀ l1 l2 it1 it2, items s !! l1 = Some it1 → items s !! l2 = Some it2 →
    item_pmesh it1 = item_pmesh it2 → item_pmesh it1 ≠ null_mesh → l1 = l2;
  co_owned : ∀ pm, is_Some (pmeshes s !! pm) → pm ≠ null_mesh →
    ∃ l it, items s !! l = Some it ∧ item_pmesh it = pm;
  co_releases : ∀ l it, items s !! l = Some it → item_pmesh it ≠ null_mesh →
    native_releases (item_pmesh it) (log s)
      = if bool_decide (0 < item_refs it)%Z then 0 else 1;
  co_unknown : ∀ pm, pmeshes s !! pm = None → native_releases pm (log s) = 0;
  co_null : pmeshes s !! null_mesh ≠ Some true;
  co_dead : ∀ l it, items s !! l = Some it → item_refs it = 0%Z →
    pmeshes s !! item_pmesh it = Some false;
  co_rejected : ∀ l it, items s !! l = Some it → item_pmesh it = null_mesh →
    Rejected ∈ native_cooks (log s)
}.

(** *** What a call sends to PhysX and what it logs *)

(** The native cooking calls of a log, with their arguments, latest first. *)
Fixpoint native_calls (l : list Event) : list Event :=
  match l with
  | [] => []
  | CreateConvexMesh p d pts r :: l' => CreateConvexMesh p d pts r :: native_calls l'
  | CreateTriangleMesh p d pts idx r :: l' =>
      CreateTriangleMesh p d pts idx r :: native_calls l'
  | _ :: l' => native_calls l'
  end.

(** The [console.error] calls of a log. *)
Fixpoint errors (l : list Event) : nat :=
  match l with
  | [] => 0
  | console_error :: l' => S (errors l')
  | _ :: l' => errors l'
  end.

(** The [console.error] calls a native call with outcome [o] leads to: the
    two of the [catch] clause, in triangle mode. *)
Definition reported (convex : bool) (o : CookOutcome) : nat :=
  match o with
  | Threw => if convex then 0 else 2
  | _ => 0
  end.

(** What a piece of code that makes the native call [e], with outcome [o],
    adds to the log: this one native call, the error reports of a caught
    exception besides [others] reports of its own, and [blocks]
    allocations. *)
Record call_report (convex : bool) (blocks others : nat) (o : CookOutcome)
    (e : Event) (s s' : State) : Prop := {
  rep_calls : native_calls (log s') = e :: native_calls (log s);
  rep_cooks : native_cooks (log s') = o :: native_cooks (log s);
  rep_errors : errors (log s') = reported convex o + others + errors (log s);
  rep_mallocs : length (mallocs (log s')) = blocks + length (mallocs (log s))
}.

(** The positions a call works on: the geometry's position items, taken out
    of the interleaved buffer when the attribute is interleaved. *)
Definition positions_in (s : State) (G : BufferGeometry) : list float :=
  let xs := default [] (f32arrays s !! array (position G)) in
  if isInterleavedBufferAttribute (position G)
  then deinterleaveAttribute (position G) xs else xs.

(** The positions sent to PhysX for a bake scale. *)
Definition scaled_by (bakeScale : float) (xs : list float) : list float :=
  if Number.strict_eq bakeScale 1 then xs
  else map (fun v => Number.fround (v * bakeScale)) xs.

(** The points descriptor of a call. *)
Definition points_desc (npositions : nat) (pointsPtr : Z) : PxBoundedData :=
  {| count := Z.of_nat npositions / 3; data_stride := 12; data := pointsPtr |}.

(** A native call on the given points: [CreateConvexMesh] in convex mode,
    [CreateTriangleMesh] with some index data otherwise. *)
Definition cooks_points (convex : bool) (params : Z) (points : PxBoundedData)
    (pts : HeapData) (o : CookOutcome) (e : Event) : Prop :=
  if convex then e = CreateConvexMesh params (PxConvexMeshDesc points true) (Some pts) o
  else ∃ triangles flag idx,
         e = CreateTriangleMesh params (PxTriangleMeshDesc points triangles flag)
               (Some pts) (Some idx) o.

(** The index array of a geometry, if it has one. *)
Definition indices_in (s : State) (G : BufferGeometry) : option IndexArray :=
  il ← index G; indexarrays s !! il.

(** The array the triangle branch works with (lines 101-110): the 16 bit copy
    of an 8 bit array, any other array itself. *)
Definition normalized (a : IndexArray) : IndexArray :=
  match a with
  | Uint8Array elems => Uint16Array (map Number.to_uint16 elems)
  | _ => a
  end.

(** What the branch does with the array it works with (lines 112-124): the
    data it writes into the index block, and the triangles descriptor and the
    flag it sets, for the block at [indexPtr]. *)
Definition index_data (arr : IndexArray) : HeapData :=
  match arr with
  | Uint16Array elems => U16 elems
  | Uint8Array elems | Uint32Array elems => U32 elems
  end.

Definition triangles_desc (arr : IndexArray) (indexPtr : Z) : PxBoundedData :=
  {| count := Z.of_nat (length (index_elems arr)) / 3;
     data_stride := match arr with Uint16Array _ => 6 | _ => 12 end;
     data := indexPtr |}.

Definition index_flag (arr : IndexArray) : bool :=
  match arr with Uint16Array _ => true | _ => false end.

(** The native call of a cooking call, in full: [CreateConvexMesh] on the
    points in convex mode, [CreateTriangleMesh] on the points and on the
    normalised indices, in the block at [indexPtr], otherwise. *)
Definition cooks (convex : bool) (params : Z) (points : PxBoundedData)
    (pts : HeapData) (indices : option IndexArray) (indexPtr : Z)
    (o : CookOutcome) (e : Event) : Prop :=
  if convex then e = CreateConvexMesh params (PxConvexMeshDesc points true) (Some pts) o
  else ∃ a, indices = Some a ∧
         e = CreateTriangleMesh params
               (PxTriangleMeshDesc points (triangles_desc (normalized a) indexPtr)
                  (index_flag (normalized a)))
               (Some pts) (Some (index_data (normalized a))) o.

(** The blocks of foreign memory a mode allocates: one for the positions,
    and in triangle mode one for the indices. *)
Definition blocks_of (convex : bool) : nat := if convex then 1 else 2.

(** *** Cache ids *)

(** The character [_], and the number of underscores in a string. *)
Definition underscore : Ascii.ascii := Eval cbv in Ascii.ascii_of_nat 95.

Fixpoint underscores (str : string) : nat :=
  match str with
  | EmptyString => 0
  | String a rest => (if Ascii.eqb a underscore then 1 else 0) + underscores rest
  end.

(** The part of a cache id that follows the uuid. *)
Definition id_suffix (convex : bool) (number : string) : string :=
  "_" +:+ (if convex then "convex" else "triangles") +:+ "_bs" +:+ number.

End Vocabulary.

(** ** A reference environment

    Executable stand-ins for the imports, used to run the module on concrete
    geometries: three.js' bounding box and de-interleaving, a number printer
    that tells different numbers apart, and cooking routines whose verdict is
    given. *)

Module Reference.

(** A printer of numbers: "1" for one, sign, mantissa and exponent
    otherwise.  Like [Number.prototype.toString] it gives different finite
    non-zero numbers different strings. *)
Definition toString (a : float) : string :=
  match Prim2SF a with
  | S754_zero _ => "0"
  | S754_infinity s => if s then "-Infinity" else "Infinity"
  | S754_nan => "NaN"
  | S754_finite s m e =>
      if PrimFloat.eqb a 1 then "1"
      else (if s then "-" else "") +:+ pretty (Z.pos m) +:+ "p" +:+ pretty e
  end.

(** [Math.min] and [Math.max] of two numbers: [NaN] when one of them is,
    and [-0] below [+0]. *)
Definition fmin (a b : float) : float :=
  if is_nan a || is_nan b then nan
  else if Number.is_neg_zero b && Number.is_pos_zero a then b
  else if PrimFloat.ltb b a then b else a.
Definition fmax (a b : float) : float := Number.Math_max [a; b].

(** [Box3.expandByPoint]. *)
Definition expandByPoint (b : Box3) (p : Vector3) : Box3 :=
  {| min := {| x := fmin (x (min b)) (x p); y := fmin (y (min b)) (y p);
               z := fmin (z (min b)) (z p) |};
     max := {| x := fmax (x (max b)) (x p); y := fmax (y (max b)) (y p);
               z := fmax (z (max b)) (z p) |} |}.

Definition emptyBox : Box3 :=
  {| min := {| x := infinity; y := infinity; z := infinity |};
     max := {| x := neg_infinity; y := neg_infinity; z := neg_infinity |} |}.

(** [Box3.setFromBufferAttribute] on flat [x, y, z] items. *)
Fixpoint setFromPositions (xs : list float) (b : Box3) : Box3 :=
  match xs with
  | px :: py :: pz :: rest =>
      setFromPositions rest (expandByPoint b {| x := px; y := py; z := pz |})
  | _ => b
  end.

(** The items of an interleaved attribute: [itemSize] values at [offset] in
    each group of [stride] values. *)
Fixpoint deinterleave (groups stride offset itemSize : nat) (xs : list float) :
    list float :=
  match groups with
  | O => []
  | S groups' =>
      take itemSize (drop offset xs)
        ++ deinterleave groups' stride offset itemSize (drop stride xs)
  end.

Definition itemsOf (a : BufferAttribute) (xs : list float) : list float :=
  deinterleave (length xs / stride a) (stride a) (offset a) (itemSize a) xs.

Definition boundingBoxOf (G : BufferGeometry) (xs : list float) : Box3 :=
  setFromPositions
    (if isInterleavedBufferAttribute (position G)
     then itemsOf (position G) xs else xs)
    emptyBox.

(** [Box3.isEmpty] and [Box3.getSize]. *)
Definition isEmpty (b : Box3) : bool :=
  PrimFloat.ltb (x (max b)) (x (min b)) || PrimFloat.ltb (y (max b)) (y (min b))
  || PrimFloat.ltb (z (max b)) (z (min b)).

Definition sizeOf (b : Box3) : Vector3 :=
  if isEmpty b then {| x := 0; y := 0; z := 0 |}
  else {| x := x (max b) - x (min b); y := y (max b) - y (min b);
          z := z (max b) - z (min b) |}%float.

(** [computeBoundingBox] calls [console.error] once when the minimum of the
    box holds [NaN]. *)
Definition boundingBox_errors (G : BufferGeometry) (xs : list float) : nat :=
  let b := boundingBoxOf G xs in
  if is_nan (x (min b)) || is_nan (y (min b)) || is_nan (z (min b)) then 1 else 0.

(** The environment in which every cooking call ends with [verdict]. *)
Definition env (verdict : CookVerdict) : Externals :=
  {| Number_toString := toString;
     computeBoundingBox := boundingBoxOf;
     computeBoundingBox_errors := boundingBox_errors;
     getSize := sizeOf;
     deinterleaveAttribute := itemsOf;
     cook_convex := fun _ _ _ _ => verdict;
     cook_triangles := fun _ _ _ _ _ => verdict |}.

Definition world : World := {| cookingParams := 0 |}.

(** Sample geometries: a unit triangle with an 8 bit index buffer, a triangle
    6 units wide without index buffer, and a flat quad 5 units wide with a 16
    bit index buffer.  In [sample] they are the geometries 0, 1 and 2. *)
Definition plain (arr : loc) : BufferAttribute :=
  {| array := arr; itemSize := 3; isInterleavedBufferAttribute := false;
     stride := 3; offset := 0 |}.

Definition unit_triangle : BufferGeometry :=
  {| uuid := "unit"; boundingBox := None; position := plain 0; index := Some 0 |}.

Definition wide_triangle : BufferGeometry :=
  {| uuid := "wide"; boundingBox := None; position := plain 1; index := None |}.

Definition quad : BufferGeometry :=
  {| uuid := "quad"; boundingBox := None; position := plain 2; index := Some 1 |}.

Definition sample : State :=
  set_geometries
    (fun _ => <[0 := unit_triangle]> (<[1 := wide_triangle]> (<[2 := quad]> ∅)))
    (set_f32arrays
       (fun _ =>
          <[0 := [0; 0; 0; 1; 0; 0; 0; 1; 0]%float]>
          (<[1 := [1; 0; 0; 7; 0; 0; 1; 3; 0]%float]>
          (<[2 := [0; 0; 0; 5; 0; 0; 5; 5; 0; 0; 5; 0]%float]> ∅)))
       (set_indexarrays
          (fun _ =>
             <[0 := Uint8Array [0; 1; 2; 255]%Z]>
             (<[1 := Uint16Array [0; 1; 2; 0; 2; 3]%Z]> ∅))
          initial)).

(** The quad cooked as a triangle mesh in [sample]: the state after the call,
    which returns the handle 0 on the item 0, with the mesh 1. *)
Definition quad_cooked : State :=
  snd (@geometryToPxMesh (env Accept) world 2 false sample).

Definition quad_item : Item :=
  {| item_id := "quad_triangles_bs1"; item_pmesh := 1; item_refs := 1;
     item_bakeScale := 1 |}.

Definition quad_handle : PMeshHandle :=
  {| value := Some 1; item := 0; released := false |}.

(** The quad as that call leaves it, with its bounding box. *)
Definition quad_boxed : BufferGeometry :=
  boxed quad (@current_boundingBox (env Accept) sample quad).

(** The same call when the native routine rejects the quad and gives no
    mesh. *)
Definition quad_rejected : State :=
  snd (@geometryToPxMesh (env Reject) world 2 false sample).

(** The quad acquired a second time, and the quad released. *)
Definition quad_shared : State :=
  snd (@geometryToPxMesh (env Accept) world 2 false quad_cooked).

Definition quad_released : State := snd (release 0 quad_cooked).

(** The quad after its first call, once the caller has dropped its vertex
    data: the geometry keeps its uuid and its bounding box and has neither a
    positions array nor an index buffer. *)
Definition quad_stripped : BufferGeometry :=
  {| uuid := "quad"; boundingBox := boundingBox quad_boxed;
     position := plain 7; index := None |}.

Definition quad_emptied : State :=
  set_indexarrays (fun _ => ∅)
    (set_f32arrays (fun _ => ∅)
       (set_geometries <[2 := quad_stripped]> quad_cooked)).

(** The calls whose native routine throws: the quad as a triangle mesh and the
    wide triangle as a convex mesh. *)
Definition quad_crashed : State :=
  snd (@geometryToPxMesh (env Crash) world 2 false sample).

Definition wide_crashed : State :=
  snd (@geometryToPxMesh (env Crash) world 1 true sample).



(** The quad with a position coordinate that is not a number, as geometry 5
    of [sample], and the calls on it whose native routine throws. *)
Definition quad_nan : BufferGeometry :=
  {| uuid := "nan"; boundingBox := None; position := plain 5; index := Some 1 |}.

Definition sample_nan : State :=
  set_f32arrays <[5 := [nan; 0; 0; 5; 0; 0; 5; 5; 0; 0; 5; 0]%float]>
    (set_geometries <[5 := quad_nan]> sample).

Definition nan_crashed : State :=
  snd (@geometryToPxMesh (env Crash) world 5 false sample_nan).

Definition nan_convex_crashed : State :=
  snd (@geometryToPxMesh (env Crash) world 5 true sample_nan).

(** A geometry whose positions array does not exist, as geometry 3 of
    [sample]. *)
Definition bare : BufferGeometry :=
  {| uuid := "bare"; boundingBox := None; position := plain 9; index := None |}.

Definition sample_bare : State := set_geometries <[3 := bare]> sample.

End Reference.

(** * Properties *)

(** ** Binary64 arithmetic: the reciprocal of a number above 5 is below 1, and
    the largest of three numbers *)

Section Binary64.

Lemma digits2_pos_bounds (p : positive) :
  (2 ^ (Z.pos (digits2_pos p) - 1) ≤ Z.pos p < 2 ^ Z.pos (digits2_pos p))%Z.
Proof.
  induction p as [p IH|p IH|]; simpl digits2_pos.
  - rewrite Pos2Z.inj_succ, Z.pow_succ_r by lia.
    replace (Z.succ (Z.pos (digits2_pos p)) - 1)%Z
      with (Z.succ (Z.pos (digits2_pos p) - 1)) by lia.
    rewrite Z.pow_succ_r by lia. lia.
  - rewrite Pos2Z.inj_succ, Z.pow_succ_r by lia.
    replace (Z.succ (Z.pos (digits2_pos p)) - 1)%Z
      with (Z.succ (Z.pos (digits2_pos p) - 1)) by lia.
    rewrite Z.pow_succ_r by lia. lia.
  - simpl. lia.
Qed.

Lemma Zdigits2_le (m k : Z) :
  (0 ≤ m < 2 ^ k)%Z → (0 ≤ k)%Z → (Zdigits2 m ≤ k)%Z.
Proof.
  intros [Hm Hk] Hk0. destruct m as [|p|p]; simpl; [lia| |lia].
  destruct (Z_lt_le_dec k (Z.pos (digits2_pos p))) as [Hlt|]; [|lia].
  pose proof (digits2_pos_bounds p) as [Hlo _].
  assert (2 ^ k ≤ 2 ^ (Z.pos (digits2_pos p) - 1))%Z
    by (apply Z.pow_le_mono_r; lia).
  lia.
Qed.

Lemma shr_1_bounds mrs :
  (0 ≤ shr_m mrs)%Z → (0 ≤ shr_m (shr_1 mrs) ≤ shr_m mrs)%Z.
Proof. destruct mrs as [[|[p|p|]|p] r s]; simpl; lia. Qed.

Lemma iter_shr_1_bounds n : ∀ mrs,
  (0 ≤ shr_m mrs)%Z →
  (0 ≤ shr_m (SpecFloat.iter_pos shr_1 n mrs) ≤ shr_m mrs)%Z.
Proof.
  induction n as [n IH|n IH|]; intros mrs Hm; simpl.
  - pose proof (shr_1_bounds mrs Hm) as H1.
    pose proof (IH _ (proj1 H1)) as H2.
    pose proof (IH _ (proj1 H2)). lia.
  - pose proof (IH _ Hm) as H2. pose proof (IH _ (proj1 H2)). lia.
  - by apply shr_1_bounds.
Qed.

(** A shift to the canonical exponent keeps the mantissa between 0 and what
    it was, and ends at the larger of the two exponents. *)
Lemma shr_fexp_bounds m e l :
  (0 ≤ m)%Z →
  (0 ≤ shr_m (fst (shr_fexp prec emax m e l)) ≤ m)%Z ∧
  snd (shr_fexp prec emax m e l) = Z.max e (fexp prec emax (Zdigits2 m + e)).
Proof.
  intros Hm. unfold shr_fexp, shr.
  assert (Hrec : shr_m (shr_record_of_loc m l) = m) by (by destruct l as [|[]]).
  destruct (fexp prec emax (Zdigits2 m + e) - e)%Z as [|n|n] eqn:E; simpl.
  - rewrite Hrec. lia.
  - pose proof (iter_shr_1_bounds n (shr_record_of_loc m l)).
    rewrite Hrec in *. lia.
  - rewrite Hrec. lia.
Qed.

Lemma round_nearest_even_bounds m l : (m ≤ round_nearest_even m l ≤ m + 1)%Z.
Proof. destruct l as [|[]]; simpl; try lia. destruct (Z.even m); lia. Qed.

(** Rounding a mantissa of at most 2^53 at an exponent of at most -55 gives
    zero or a number whose exponent is at most -53. *)
Lemma binary_round_aux_small s mx ex lx :
  (0 ≤ mx ≤ 2 ^ 53)%Z → (ex ≤ -55)%Z →
  binary_round_aux prec emax s mx ex lx = S754_zero s ∨
  ∃ m e, binary_round_aux prec emax s mx ex lx = S754_finite s m e ∧ (e ≤ -53)%Z.
Proof.
  intros Hmx Hex. unfold binary_round_aux.
  pose proof (shr_fexp_bounds mx ex lx (proj1 Hmx)) as [Hm1 He1].
  destruct (shr_fexp prec emax mx ex lx) as [mrs1 e1]. simpl in Hm1, He1.
  pose proof (round_nearest_even_bounds (shr_m mrs1) (loc_of_shr_record mrs1)) as Hr.
  set (m2 := round_nearest_even (shr_m mrs1) (loc_of_shr_record mrs1)) in *.
  assert (Hm2 : (0 ≤ m2)%Z) by lia.
  pose proof (shr_fexp_bounds m2 e1 loc_Exact Hm2) as [Hm3 He2].
  destruct (shr_fexp prec emax m2 e1 loc_Exact) as [mrs2 e2]. simpl in Hm3, He2.
  assert (Hd1 : (Zdigits2 mx ≤ 54)%Z) by (apply Zdigits2_le; lia).
  assert (Hd2 : (Zdigits2 m2 ≤ 54)%Z) by (apply Zdigits2_le; lia).
  assert (He2' : (e2 ≤ -53)%Z).
  { subst e1 e2. unfold fexp, SpecFloat.emin, prec, emax in *. lia. }
  destruct (shr_m mrs2) as [|p|p]; [by left| |lia].
  right. exists p, e2. split; [|done].
  destruct (Z.leb_spec e2 (emax - prec)) as [|Hgt]; [done|].
  unfold emax, prec in Hgt. lia.
Qed.

Lemma Prim2SF_five : Prim2SF 5 = S754_finite false 5629499534213120 (-50).
Proof. reflexivity. Qed.

Lemma Prim2SF_one : Prim2SF 1 = S754_finite false 4503599627370496 (-52).
Proof. reflexivity. Qed.



(** *** The order of binary64 numbers, and [Math.max] *)
















End Binary64.

(** ** Running computations *)

Section Running.
Context {A B : Type}.

Lemma bind_normal (m : M A) (k : A → M B) s a s' :
  m s = (Normal a, s') → bind m k s = k a s'.
Proof. intros Hm. unfold bind. by rewrite Hm. Qed.

Lemma bind_throw (m : M A) (k : A → M B) s e s' :
  m s = (Throw e, s') → bind m k s = (Throw e, s').
Proof. intros Hm. unfold bind. by rewrite Hm. Qed.

Lemma load_some (heap : State → gmap loc A) l s a :
  heap s !! l = Some a → load heap l s = (Normal a, s).
Proof. intros Hl. unfold load. by rewrite Hl. Qed.

Lemma load_none (heap : State → gmap loc A) l s :
  heap s !! l = None → load heap l s = (Throw TypeError, s).
Proof. intros Hl. unfold load. by rewrite Hl. Qed.

Lemma bind_ret (a : A) (k : A → M B) s : bind (ret a) k s = k a s.
Proof. done. Qed.

Lemma bind_modify (f : State → State) (k : unit → M B) s :
  bind (modify f) k s = k tt (f s).
Proof. done. Qed.

Lemma bind_gets (f : State → A) (k : A → M B) s : bind (gets f) k s = k (f s) s.
Proof. done. Qed.

End Running.

(** ** The bake scale (lines 32-40) *)

Section BakeScale.
Context `{Externals}.

Lemma boxed_id G bbox : boundingBox G = Some bbox → boxed G bbox = G.
Proof. destruct G; simpl; intros ->; done. Qed.

(** Error reports change the log only, and in the log nothing but the count
    of [console.error] calls. *)
Lemma iter_emit n e s :
  Nat.iter n (emit e) s =
    Build_State (cache s) (items s) (handles s) (geometries s) (f32arrays s)
      (indexarrays s) (allocated s) (HEAP s) (pmeshes s) (replicate n e ++ log s).
Proof. induction n as [|n IH]; simpl; [by destruct s|]. by rewrite IH. Qed.

Lemma native_cooks_errors n l :
  native_cooks (replicate n console_error ++ l) = native_cooks l.
Proof. by induction n. Qed.

Lemma native_calls_errors n l :
  native_calls (replicate n console_error ++ l) = native_calls l.
Proof. by induction n. Qed.

Lemma mallocs_errors n l : mallocs (replicate n console_error ++ l) = mallocs l.
Proof. by induction n. Qed.

Lemma native_releases_errors pm n l :
  native_releases pm (replicate n console_error ++ l) = native_releases pm l.
Proof. by induction n. Qed.

Lemma errors_errors n l : errors (replicate n console_error ++ l) = n + errors l.
Proof. induction n as [|n IH]; simpl; [done|]. by rewrite IH. Qed.

Lemma get_boundingBox_run s g G :
  geometries s !! g = Some G →
  ∃ s1, get_boundingBox g s = (Normal (current_boundingBox s G), s1) ∧
        prelude_step g G s s1 ∧
        log s1 = replicate (box_errors s G) console_error ++ log s.
Proof.
  intros HG. unfold get_boundingBox, current_boundingBox, box_errors.
  rewrite (bind_normal _ _ _ _ _ (load_some geometries g s G HG)).
  destruct (boundingBox G) as [bbox|] eqn:Hb.
  - exists s. split; [done|]. split; [|done].
    split; try done. unfold current_boundingBox. rewrite Hb, (boxed_id _ _ Hb).
    by rewrite insert_id.
  - unfold console_errors, bind, gets, modify, ret. rewrite iter_emit.
    eexists. split; [reflexivity|]. split; [|done].
    split; simpl;
      rewrite ?native_cooks_errors, ?mallocs_errors; try done.
    + unfold current_boundingBox, boxed. by rewrite Hb.
    + intros pm. apply native_releases_errors.
Qed.

Lemma computeBakeScale_run s g G :
  geometries s !! g = Some G →
  ∃ s1, computeBakeScale g s = (Normal (bakeScale_in s G), s1) ∧
        prelude_step g G s s1.
Proof.
  intros HG. unfold computeBakeScale.
  destruct (get_boundingBox_run s g G HG) as (s0 & Hrun & Hstep & Hlog).
  rewrite (bind_normal _ _ _ _ _ Hrun).
  assert (HG0 : geometries s0 !! g = Some (boxed G (current_boundingBox s G))).
  { rewrite (pre_geometries _ _ _ _ Hstep). apply lookup_insert_eq. }
  rewrite (bind_normal _ _ _ _ _ (load_some geometries g s0 _ HG0)).
  fold (bakeScale_in s G).
  destruct (Number.strict_ne (bakeScale_in s G) 1).
  - eexists. split; [reflexivity|].
    destruct Hstep. split; simpl; try done.
  - exists s0. by split.
Qed.

(** Once computed, the box is kept: the geometry as the call leaves it has the
    same cache id in every later state. *)
Lemma cache_id_in_boxed s s1 G convex :
  cache_id_in s1 (boxed G (current_boundingBox s G)) convex = cache_id_in s G convex.
Proof. done. Qed.

Lemma TARGET_EXTENT_times_5 : (TARGET_EXTENT * 5)%float = 5%float.
Proof. reflexivity. Qed.


End BakeScale.

(** ** Typed arrays and the two copy loops *)

Section Arrays.
Context `{Externals}.

Lemma arrays_step_refl s : arrays_step s s.
Proof. by split. Qed.

Lemma arrays_step_trans s1 s2 s3 :
  arrays_step s1 s2 → arrays_step s2 s3 → arrays_step s1 s3.
Proof.
  intros [] []. split; try congruence; eauto.
Qed.

Lemma fill_lookup {A B} (f : A → B) d n : ∀ start src dst i,
  fill f d start n src dst !! i =
    if decide (start ≤ i < start + n ∧ i < length dst)
    then Some (f (nth i src d)) else dst !! i.
Proof.
  induction n as [|n IH]; intros start src dst i; simpl.
  - case_decide; [lia|done].
  - rewrite IH, length_insert.
    destruct (decide (i = start)) as [->|Hne].
    + destruct (decide (start < length dst)).
      * rewrite list_lookup_insert_eq by done.
        repeat case_decide; try lia; done.
      * rewrite list_insert_ge by lia.
        repeat case_decide; try lia; done.
    + rewrite list_lookup_insert_ne by done.
      repeat case_decide; try lia; done.
Qed.

(** Run over the whole source, the loop computes [map f]. *)
Lemma fill_map {A B} (f : A → B) d b (src : list A) :
  fill f d 0 (length src) src (replicate (length src) b) = map f src.
Proof.
  apply list_eq. intros i.
  rewrite fill_lookup, length_replicate, list_lookup_fmap.
  destruct (src !! i) as [a|] eqn:Hi.
  - pose proof (lookup_lt_Some _ _ _ Hi).
    rewrite decide_True by lia. simpl. f_equal. f_equal.
    by apply nth_lookup_Some with (d := d) in Hi.
  - pose proof (lookup_ge_None_1 _ _ Hi).
    rewrite decide_False by lia. apply lookup_replicate_None. lia.
Qed.

Lemma new_Float32Array_run xs s :
  ∃ l s1, new_Float32Array xs s = (Normal l, s1) ∧
    f32arrays s !! l = None ∧
    f32arrays s1 = <[l := xs]> (f32arrays s) ∧
    indexarrays s1 = indexarrays s ∧
    arrays_step s s1.
Proof.
  eexists _, _. split; [reflexivity|].
  assert (Hfresh : f32arrays s !! fresh (dom (f32arrays s)) = None).
  { apply not_elem_of_dom, is_fresh. }
  split; [done|]. split; [done|]. split; [done|].
  split; simpl; try done.
  intros l xs' Hl. rewrite lookup_insert_ne; [done|]. congruence.
Qed.

Lemma new_Uint16Array_run n s :
  ∃ l s1, new_Uint16Array n s = (Normal l, s1) ∧
    indexarrays s !! l = None ∧
    indexarrays s1 = <[l := Uint16Array (replicate n 0%Z)]> (indexarrays s) ∧
    f32arrays s1 = f32arrays s ∧
    arrays_step s s1.
Proof.
  eexists _, _. split; [reflexivity|].
  assert (Hfresh : indexarrays s !! fresh (dom (indexarrays s)) = None).
  { apply not_elem_of_dom, is_fresh. }
  split; [done|]. split; [done|]. split; [done|].
  split; simpl; try done.
  intros l a Hl. rewrite lookup_insert_ne; [done|]. congruence.
Qed.

(** The scaling loop writes the scaled values into [scaledPositions] and
    nothing else. *)
Lemma scale_loop_run positions scaledPositions bakeScale xs n :
  positions ≠ scaledPositions →
  ∀ start s dst,
    f32arrays s !! positions = Some xs →
    f32arrays s !! scaledPositions = Some dst →
    for_loop start n (scale_body positions scaledPositions bakeScale) s =
      set_f32arrays
        <[scaledPositions :=
            fill (fun v => Number.fround (v * bakeScale)) nan start n xs dst]> s.
Proof.
  intros Hne. induction n as [|n IH]; intros start s dst Hp Hs; simpl.
  - destruct s; unfold set_f32arrays; simpl in *. f_equal. by rewrite insert_id.
  - rewrite (IH _ _ (<[start := Number.fround (nth start xs nan * bakeScale)]> dst)).
    + unfold scale_body, f32_store, f32_get. rewrite Hp.
      destruct s; unfold set_f32arrays; simpl in *. f_equal.
      apply map_eq. intros l. destruct (decide (l = scaledPositions)) as [->|].
      * by rewrite !lookup_insert_eq.
      * by rewrite !lookup_insert_ne, lookup_alter_ne.
    + unfold scale_body, f32_store. simpl. by rewrite lookup_alter_ne.
    + unfold scale_body, f32_store, f32_get. simpl.
      by rewrite lookup_alter_eq, Hs, Hp.
Qed.

(** The widening loop writes the source values, wrapped to 16 bits, into
    [indices] and nothing else. *)
Lemma widen_loop_run source indices elems n :
  source ≠ indices →
  ∀ start s dst,
    indexarrays s !! source = Some (Uint8Array elems) →
    indexarrays s !! indices = Some (Uint16Array dst) →
    for_loop start n (widen_body source indices) s =
      set_indexarrays
        <[indices := Uint16Array (fill Number.to_uint16 0%Z start n elems dst)]> s.
Proof.
  intros Hne. induction n as [|n IH]; intros start s dst Hp Hs; simpl.
  - destruct s; unfold set_indexarrays; simpl in *. f_equal. by rewrite insert_id.
  - rewrite (IH _ _ (<[start := Number.to_uint16 (nth start elems 0%Z)]> dst)).
    + unfold widen_body, index_store, index_get. rewrite Hp.
      destruct s; unfold set_indexarrays; simpl in *. f_equal.
      apply map_eq. intros l. destruct (decide (l = indices)) as [->|].
      * by rewrite !lookup_insert_eq.
      * by rewrite !lookup_insert_ne, lookup_alter_ne.
    + unfold widen_body, index_store. simpl. by rewrite lookup_alter_ne.
    + unfold widen_body, index_store, index_get. simpl.
      by rewrite lookup_alter_eq, Hs, Hp.
Qed.

(** Values in the 8 bit range pass unchanged through a 16 bit store. *)
Lemma to_uint16_small (v : Z) : (0 ≤ v < 256)%Z → Number.to_uint16 v = v.
Proof.
  intros Hv. unfold Number.to_uint16.
  change 65535%Z with (Z.ones 16). rewrite Z.land_ones by lia.
  apply Z.mod_small. lia.
Qed.

Lemma map_to_uint16_small (elems : list Z) :
  Forall (fun v => 0 ≤ v < 256)%Z elems → map Number.to_uint16 elems = elems.
Proof.
  induction 1 as [|v l Hv _ IH]; simpl; [done|].
  by rewrite to_uint16_small, IH.
Qed.

End Arrays.

(** ** Positions and indices (lines 59-76 and 101-110) *)

Section Normalize.
Context `{Externals}.

Lemma normalizePosition_plain G s :
  isInterleavedBufferAttribute (position G) = false →
  normalizePosition G s = (Normal (array (position G)), s).
Proof. intros Hi. unfold normalizePosition. by rewrite Hi. Qed.

Lemma normalizePosition_missing G s :
  isInterleavedBufferAttribute (position G) = true →
  f32arrays s !! array (position G) = None →
  normalizePosition G s = (Throw TypeError, s).
Proof.
  intros Hi Hp. unfold normalizePosition. rewrite Hi.
  by rewrite (bind_throw _ _ _ _ _ (load_none f32arrays _ s Hp)).
Qed.

Lemma normalizePosition_interleaved G s xs :
  isInterleavedBufferAttribute (position G) = true →
  f32arrays s !! array (position G) = Some xs →
  ∃ p s1, normalizePosition G s = (Normal p, s1) ∧
    f32arrays s !! p = None ∧
    f32arrays s1 !! p = Some (deinterleaveAttribute (position G) xs) ∧
    indexarrays s1 = indexarrays s ∧
    arrays_step s s1.
Proof.
  intros Hi Hp. unfold normalizePosition. rewrite Hi.
  rewrite (bind_normal _ _ _ _ _ (load_some f32arrays _ s _ Hp)).
  destruct (new_Float32Array_run (deinterleaveAttribute (position G) xs) s)
    as (d & s0 & Hrun0 & Hfresh0 & Hd & Hidx0 & Hstep0).
  rewrite (bind_normal _ _ _ _ _ Hrun0).
  assert (Hd0 : f32arrays s0 !! d = Some (deinterleaveAttribute (position G) xs))
    by (rewrite Hd; apply lookup_insert_eq).
  rewrite (bind_normal _ _ _ _ _ (load_some f32arrays _ s0 _ Hd0)).
  destruct (new_Float32Array_run (deinterleaveAttribute (position G) xs) s0)
    as (p & s1 & Hrun1 & Hfresh1 & Hp1 & Hidx1 & Hstep1).
  exists p, s1. split; [done|]. split; [|split; [|split]].
  - destruct (f32arrays s !! p) as [ys|] eqn:Hsp; [|done].
    apply (as_f32arrays _ _ Hstep0) in Hsp. congruence.
  - rewrite Hp1. apply lookup_insert_eq.
  - congruence.
  - by apply arrays_step_trans with s0.
Qed.

Lemma scalePositions_missing positions bakeScale s :
  f32arrays s !! positions = None →
  scalePositions positions bakeScale s = (Throw TypeError, s).
Proof.
  intros Hp. unfold scalePositions.
  by rewrite (bind_throw _ _ _ _ _ (load_none f32arrays _ s Hp)).
Qed.

Lemma scalePositions_pass positions bakeScale s xs :
  f32arrays s !! positions = Some xs →
  Number.strict_eq bakeScale 1 = true →
  scalePositions positions bakeScale s = (Normal positions, s).
Proof.
  intros Hp Hb. unfold scalePositions.
  rewrite (bind_normal _ _ _ _ _ (load_some f32arrays _ s _ Hp)).
  unfold Number.strict_ne. by rewrite Hb.
Qed.

Lemma scalePositions_scale positions bakeScale s xs :
  f32arrays s !! positions = Some xs →
  Number.strict_eq bakeScale 1 = false →
  ∃ scaledPositions s1,
    scalePositions positions bakeScale s = (Normal scaledPositions, s1) ∧
    f32arrays s !! scaledPositions = None ∧
    f32arrays s1 =
      <[scaledPositions := map (fun v => Number.fround (v * bakeScale)) xs]>
        (f32arrays s) ∧
    indexarrays s1 = indexarrays s ∧
    arrays_step s s1.
Proof.
  intros Hp Hb. unfold scalePositions.
  rewrite (bind_normal _ _ _ _ _ (load_some f32arrays _ s _ Hp)).
  unfold Number.strict_ne. rewrite Hb.
  destruct (new_Float32Array_run (replicate (length xs) 0%float) s)
    as (sp & s0 & Hrun0 & Hfresh0 & Hsp & Hidx0 & Hstep0).
  rewrite (bind_normal _ _ _ _ _ Hrun0). simpl negb. cbv iota.
  assert (Hne : positions ≠ sp) by congruence.
  assert (Hp0 : f32arrays s0 !! positions = Some xs)
    by (by apply (as_f32arrays _ _ Hstep0)).
  assert (Hsp0 : f32arrays s0 !! sp = Some (replicate (length xs) 0%float))
    by (rewrite Hsp; apply lookup_insert_eq).
  unfold bind, modify, ret.
  rewrite (scale_loop_run _ _ _ _ _ Hne _ _ _ Hp0 Hsp0), fill_map.
  eexists _, _. split; [reflexivity|]. split; [done|]. split; [|split].
  - simpl. rewrite Hsp. apply insert_insert_eq.
  - done.
  - destruct Hstep0. split; simpl; try done.
    + intros l ys Hl. rewrite lookup_insert_ne by congruence. eauto.
Qed.

Lemma normalizeIndices_missing source s :
  indexarrays s !! source = None →
  normalizeIndices source s = (Throw TypeError, s).
Proof.
  intros Hs. unfold normalizeIndices.
  by rewrite (bind_throw _ _ _ _ _ (load_none indexarrays _ s Hs)).
Qed.

Lemma normalizeIndices_adequate source s a :
  indexarrays s !! source = Some a →
  (∀ elems, a ≠ Uint8Array elems) →
  normalizeIndices source s = (Normal source, s).
Proof.
  intros Hs Ha. unfold normalizeIndices.
  rewrite (bind_normal _ _ _ _ _ (load_some indexarrays _ s _ Hs)).
  destruct a as [elems| |]; [by destruct (Ha elems)|done|done].
Qed.

Lemma normalizeIndices_widen source s elems :
  indexarrays s !! source = Some (Uint8Array elems) →
  ∃ indices s1,
    normalizeIndices source s = (Normal indices, s1) ∧
    indexarrays s !! indices = None ∧
    indexarrays s1 =
      <[indices := Uint16Array (map Number.to_uint16 elems)]> (indexarrays s) ∧
    f32arrays s1 = f32arrays s ∧
    arrays_step s s1.
Proof.
  intros Hs. unfold normalizeIndices.
  rewrite (bind_normal _ _ _ _ _ (load_some indexarrays _ s _ Hs)).
  destruct (new_Uint16Array_run (length elems) s)
    as (ind & s0 & Hrun0 & Hfresh0 & Hind & Hf32 & Hstep0).
  rewrite (bind_normal _ _ _ _ _ Hrun0).
  assert (Hne : source ≠ ind) by congruence.
  assert (Hs0 : indexarrays s0 !! source = Some (Uint8Array elems))
    by (by apply (as_indexarrays _ _ Hstep0)).
  assert (Hind0 :
    indexarrays s0 !! ind = Some (Uint16Array (replicate (length elems) 0%Z)))
    by (rewrite Hind; apply lookup_insert_eq).
  unfold bind, modify, ret.
  rewrite (widen_loop_run _ _ _ _ Hne _ _ _ Hs0 Hind0), fill_map.
  eexists _, _. split; [reflexivity|]. split; [done|]. split; [|split].
  - simpl. rewrite Hind. apply insert_insert_eq.
  - done.
  - destruct Hstep0. split; simpl; try done.
    + intros l ys Hl. rewrite lookup_insert_ne by congruence. eauto.
Qed.

End Normalize.

(** ** Foreign memory *)

Section ForeignMemory.

Lemma heap_top_above (blocks : gmap Z Z) :
  ∀ p n, blocks !! p = Some n → (p < heap_top blocks)%Z.
Proof.
  unfold heap_top.
  apply (map_fold_weak_ind
           (fun top (m : gmap Z Z) => ∀ p n, m !! p = Some n → (p < top)%Z)).
  - intros p n Hp. by rewrite lookup_empty in Hp.
  - intros i n m top Hi IH p n' Hp.
    destruct (decide (p = i)) as [->|Hne].
    + lia.
    + rewrite lookup_insert_ne in Hp by done. specialize (IH _ _ Hp). lia.
Qed.

(** The next block is not a live one. *)
Lemma next_block_fresh (blocks : gmap Z Z) : blocks !! next_block blocks = None.
Proof.
  destruct (blocks !! next_block blocks) as [n|] eqn:Hp; [|done].
  apply heap_top_above in Hp. unfold next_block in Hp.
  pose proof (Z.div_mod (heap_top blocks + 7) 8).
  pose proof (Z.mod_pos_bound (heap_top blocks + 7) 8). lia.
Qed.

(** It is aligned, so the element offsets [ptr >> 2] and [ptr >> 1] address
    it. *)
Lemma next_block_shift2 (blocks : gmap Z Z) :
  Z.shiftl (Z.shiftr (next_block blocks) 2) 2 = next_block blocks.
Proof.
  unfold next_block. rewrite Z.shiftr_div_pow2, Z.shiftl_mul_pow2 by lia.
  change (2 ^ 2)%Z with 4%Z.
  replace (8 * ((heap_top blocks + 7) / 8))%Z
    with (2 * ((heap_top blocks + 7) / 8) * 4)%Z by lia.
  rewrite Z.div_mul by lia. done.
Qed.

Lemma next_block_shift1 (blocks : gmap Z Z) :
  Z.shiftl (Z.shiftr (next_block blocks) 1) 1 = next_block blocks.
Proof.
  unfold next_block. rewrite Z.shiftr_div_pow2, Z.shiftl_mul_pow2 by lia.
  change (2 ^ 1)%Z with 2%Z.
  replace (8 * ((heap_top blocks + 7) / 8))%Z
    with (4 * ((heap_top blocks + 7) / 8) * 2)%Z by lia.
  rewrite Z.div_mul by lia. done.
Qed.

(** A block that is allocated and then freed leaves the live blocks as they
    were. *)
Lemma malloc_free (blocks : gmap Z Z) (bytes : Z) :
  delete (next_block blocks) (<[next_block blocks := bytes]> blocks) = blocks.
Proof. rewrite delete_insert_eq. apply delete_id, next_block_fresh. Qed.

End ForeignMemory.

(** ** Cooking (lines 50-144) *)

Section Cooking.
Context `{Externals}.

Lemma call_frame_refl s : call_frame s s.
Proof. by split. Qed.

Lemma call_frame_trans s1 s2 s3 :
  call_frame s1 s2 → call_frame s2 s3 → call_frame s1 s3.
Proof. intros [] []. split; try congruence; eauto. Qed.

Lemma arrays_step_call_frame s s' : arrays_step s s' → call_frame s s'.
Proof.
  intros []. split; try done.
  - intros pm b. congruence.
  - intros pm. congruence.
Qed.

(** The mesh of a cooking call is a new one, and not the wrapper of the null
    pointer. *)
Lemma fresh_mesh_new (m : gmap nat bool) :
  m !! fresh ({[null_mesh]} ∪ dom m) = None.
Proof.
  apply not_elem_of_dom.
  pose proof (is_fresh ({[null_mesh]} ∪ dom m)). set_solver.
Qed.

Lemma fresh_mesh_not_null (m : gmap nat bool) :
  fresh ({[null_mesh]} ∪ dom m) ≠ null_mesh.
Proof. pose proof (is_fresh ({[null_mesh]} ∪ dom m)). set_solver. Qed.

Lemma cookConvex_spec params ptr n s :
  ∃ r s', cookConvex params ptr n s = (r, s') ∧
    call_frame s s' ∧ allocated s' = allocated s ∧
    mallocs (log s') = mallocs (log s) ∧
    ∃ o, native_cooks (log s') = o :: native_cooks (log s) ∧
         branch_result true o r ∧
         (∀ pm, o = Cooked pm → pmeshes s !! pm = None ∧ pmeshes s' !! pm = Some true).
Proof.
  unfold cookConvex, PHYSX_CreateConvexMesh, finish_cook, bind, modify, ret.
  simpl.
  destruct (cook_convex _ _ _ _); simpl.
  - eexists _, _. split; [reflexivity|]. simpl.
    pose proof (fresh_mesh_new (pmeshes s)) as Hfresh.
    split; [|split; [done|split; [done|]]].
    + split; simpl; try done. intros pm b Hpm.
      rewrite lookup_insert_ne; [done|congruence].
    + eexists. split; [reflexivity|]. split; [by eexists|].
      intros pm [= <-]. split; [done|]. apply lookup_insert_eq.
  - eexists _, _. split; [reflexivity|]. simpl.
    split; [by split|]. split; [done|]. split; [done|].
    eexists. split; [reflexivity|]. split; [by eexists|]. done.
  - eexists _, _. split; [reflexivity|]. simpl.
    split; [by split|]. split; [done|]. split; [done|].
    eexists. split; [reflexivity|]. split; [done|]. done.
Qed.

(** What normalisation hands on: the array itself, or its 16 bit copy. *)
Lemma normalizeIndices_ok source s a :
  indexarrays s !! source = Some a →
  ∃ indices s1 arr,
    normalizeIndices source s = (Normal indices, s1) ∧
    indexarrays s1 !! indices = Some arr ∧
    arr = match a with
          | Uint8Array elems => Uint16Array (map Number.to_uint16 elems)
          | _ => a
          end ∧
    arrays_step s s1.
Proof.
  intros Hs. destruct a as [elems|elems|elems].
  - destruct (normalizeIndices_widen source s elems Hs)
      as (ind & s1 & Hrun & _ & Hind & _ & Hstep).
    exists ind, s1, (Uint16Array (map Number.to_uint16 elems)).
    split; [done|]. split; [|done]. rewrite Hind. apply lookup_insert_eq.
  - exists source, s, (Uint16Array elems).
    split; [by apply (normalizeIndices_adequate _ _ _ Hs)|].
    split; [done|]. split; [done|]. apply arrays_step_refl.
  - exists source, s, (Uint32Array elems).
    split; [by apply (normalizeIndices_adequate _ _ _ Hs)|].
    split; [done|]. split; [done|]. apply arrays_step_refl.
Qed.

Lemma cookIndexed_spec params points indices arr s :
  indexarrays s !! indices = Some arr →
  ∃ r s', cookIndexed params points indices s = (r, s') ∧
    call_frame s s' ∧ allocated s' = allocated s ∧
    length (mallocs (log s')) = S (length (mallocs (log s))) ∧
    ∃ o, native_cooks (log s') = o :: native_cooks (log s) ∧
         branch_result false o r ∧
         (∀ pm, o = Cooked pm → pmeshes s !! pm = None ∧ pmeshes s' !! pm = Some true).
Proof.
  intros Harr. unfold cookIndexed.
  rewrite (bind_normal _ _ _ _ _ (load_some indexarrays _ s _ Harr)).
  pose proof (fresh_mesh_new (pmeshes s)) as Hfresh.
  unfold try_catch_finally, PHYSX_CreateTriangleMesh, finish_cook,
    _webidl_malloc, _webidl_free, HEAPU16_set, HEAPU32_set, bind, modify, ret.
  destruct arr as [elems|elems|elems]; simpl;
    destruct (cook_triangles _ _ _ _ _); simpl;
    (eexists _, _; split; [reflexivity|]; simpl;
     split; [split; simpl; try done;
             try (intros pm b Hpm; rewrite lookup_insert_ne; [done|congruence])|];
     split; [apply malloc_free|]; split; [done|];
     eexists; split; [reflexivity|]; split; [by eexists|];
     first [done | intros pm [= <-]; split; [done|]; apply lookup_insert_eq]).
Qed.

Lemma cookTriangles_spec params G ptr n s :
  ∃ r s', cookTriangles params G ptr n s = (r, s') ∧
    call_frame s s' ∧ allocated s' = allocated s ∧
    ((¬ has_indices s G false ∧ r = Throw TypeError ∧
      native_cooks (log s') = native_cooks (log s) ∧
      mallocs (log s') = mallocs (log s))
     ∨
     (has_indices s G false ∧
      length (mallocs (log s')) = S (length (mallocs (log s))) ∧
      ∃ o, native_cooks (log s') = o :: native_cooks (log s) ∧
           branch_result false o r ∧
           (∀ pm, o = Cooked pm →
                  pmeshes s !! pm = None ∧ pmeshes s' !! pm = Some true))).
Proof.
  unfold cookTriangles. rewrite bind_modify.
  set (s0 := emit (new_desc false) s).
  assert (Hs0 : call_frame s s0) by (by split).
  destruct (index G) as [il|] eqn:Hil; simpl deref.
  2:{ exists (Throw TypeError), s0. split; [done|]. split; [done|]. split; [done|].
      left. split; [|done]. intros Hi. destruct (Hi eq_refl) as (? & ? & _). congruence. }
  rewrite bind_ret.
  destruct (indexarrays s !! il) as [a|] eqn:Ha.
  2:{ exists (Throw TypeError), s0. split.
      { by rewrite (bind_throw _ _ _ _ _ (normalizeIndices_missing il s0 Ha)). }
      split; [done|]. split; [done|].
      left. split; [|done]. intros Hi.
      destruct (Hi eq_refl) as (il' & Hil' & Hsome).
      rewrite Hil in Hil'. injection Hil' as <-.
      rewrite Ha in Hsome. by destruct Hsome. }
  destruct (normalizeIndices_ok il s0 a Ha)
    as (ind & s1 & arr & Hrun & Harr & _ & Hstep).
  rewrite (bind_normal _ _ _ _ _ Hrun).
  destruct (cookIndexed_spec params
              {| count := Z.of_nat n / 3; data_stride := 12; data := ptr |}
              ind arr s1 Harr)
    as (r & s' & Hrun' & Hframe & Halloc & Hmallocs & o & Hcooks & Hres & Hpm).
  exists r, s'. split; [done|].
  split.
  { apply call_frame_trans with s0; [done|].
    apply call_frame_trans with s1; [by apply arrays_step_call_frame|done]. }
  split.
  { rewrite Halloc. by rewrite (as_allocated _ _ Hstep). }
  right. split.
  { intros _. exists il. split; [done|]. by rewrite Ha. }
  split.
  { rewrite Hmallocs. by rewrite (as_log _ _ Hstep). }
  exists o. split.
  { rewrite Hcooks. by rewrite (as_log _ _ Hstep). }
  split; [done|].
  intros pm Ho. destruct (Hpm pm Ho) as [Hnone Hlive].
  split; [|done]. by rewrite (as_pmeshes _ _ Hstep) in Hnone.
Qed.

Lemma bridge_of_branch convex o r desc_pmesh :
  branch_result convex o r → r = Normal desc_pmesh →
  bridge_result convex o (Normal (snd desc_pmesh)).
Proof.
  intros Hres ->. destruct o as [pm| |]; simpl in *.
  - destruct Hres as [desc [= ->]]. done.
  - destruct Hres as [desc [= ->]]. done.
  - destruct convex; [done|]. destruct Hres as [desc [= ->]]. done.
Qed.

Lemma marshal_spec world G convex scaled n s :
  ∃ r s', marshal world G convex scaled n s = (r, s') ∧
    call_frame s s' ∧
    (∀ a, r = Normal a → allocated s' = allocated s) ∧
    ((¬ has_indices s G convex ∧ r = Throw TypeError ∧
      native_cooks (log s') = native_cooks (log s) ∧
      mallocs (log s') =
        ((Z.of_nat (length scaled) * 4)%Z, next_block (allocated s))
          :: mallocs (log s))
     ∨
     (has_indices s G convex ∧
      ∃ o, native_cooks (log s') = o :: native_cooks (log s) ∧
           bridge_result convex o r ∧
           (∀ pm, o = Cooked pm →
                  pmeshes s !! pm = None ∧ pmeshes s' !! pm = Some true))).
Proof.
  unfold marshal.
  set (bytes := (Z.of_nat (length scaled) * 4)%Z).
  set (ptr := next_block (allocated s)).
  set (s1 := set_HEAP <[Z.shiftl (Z.shiftr ptr 2) 2 := F32 scaled]>
               (emit (webidl_malloc bytes ptr)
                  (set_allocated <[ptr := bytes]> s))).
  assert (Hs1 : call_frame s s1) by (by split).
  assert (Hstart : ∀ k : Z → M (option nat),
    bind (_webidl_malloc bytes)
      (fun p => bind (HEAPF32_set scaled (Z.shiftr p 2)) (fun _ => k p)) s
    = k ptr s1) by done.
  rewrite Hstart. clear Hstart.
  assert (Hbranch : ∃ rb sb,
    (if convex then cookConvex (cookingParams world) ptr n
     else cookTriangles (cookingParams world) G ptr n) s1 = (rb, sb) ∧
    call_frame s1 sb ∧ allocated sb = allocated s1 ∧
    ((¬ has_indices s G convex ∧ rb = Throw TypeError ∧
      native_cooks (log sb) = native_cooks (log s) ∧
      mallocs (log sb) = (bytes, ptr) :: mallocs (log s))
     ∨
     (has_indices s G convex ∧
      ∃ o, native_cooks (log sb) = o :: native_cooks (log s) ∧
           branch_result convex o rb ∧
           (∀ pm, o = Cooked pm →
                  pmeshes s !! pm = None ∧ pmeshes sb !! pm = Some true)))).
  { destruct convex.
    - destruct (cookConvex_spec (cookingParams world) ptr n s1)
        as (rb & sb & Hrun & Hframe & Halloc & _ & o & Hcooks & Hres & Hpm).
      exists rb, sb. split; [done|]. split; [done|]. split; [done|].
      right. split; [done|]. by exists o.
    - destruct (cookTriangles_spec (cookingParams world) G ptr n s1)
        as (rb & sb & Hrun & Hframe & Halloc & Hcases).
      exists rb, sb. split; [done|]. split; [done|]. split; [done|].
      destruct Hcases as [(Hno & -> & Hcooks & Hmallocs)
                         |(Hyes & _ & o & Hcooks & Hres & Hpm)].
      + left. split; [done|]. split; [done|]. split; [done|].
        by rewrite Hmallocs.
      + right. split; [done|]. by exists o. }
  destruct Hbranch as (rb & sb & Hrun & Hframe & Halloc & Hcases).
  destruct rb as [[desc pmesh]|e].
  - rewrite (bind_normal _ _ _ _ _ Hrun).
    eexists _, _. split; [reflexivity|]. split; [|split].
    + apply call_frame_trans with s1; [done|].
      apply call_frame_trans with sb; [done|]. by split.
    + intros _ _. simpl. rewrite Halloc. apply malloc_free.
    + destruct Hcases as [(_ & [=] & _)|(Hyes & o & Hcooks & Hres & Hpm)].
      right. split; [done|]. exists o. split; [done|].
      split; [by apply (bridge_of_branch _ _ _ (desc, pmesh) Hres)|done].
  - rewrite (bind_throw _ _ _ _ _ Hrun).
    exists (Throw e), sb. split; [done|]. split; [|split].
    + by apply call_frame_trans with s1.
    + done.
    + destruct Hcases as [(Hno & [= ->] & Hcooks & Hmallocs)
                         |(Hyes & o & Hcooks & Hres & Hpm)].
      * by left.
      * right. split; [done|]. exists o. split; [done|]. split; [|done].
        destruct o as [pm| |]; simpl in *.
        -- by destruct Hres as [desc ?].
        -- by destruct Hres as [desc ?].
        -- destruct convex; simpl in *; [by injection Hres as ->|].
           by destruct Hres as [desc ?].
Qed.

(** The positions phase, when the geometry's positions array exists: the
    array of the positions and the array sent to PhysX. *)
Lemma positions_phase G bakeScale s :
  has_positions s G →
  ∃ positions s1 scaledPositions s2 original scaled,
    normalizePosition G s = (Normal positions, s1) ∧
    scalePositions positions bakeScale s1 = (Normal scaledPositions, s2) ∧
    f32arrays s2 !! positions = Some original ∧
    f32arrays s2 !! scaledPositions = Some scaled ∧
    indexarrays s2 = indexarrays s ∧
    arrays_step s s2.
Proof.
  intros [xs Hxs].
  assert (Hnorm : ∃ positions s1 original,
    normalizePosition G s = (Normal positions, s1) ∧
    f32arrays s1 !! positions = Some original ∧
    indexarrays s1 = indexarrays s ∧ arrays_step s s1).
  { destruct (isInterleavedBufferAttribute (position G)) eqn:Hi.
    - destruct (normalizePosition_interleaved G s xs Hi Hxs)
        as (p & s1 & Hrun & _ & Hp & Hidx & Hstep).
      by exists p, s1, (deinterleaveAttribute (position G) xs).
    - exists (array (position G)), s, xs.
      split; [by apply normalizePosition_plain|].
      split; [done|]. split; [done|]. apply arrays_step_refl. }
  destruct Hnorm as (p & s1 & original & Hrun1 & Hp & Hidx1 & Hstep1).
  destruct (Number.strict_eq bakeScale 1) eqn:Hb.
  - exists p, s1, p, s1, original, original.
    split; [done|]. split; [by apply (scalePositions_pass _ _ _ _ Hp)|done].
  - destruct (scalePositions_scale p bakeScale s1 original Hp Hb)
      as (sp & s2 & Hrun2 & Hfresh & Hs2 & Hidx2 & Hstep2).
    exists p, s1, sp, s2, original,
      (map (fun v => Number.fround (v * bakeScale)) original).
    split; [done|]. split; [done|]. split; [by apply (as_f32arrays _ _ Hstep2)|].
    split; [rewrite Hs2; apply lookup_insert_eq|].
    split; [congruence|]. by apply arrays_step_trans with s1.
Qed.

(** The cooking bridge as a whole.  Without its positions array, or in
    triangle mode without its index array, the geometry makes the call throw
    a [TypeError] before the native routine is reached; otherwise the native
    routine is called once and its outcome decides the result. *)
Lemma cook_spec world G convex bakeScale s :
  ∃ r s', cook world G convex bakeScale s = (r, s') ∧
    call_frame s s' ∧
    (∀ a, r = Normal a → allocated s' = allocated s) ∧
    ((¬ has_positions s G ∧ r = Throw TypeError ∧
      native_cooks (log s') = native_cooks (log s) ∧
      mallocs (log s') = mallocs (log s))
     ∨
     (has_positions s G ∧ ¬ has_indices s G convex ∧ r = Throw TypeError ∧
      native_cooks (log s') = native_cooks (log s) ∧
      ∃ bytes ptr, mallocs (log s') = (bytes, ptr) :: mallocs (log s))
     ∨
     (has_positions s G ∧ has_indices s G convex ∧
      ∃ o, native_cooks (log s') = o :: native_cooks (log s) ∧
           bridge_result convex o r ∧
           (∀ pm, o = Cooked pm →
                  pmeshes s !! pm = None ∧ pmeshes s' !! pm = Some true))).
Proof.
  unfold cook.
  destruct (f32arrays s !! array (position G)) as [xs|] eqn:Hxs.
  2:{ exists (Throw TypeError), s. split.
      { destruct (isInterleavedBufferAttribute (position G)) eqn:Hi.
        - by rewrite (bind_throw _ _ _ _ _ (normalizePosition_missing G s Hi Hxs)).
        - rewrite (bind_normal _ _ _ _ _ (normalizePosition_plain G s Hi)).
          by rewrite (bind_throw _ _ _ _ _ (scalePositions_missing _ _ s Hxs)). }
      split; [apply call_frame_refl|]. split; [done|].
      left. split; [|done]. unfold has_positions. rewrite Hxs. by intros [? ?]. }
  assert (Hpos : has_positions s G) by (unfold has_positions; by rewrite Hxs).
  destruct (positions_phase G bakeScale s Hpos)
    as (p & s1 & sp & s2 & original & scaled & Hrun1 & Hrun2 & Hp & Hsp & Hidx & Hstep).
  rewrite (bind_normal _ _ _ _ _ Hrun1), (bind_normal _ _ _ _ _ Hrun2).
  rewrite (bind_normal _ _ _ _ _ (load_some f32arrays _ s2 _ Hsp)).
  rewrite (bind_normal _ _ _ _ _ (load_some f32arrays _ s2 _ Hp)).
  destruct (marshal_spec world G convex scaled (length original) s2)
    as (r & s' & Hrun & Hframe & Halloc & Hcases).
  assert (Hind : has_indices s2 G convex ↔ has_indices s G convex).
  { unfold has_indices. by rewrite Hidx. }
  exists r, s'. split; [done|]. split; [|split].
  - apply call_frame_trans with s2; [by apply arrays_step_call_frame|done].
  - intros a Hr. rewrite (Halloc a Hr). apply (as_allocated _ _ Hstep).
  - right. rewrite (as_log _ _ Hstep), (as_pmeshes _ _ Hstep) in Hcases.
    destruct Hcases as [(Hno & Hr & Hcooks & Hmallocs)|(Hyes & Hrest)].
    + left. rewrite Hind in Hno. rewrite (as_allocated _ _ Hstep) in Hmallocs.
      split; [done|]. split; [done|]. split; [done|]. split; [done|].
      by eexists _, _.
    + right. rewrite Hind in Hyes. done.
Qed.

(** An exception that leaves the marshalling code leaves the positions block
    allocated: [PHYSX._webidl_free(pointsPtr)] comes after the branch and is
    not reached. *)
Lemma marshal_throw_leaks world G convex scaled n s e s' :
  marshal world G convex scaled n s = (Throw e, s') →
  allocated s' =
    <[next_block (allocated s) := (Z.of_nat (length scaled) * 4)%Z]> (allocated s).
Proof.
  unfold marshal.
  set (bytes := (Z.of_nat (length scaled) * 4)%Z).
  set (ptr := next_block (allocated s)).
  set (s1 := set_HEAP <[Z.shiftl (Z.shiftr ptr 2) 2 := F32 scaled]>
               (emit (webidl_malloc bytes ptr)
                  (set_allocated <[ptr := bytes]> s))).
  assert (Hstart : ∀ k : Z → M (option nat),
    bind (_webidl_malloc bytes)
      (fun p => bind (HEAPF32_set scaled (Z.shiftr p 2)) (fun _ => k p)) s
    = k ptr s1) by done.
  rewrite Hstart. clear Hstart.
  assert (Hbranch : ∃ rb sb,
    (if convex then cookConvex (cookingParams world) ptr n
     else cookTriangles (cookingParams world) G ptr n) s1 = (rb, sb) ∧
    allocated sb = allocated s1).
  { destruct convex.
    - destruct (cookConvex_spec (cookingParams world) ptr n s1)
        as (rb & sb & Hrun & _ & Halloc & _). by exists rb, sb.
    - destruct (cookTriangles_spec (cookingParams world) G ptr n s1)
        as (rb & sb & Hrun & _ & Halloc & _). by exists rb, sb. }
  destruct Hbranch as (rb & sb & Hrun & Halloc).
  destruct rb as [[desc pmesh]|e'].
  - by rewrite (bind_normal _ _ _ _ _ Hrun).
  - rewrite (bind_throw _ _ _ _ _ Hrun). intros [= <- <-]. by rewrite Halloc.
Qed.

Lemma cook_throw_leaks world G convex bakeScale s e s' :
  has_positions s G →
  cook world G convex bakeScale s = (Throw e, s') →
  ∃ bytes, allocated s' = <[next_block (allocated s) := bytes]> (allocated s).
Proof.
  intros Hpos. unfold cook.
  destruct (positions_phase G bakeScale s Hpos)
    as (p & s1 & sp & s2 & original & scaled & Hrun1 & Hrun2 & Hp & Hsp & _ & Hstep).
  rewrite (bind_normal _ _ _ _ _ Hrun1), (bind_normal _ _ _ _ _ Hrun2).
  rewrite (bind_normal _ _ _ _ _ (load_some f32arrays _ s2 _ Hsp)).
  rewrite (bind_normal _ _ _ _ _ (load_some f32arrays _ s2 _ Hp)).
  intros Hrun. apply marshal_throw_leaks in Hrun.
  rewrite (as_allocated _ _ Hstep) in Hrun. by eexists.
Qed.

End Cooking.

(** ** Handles *)

Section Handles.
Context `{Externals}.

Lemma new_PMeshHandle_run l it s :
  items s !! l = Some it →
  new_PMeshHandle l s = (Normal (fresh (dom (handles s))), with_handle l it s).
Proof.
  intros Hl. unfold new_PMeshHandle.
  by rewrite (bind_normal _ _ _ _ _ (load_some items l s it Hl)).
Qed.

Lemma new_PMeshHandle_missing l s :
  items s !! l = None → new_PMeshHandle l s = (Throw TypeError, s).
Proof.
  intros Hl. unfold new_PMeshHandle.
  by rewrite (bind_throw _ _ _ _ _ (load_none items l s Hl)).
Qed.

Lemma fresh_handle s : handles s !! fresh (dom (handles s)) = None.
Proof. apply not_elem_of_dom, is_fresh. Qed.

Lemma fresh_item_loc s : items s !! fresh (dom (items s)) = None.
Proof. apply not_elem_of_dom, is_fresh. Qed.

Lemma release_unknown h s :
  handles s !! h = None → release h s = (Throw TypeError, s).
Proof.
  intros Hh. unfold release.
  by rewrite (bind_throw _ _ _ _ _ (load_none handles h s Hh)).
Qed.

(** A released handle: [release()] returns at once. *)
Lemma release_released h this s :
  handles s !! h = Some this → released this = true →
  release h s = (Normal tt, s).
Proof.
  intros Hh Hr. unfold release.
  rewrite (bind_normal _ _ _ _ _ (load_some handles h s this Hh)).
  by rewrite Hr.
Qed.

Lemma release_dangling h this s :
  handles s !! h = Some this → released this = false →
  items s !! item this = None →
  release h s = (Throw TypeError, s).
Proof.
  intros Hh Hr Hi. unfold release.
  rewrite (bind_normal _ _ _ _ _ (load_some handles h s this Hh)), Hr.
  by rewrite (bind_throw _ _ _ _ _ (load_none items _ s Hi)).
Qed.

(** The first [release()] of a handle. *)
Lemma release_first h this it s :
  handles s !! h = Some this → released this = false →
  items s !! item this = Some it →
  release h s = (Normal tt, after_release h this it s).
Proof.
  intros Hh Hr Hi. unfold release, after_release.
  rewrite (bind_normal _ _ _ _ _ (load_some handles h s this Hh)), Hr.
  rewrite (bind_normal _ _ _ _ _ (load_some items _ s it Hi)).
  rewrite bind_modify. simpl item_refs.
  by destruct (item_refs it - 1 =? 0)%Z.
Qed.

(** C2.  [release()] is idempotent.  The first call on a handle decrements
    the reference count of its item by exactly one; when the count reaches 0
    the cooked mesh is released natively, once, and the entry is removed from
    the cache, and otherwise neither happens; every later call changes
    nothing. *)
Theorem release_idempotent (s : State) (h : loc) (this : PMeshHandle) (it : Item) :
  handles s !! h = Some this → released this = false →
  items s !! item this = Some it →
  ∃ s1, release h s = (Normal tt, s1) ∧
    (∃ it1, items s1 !! item this = Some it1 ∧
            item_refs it1 = (item_refs it - 1)%Z ∧
            item_id it1 = item_id it ∧ item_pmesh it1 = item_pmesh it) ∧
    (∀ l, l ≠ item this → items s1 !! l = items s !! l) ∧
    ((item_refs it - 1 = 0)%Z →
       native_releases (item_pmesh it) (log s1)
         = S (native_releases (item_pmesh it) (log s)) ∧
       pmeshes s1 !! item_pmesh it = Some false ∧
       cache s1 !! item_id it = None) ∧
    ((item_refs it - 1 ≠ 0)%Z →
       log s1 = log s ∧ pmeshes s1 = pmeshes s ∧ cache s1 = cache s) ∧
    release h s1 = (Normal tt, s1) ∧
    (∀ n, Nat.iter n (fun s' => snd (release h s')) s1 = s1).
Proof.
  intros Hh Hr Hi. exists (after_release h this it s).
  split; [by apply release_first|].
  assert (Hagain :
    release h (after_release h this it s) = (Normal tt, after_release h this it s)).
  { apply release_released with (closed_handle this); [|done].
    unfold after_release. simpl. apply lookup_insert_eq. }
  split; [|split; [|split; [|split; [|split]]]].
  - exists (dropped it). split; [|done].
    unfold after_release. destruct (item_refs it - 1 =? 0)%Z; simpl;
      apply lookup_insert_eq.
  - intros l Hl. unfold after_release.
    destruct (item_refs it - 1 =? 0)%Z; simpl; by rewrite lookup_insert_ne.
  - intros Hz. unfold after_release.
    rewrite (proj2 (Z.eqb_eq _ _) Hz). simpl.
    rewrite bool_decide_eq_true_2 by done.
    split; [done|]. split; [apply lookup_insert_eq|apply lookup_delete_eq].
  - intros Hnz. unfold after_release.
    by rewrite (proj2 (Z.eqb_neq _ _) Hnz).
  - done.
  - intros n. induction n as [|n IH]; simpl; [done|].
    by rewrite IH, Hagain.
Qed.

End Handles.

(** ** [geometryToPxMesh]: cache hit and cache miss *)

Section Acquire.
Context `{Externals}.

Lemma acquire_unknown world g convex s :
  geometries s !! g = None →
  geometryToPxMesh world g convex s = (Throw TypeError, s).
Proof.
  intros Hg. unfold geometryToPxMesh, computeBakeScale, get_boundingBox.
  rewrite (bind_throw _ _ _ _ _
             (bind_throw _ _ _ _ _
                (bind_throw _ _ _ _ _ (load_none geometries g s Hg)))).
  done.
Qed.

(** The call up to the cache lookup. *)
Lemma acquire_prelude world g convex s G :
  geometries s !! g = Some G →
  ∃ s0, prelude_step g G s s0 ∧
    geometryToPxMesh world g convex s =
      match cache s !! cache_id_in s G convex with
      | Some l =>
          bind (new_PMeshHandle l) (fun h => ret (Some h)) s0
      | None =>
          bind (cook world (boxed G (current_boundingBox s G)) convex
                  (bakeScale_in s G))
            (fun pmesh =>
               match pmesh with
               | None => ret None
               | Some pm =>
                   bind (new_item (cache_id_in s G convex) pm (bakeScale_in s G))
                     (fun l =>
                        bind (modify (set_cache <[cache_id_in s G convex := l]>))
                          (fun _ => bind (new_PMeshHandle l)
                                      (fun h => ret (Some h))))
               end) s0
      end.
Proof.
  intros HG.
  destruct (computeBakeScale_run s g G HG) as (s0 & Hrun & Hstep).
  exists s0. split; [done|]. unfold geometryToPxMesh.
  rewrite (bind_normal _ _ _ _ _ Hrun).
  assert (HG0 : geometries s0 !! g = Some (boxed G (current_boundingBox s G))).
  { rewrite (pre_geometries _ _ _ _ Hstep). apply lookup_insert_eq. }
  rewrite (bind_normal _ _ _ _ _ (load_some geometries g s0 _ HG0)).
  rewrite bind_gets, (pre_cache _ _ _ _ Hstep).
  change (cache_id (uuid (boxed G (current_boundingBox s G))) convex
            (bakeScale_in s G)) with (cache_id_in s G convex).
  by destruct (cache s !! cache_id_in s G convex).
Qed.

Lemma acquire_hit world g convex s G l it :
  geometries s !! g = Some G →
  cache s !! cache_id_in s G convex = Some l →
  items s !! l = Some it →
  ∃ s0, prelude_step g G s s0 ∧
    geometryToPxMesh world g convex s =
      (Normal (Some (fresh (dom (handles s)))), with_handle l it s0).
Proof.
  intros HG Hc Hl.
  destruct (acquire_prelude world g convex s G HG) as (s0 & Hstep & ->).
  exists s0. split; [done|]. rewrite Hc.
  assert (Hl0 : items s0 !! l = Some it) by (by rewrite (pre_items _ _ _ _ Hstep)).
  rewrite (bind_normal _ _ _ _ _ (new_PMeshHandle_run l it s0 Hl0)).
  by rewrite (pre_handles _ _ _ _ Hstep).
Qed.

Lemma acquire_miss world g convex s G :
  geometries s !! g = Some G →
  cache s !! cache_id_in s G convex = None →
  ∃ s0 r s1, prelude_step g G s s0 ∧
    cook world (boxed G (current_boundingBox s G)) convex (bakeScale_in s G) s0
      = (r, s1) ∧
    geometryToPxMesh world g convex s =
      match r with
      | Normal (Some pm) =>
          (Normal (Some (fresh (dom (handles s)))),
           with_entry (cache_id_in s G convex) pm (bakeScale_in s G) s1)
      | Normal None => (Normal None, s1)
      | Throw e => (Throw e, s1)
      end.
Proof.
  intros HG Hc.
  destruct (acquire_prelude world g convex s G HG) as (s0 & Hstep & ->).
  rewrite Hc.
  destruct (cook_spec world (boxed G (current_boundingBox s G)) convex
              (bakeScale_in s G) s0) as (r & s1 & Hrun & Hframe & _).
  exists s0, r, s1. split; [done|]. split; [done|].
  destruct r as [[pm|]|e].
  - rewrite (bind_normal _ _ _ _ _ Hrun).
    unfold with_entry.
    set (id := cache_id_in s G convex). set (bs := bakeScale_in s G).
    set (l := fresh (dom (items s1))).
    set (s2 := set_cache <[id := l]> (set_items <[l := fresh_item id pm bs]> s1)).
    assert (Hnew : ∀ k : loc → M (option loc),
      bind (new_item id pm bs)
        (fun l' => bind (modify (set_cache <[id := l']>)) (fun _ => k l')) s1
      = k l s2) by done.
    rewrite Hnew.
    assert (Hl2 : items s2 !! l = Some (fresh_item id pm bs))
      by apply lookup_insert_eq.
    rewrite (bind_normal _ _ _ _ _ (new_PMeshHandle_run l _ s2 Hl2)).
    simpl. do 4 f_equal.
    by rewrite (cf_handles _ _ Hframe), (pre_handles _ _ _ _ Hstep).
  - by rewrite (bind_normal _ _ _ _ _ Hrun).
  - by rewrite (bind_throw _ _ _ _ _ Hrun).
Qed.

Lemma not_cons_self {A} (a : A) (l : list A) : l ≠ a :: l.
Proof. intros Heq. apply (f_equal length) in Heq. simpl in Heq. lia. Qed.

Lemma cook_frame world G convex bakeScale s r s' :
  cook world G convex bakeScale s = (r, s') → call_frame s s'.
Proof.
  intros Hrun.
  destruct (cook_spec world G convex bakeScale s) as (r0 & s0 & Hrun0 & Hframe & _).
  congruence.
Qed.

(** A cook that returns an object called the native routine once.  The object
    is the wrapper of the mesh the routine made, a new one, or the wrapper of
    the null pointer when the routine made none. *)
Lemma cook_cooked world G convex bakeScale s pm s' :
  cook world G convex bakeScale s = (Normal (Some pm), s') →
  allocated s' = allocated s ∧
  ((native_cooks (log s') = Cooked pm :: native_cooks (log s) ∧
    pmeshes s !! pm = None ∧ pmeshes s' !! pm = Some true)
   ∨
   (native_cooks (log s') = Rejected :: native_cooks (log s) ∧ pm = null_mesh)).
Proof.
  intros Hrun.
  destruct (cook_spec world G convex bakeScale s)
    as (r0 & s0 & Hrun0 & _ & Halloc & Hcases).
  rewrite Hrun in Hrun0. injection Hrun0 as <- <-.
  split; [by apply (Halloc (Some pm))|].
  destruct Hcases as [(_ & [=] & _)|[(_ & _ & [=] & _)|(_ & _ & o & Hcooks & Hres & Hpm)]].
  destruct o as [pm'| |]; simpl in Hres.
  - injection Hres as ->. destruct (Hpm pm' eq_refl). left. eauto.
  - injection Hres as ->. by right.
  - by destruct convex.
Qed.

(** What a call that returns a handle leaves: the geometry with its bounding
    box, the entry under the geometry's id, and the new handle on it.  On a
    hit the native routine is not called; on a miss it is called once and
    the item is a new object holding what the routine returned: the new
    mesh, or the wrapper of the null pointer. *)
Lemma acquire_returns world g convex s h s1 :
  geometryToPxMesh world g convex s = (Normal (Some h), s1) →
  ∃ G l it1,
    geometries s !! g = Some G ∧
    geometries s1 !! g = Some (boxed G (current_boundingBox s G)) ∧
    cache s1 !! cache_id_in s G convex = Some l ∧
    items s1 !! l = Some it1 ∧
    handles s !! h = None ∧
    handles s1 = <[h := open_handle l it1]> (handles s) ∧
    ((cache s !! cache_id_in s G convex = Some l ∧
      (∃ it, items s !! l = Some it ∧ it1 = retained it) ∧
      items s1 = <[l := it1]> (items s) ∧
      cache s1 = cache s ∧
      native_cooks (log s1) = native_cooks (log s) ∧ pmeshes s1 = pmeshes s)
     ∨
     (cache s !! cache_id_in s G convex = None ∧
      items s !! l = None ∧
      items s1 = <[l := it1]> (items s) ∧
      cache s1 = <[cache_id_in s G convex := l]> (cache s) ∧
      it1 = retained (fresh_item (cache_id_in s G convex) (item_pmesh it1)
                        (bakeScale_in s G)) ∧
      ((native_cooks (log s1) = Cooked (item_pmesh it1) :: native_cooks (log s) ∧
        pmeshes s !! item_pmesh it1 = None ∧
        pmeshes s1 !! item_pmesh it1 = Some true)
       ∨
       (native_cooks (log s1) = Rejected :: native_cooks (log s) ∧
        item_pmesh it1 = null_mesh)))).
Proof.
  intros Hrun.
  destruct (geometries s !! g) as [G|] eqn:HG.
  2:{ by rewrite (acquire_unknown world g convex s HG) in Hrun. }
  exists G.
  destruct (cache s !! cache_id_in s G convex) as [l|] eqn:Hc.
  - destruct (items s !! l) as [it|] eqn:Hl.
    + destruct (acquire_hit world g convex s G l it HG Hc Hl) as (s0 & Hstep & Hhit).
      rewrite Hhit in Hrun. injection Hrun as <- <-.
      exists l, (retained it). destruct Hstep.
      split; [done|]. split; [by simpl; rewrite pre_geometries0, lookup_insert_eq|].
      split; [by simpl; rewrite pre_cache0|].
      split; [simpl; apply lookup_insert_eq|].
      split; [apply fresh_handle|].
      split; [by simpl; rewrite pre_handles0|].
      left. split; [done|]. split; [by exists it|].
      split; [by simpl; rewrite pre_items0|]. done.
    + destruct (acquire_prelude world g convex s G HG) as (s0 & Hstep & Hpre).
      rewrite Hpre, Hc in Hrun.
      assert (Hl0 : items s0 !! l = None) by (by rewrite (pre_items _ _ _ _ Hstep)).
      by rewrite (bind_throw _ _ _ _ _ (new_PMeshHandle_missing l s0 Hl0)) in Hrun.
  - destruct (acquire_miss world g convex s G HG Hc)
      as (s0 & r & sc & Hstep & Hcook & Hmiss).
    rewrite Hmiss in Hrun. destruct r as [[pm|]|e]; try done.
    injection Hrun as <- <-.
    pose proof (cook_frame _ _ _ _ _ _ _ Hcook) as Hframe.
    destruct (cook_cooked _ _ _ _ _ _ _ Hcook) as (_ & Hcooked).
    destruct Hstep, Hframe.
    assert (Hfresh : items s !! fresh (dom (items sc)) = None).
    { rewrite <- pre_items0, <- cf_items0. apply fresh_item_loc. }
    exists (fresh (dom (items sc))),
      (retained (fresh_item (cache_id_in s G convex) pm (bakeScale_in s G))).
    split; [done|].
    split; [by simpl; rewrite cf_geometries0, pre_geometries0, lookup_insert_eq|].
    split; [simpl; apply lookup_insert_eq|].
    split; [simpl; apply lookup_insert_eq|].
    split; [apply fresh_handle|].
    split; [by simpl; rewrite cf_handles0, pre_handles0|].
    right. split; [done|]. split; [done|].
    split; [by simpl; rewrite insert_insert_eq, cf_items0, pre_items0|].
    split; [by simpl; rewrite cf_cache0, pre_cache0|].
    split; [done|]. simpl.
    destruct Hcooked as [(Hcooks & Hnone & Hlive)|(Hcooks & ->)].
    + left. split; [by rewrite Hcooks, pre_cooks0|].
      split; [by rewrite <- pre_pmeshes0|done].
    + right. split; [by rewrite Hcooks, pre_cooks0|done].
Qed.

End Acquire.

(** ** The life of a cache entry *)

Section Entries.
Context `{Externals}.

(** After a call that returned a handle, the next call for the same geometry
    and mode returns another handle on the same item, counts it, and does not
    cook. *)
Lemma acquire_again world g convex s h1 s1 :
  geometryToPxMesh world g convex s = (Normal (Some h1), s1) →
  ∃ G l it1 h2 s2,
    geometries s !! g = Some G ∧
    cache s1 !! cache_id_in s G convex = Some l ∧
    items s1 !! l = Some it1 ∧
    handles s1 !! h1 = Some (open_handle l it1) ∧
    geometryToPxMesh world g convex s1 = (Normal (Some h2), s2) ∧
    h2 ≠ h1 ∧
    handles s2 = <[h2 := open_handle l (retained it1)]> (handles s1) ∧
    items s2 = <[l := retained it1]> (items s1) ∧
    cache s2 = cache s1 ∧
    native_cooks (log s2) = native_cooks (log s1).
Proof.
  intros Hrun.
  destruct (acquire_returns world g convex s h1 s1 Hrun)
    as (G & l & it1 & HG & HG1 & Hc1 & Hl1 & Hnew & Hh1 & _).
  assert (Hh1' : handles s1 !! h1 = Some (open_handle l it1))
    by (rewrite Hh1; apply lookup_insert_eq).
  destruct (acquire_hit world g convex s1 _ l it1 HG1 Hc1 Hl1)
    as (s0 & Hstep & Hhit).
  exists G, l, it1, (fresh (dom (handles s1))), (with_handle l it1 s0).
  split; [done|]. split; [done|]. split; [done|]. split; [done|].
  split; [done|]. destruct Hstep.
  split.
  { intros Heq. pose proof (fresh_handle s1) as Hf. rewrite Heq in Hf. congruence. }
  split; [by simpl; rewrite pre_handles0|].
  split; [by simpl; rewrite pre_items0|].
  split; [by simpl|]. by simpl.
Qed.

(** C1.  Two sequential calls of [geometryToPxMesh] for the same geometry and
    mode, the first one on a geometry that has no cache entry yet and
    returning a handle, return two different handles on the same item, which
    is the entry of the geometry's id and has reference count 2; the second
    call does not call the native cooking routine. *)
Theorem second_acquire_shares_entry (world : World) (s s1 : State)
    (geometry : loc) (G : BufferGeometry) (convex : bool) (h1 : loc) :
  geometries s !! geometry = Some G →
  cache s !! cache_id_in s G convex = None →
  geometryToPxMesh world geometry convex s = (Normal (Some h1), s1) →
  ∃ h2 s2 l it this1 this2,
    geometryToPxMesh world geometry convex s1 = (Normal (Some h2), s2) ∧
    h2 ≠ h1 ∧
    handles s2 !! h1 = Some this1 ∧ handles s2 !! h2 = Some this2 ∧
    released this1 = false ∧ released this2 = false ∧
    item this1 = l ∧ item this2 = l ∧
    cache s2 !! cache_id_in s G convex = Some l ∧
    items s2 !! l = Some it ∧
    item_refs it = 2%Z ∧
    native_cooks (log s2) = native_cooks (log s1).
Proof.
  intros HG Hmiss Hrun.
  destruct (acquire_again world geometry convex s h1 s1 Hrun)
    as (G' & l & it1 & h2 & s2 & HG' & Hc1 & Hl1 & Hh1 & Hrun2 & Hne & Hh2
        & Hi2 & Hc2 & Hcooks).
  assert (G' = G) as -> by congruence.
  destruct (acquire_returns world geometry convex s h1 s1 Hrun)
    as (G' & l' & it1' & HG'' & _ & Hc1' & Hl1' & _ & _ & Hcase).
  assert (G' = G) as -> by congruence.
  assert (l' = l) as -> by congruence.
  assert (it1' = it1) as -> by congruence.
  destruct Hcase as [(Hhit & _)|(_ & _ & _ & _ & Hit1 & _)]; [congruence|].
  exists h2, s2, l, (retained it1), (open_handle l it1),
    (open_handle l (retained it1)).
  split; [done|]. split; [done|].
  split; [by rewrite Hh2, lookup_insert_ne|].
  split; [rewrite Hh2; apply lookup_insert_eq|].
  split; [done|]. split; [done|]. split; [done|]. split; [done|].
  split; [by rewrite Hc2|].
  split; [rewrite Hi2; apply lookup_insert_eq|].
  split; [by rewrite Hit1|done].
Qed.

Lemma has_positions_kept s s' G :
  (∀ l xs, f32arrays s !! l = Some xs → f32arrays s' !! l = Some xs) →
  has_positions s G → has_positions s' G.
Proof. intros Hkept [xs Hxs]. exists xs. by apply Hkept. Qed.

Lemma has_indices_kept s s' G convex :
  (∀ l a, indexarrays s !! l = Some a → indexarrays s' !! l = Some a) →
  has_indices s G convex → has_indices s' G convex.
Proof.
  intros Hkept Hind Hc. destruct (Hind Hc) as (il & Hil & [a Ha]).
  exists il. split; [done|]. exists a. by apply Hkept.
Qed.

Lemma has_positions_boxed s s0 G :
  f32arrays s0 = f32arrays s →
  has_positions s0 (boxed G (current_boundingBox s G)) ↔ has_positions s G.
Proof. intros Hf. unfold has_positions. simpl. by rewrite Hf. Qed.

(** A call for a geometry that has no cache entry: it throws a [TypeError]
    without calling the native routine when the geometry lacks an array the
    mode reads, and otherwise calls the native routine once. *)
Lemma acquire_miss_cases world g convex s G :
  geometries s !! g = Some G →
  cache s !! cache_id_in s G convex = None →
  ∃ r s2, geometryToPxMesh world g convex s = (r, s2) ∧
    geometries s2 !! g = Some (boxed G (current_boundingBox s G)) ∧
    arrays_kept s s2 ∧
    (∀ l it, items s !! l = Some it → items s2 !! l = Some it) ∧
    (∀ pm b, pmeshes s !! pm = Some b → pmeshes s2 !! pm = Some b) ∧
    ((¬ (has_positions s G ∧ has_indices s G convex) ∧ r = Throw TypeError ∧
      native_cooks (log s2) = native_cooks (log s) ∧ cache s2 = cache s)
     ∨
     (has_positions s G ∧ has_indices s G convex ∧
      ∃ o, native_cooks (log s2) = o :: native_cooks (log s) ∧
           acquire_result convex o r ∧
           (o = Threw → cache s2 = cache s ∧ items s2 = items s))).
Proof.
  intros HG Hc.
  destruct (acquire_miss world g convex s G HG Hc)
    as (s0 & r & sc & Hstep & Hcook & Hmiss).
  pose proof (cook_frame _ _ _ _ _ _ _ Hcook) as Hframe.
  destruct (cook_spec world (boxed G (current_boundingBox s G)) convex
              (bakeScale_in s G) s0) as (r' & sc' & Hcook' & _ & _ & Hcases).
  rewrite Hcook in Hcook'. injection Hcook' as <- <-.
  destruct Hstep, Hframe.
  assert (Hpos : has_positions s0 (boxed G (current_boundingBox s G))
                 ↔ has_positions s G).
  { unfold has_positions. simpl. by rewrite pre_f32arrays0. }
  assert (Hind : has_indices s0 (boxed G (current_boundingBox s G)) convex
                 ↔ has_indices s G convex).
  { unfold has_indices. simpl. by rewrite pre_indexarrays0. }
  assert (Hend : ∃ r2 s2,
    geometryToPxMesh world g convex s = (r2, s2) ∧
    log s2 = log sc ∧ geometries s2 = geometries sc ∧
    f32arrays s2 = f32arrays sc ∧ indexarrays s2 = indexarrays sc ∧
    pmeshes s2 = pmeshes sc ∧
    (∀ l it, items sc !! l = Some it → items s2 !! l = Some it) ∧
    match r with
    | Normal (Some pm) => ∃ h, r2 = Normal (Some h)
    | Normal None => r2 = Normal None ∧ cache s2 = cache sc ∧ items s2 = items sc
    | Throw e => r2 = Throw e ∧ cache s2 = cache sc ∧ items s2 = items sc
    end).
  { destruct r as [[pm|]|e]; eexists _, _; (split; [exact Hmiss|]); simpl;
      repeat (split; [done|]); try done.
    split; [|by eexists].
    intros l it Hl. rewrite insert_insert_eq, lookup_insert_ne; [done|].
    pose proof (fresh_item_loc sc). congruence. }
  destruct Hend as (r2 & s2 & Hrun & Hlog & Hgeo & Hf32 & Hidx & Hpm & Hitems & Hr2).
  exists r2, s2. split; [done|].
  split; [|split; [|split; [|split]]].
  - by rewrite Hgeo, cf_geometries0, pre_geometries0, lookup_insert_eq.
  - split.
    + intros l xs Hl. rewrite Hf32. rewrite <- pre_f32arrays0 in Hl. eauto.
    + intros l a Hl. rewrite Hidx. rewrite <- pre_indexarrays0 in Hl. eauto.
  - intros l it Hl. rewrite <- pre_items0, <- cf_items0 in Hl. eauto.
  - intros pm b Hb. rewrite Hpm. rewrite <- pre_pmeshes0 in Hb. eauto.
  - rewrite Hlog.
    destruct Hcases as [(Hno & -> & Hcooks & _)
                       |[(_ & Hno & -> & Hcooks & _)
                        |(Hp & Hi & o & Hcooks & Hres & _)]].
    + destruct Hr2 as (-> & Hcache & _).
      left. split; [tauto|]. split; [done|].
      split; [by rewrite Hcooks|by rewrite Hcache, cf_cache0].
    + destruct Hr2 as (-> & Hcache & _).
      left. split; [tauto|]. split; [done|].
      split; [by rewrite Hcooks|by rewrite Hcache, cf_cache0].
    + right. split; [tauto|]. split; [tauto|]. exists o.
      split; [by rewrite Hcooks, pre_cooks0|].
      destruct o as [pm| |]; simpl in Hres.
      * subst r. simpl. split; [done|]. intros [=].
      * subst r. simpl. split; [done|]. intros [=].
      * subst r. destruct convex; destruct Hr2 as (-> & Hcache & Hit); simpl;
          (split; [done|]; intros _;
           by rewrite Hcache, Hit, cf_cache0, cf_items0).
Qed.

(** A call after which the log has one more native call reached the native
    routine: its geometry had no cache entry and has the arrays the mode
    reads. *)
Lemma acquire_cooked world g convex s r s1 o :
  geometryToPxMesh world g convex s = (r, s1) →
  native_cooks (log s1) = o :: native_cooks (log s) →
  ∃ G, geometries s !! g = Some G ∧
       cache s !! cache_id_in s G convex = None ∧
       has_positions s G ∧ has_indices s G convex.
Proof.
  intros Hrun Hcooks.
  destruct (geometries s !! g) as [G|] eqn:HG.
  2:{ rewrite (acquire_unknown world g convex s HG) in Hrun.
      injection Hrun as <- <-. by destruct (not_cons_self _ _ Hcooks). }
  exists G. split; [done|].
  destruct (cache s !! cache_id_in s G convex) as [l|] eqn:Hc.
  { destruct (acquire_prelude world g convex s G HG) as (s0 & Hstep & Hpre).
    rewrite Hpre, Hc in Hrun.
    destruct (items s0 !! l) as [it|] eqn:Hl.
    - rewrite (bind_normal _ _ _ _ _ (new_PMeshHandle_run l it s0 Hl)) in Hrun.
      injection Hrun as <- <-. simpl in Hcooks.
      rewrite (pre_cooks _ _ _ _ Hstep) in Hcooks.
      by destruct (not_cons_self _ _ Hcooks).
    - rewrite (bind_throw _ _ _ _ _ (new_PMeshHandle_missing l s0 Hl)) in Hrun.
      injection Hrun as <- <-. rewrite (pre_cooks _ _ _ _ Hstep) in Hcooks.
      by destruct (not_cons_self _ _ Hcooks). }
  split; [done|].
  destruct (acquire_miss_cases world g convex s G HG Hc)
    as (r' & s1' & Hrun' & _ & _ & _ & _ & Hcases).
  rewrite Hrun in Hrun'. injection Hrun' as <- <-.
  destruct Hcases as [(_ & _ & Hsame & _)|(Hpos & Hind & _)]; [|done].
  rewrite Hsame in Hcooks. by destruct (not_cons_self _ _ Hcooks).
Qed.

(** The outcome of the native call decides the result of the call that made
    it. *)
Lemma acquire_decided world g convex s r s1 o :
  geometryToPxMesh world g convex s = (r, s1) →
  native_cooks (log s1) = o :: native_cooks (log s) →
  acquire_result convex o r ∧
  (o = Threw → cache s1 = cache s ∧ items s1 = items s).
Proof.
  intros Hrun Hcooks.
  destruct (acquire_cooked world g convex s r s1 o Hrun Hcooks)
    as (G & HG & Hc & _).
  destruct (acquire_miss_cases world g convex s G HG Hc)
    as (r' & s1' & Hrun' & _ & _ & _ & _ & Hcases).
  rewrite Hrun in Hrun'. injection Hrun' as <- <-.
  destruct Hcases as [(_ & _ & Hsame & _)|(_ & _ & o' & Hcooks' & Hres & Hkeep)].
  { rewrite Hsame in Hcooks. by destruct (not_cons_self _ _ Hcooks). }
  rewrite Hcooks' in Hcooks. injection Hcooks as ->. done.
Qed.

(** In triangle mode an exception of the native routine is caught and
    logged: [geometryToPxMesh] returns [null], the cache and the items are as
    they were, and the next call for the same geometry and mode calls the
    native routine again. *)
Lemma caught_exception_not_cached world s s1 geometry r :
  geometryToPxMesh world geometry false s = (r, s1) →
  native_cooks (log s1) = Threw :: native_cooks (log s) →
  r = Normal None ∧
  cache s1 = cache s ∧ items s1 = items s ∧
  ∃ r2 s2 o,
    geometryToPxMesh world geometry false s1 = (r2, s2) ∧
    native_cooks (log s2) = o :: native_cooks (log s1).
Proof.
  intros Hrun Hthrew.
  destruct (acquire_cooked world geometry false s r s1 Threw Hrun Hthrew)
    as (G & HG & Hc & Hpos & Hind).
  destruct (acquire_decided world geometry false s r s1 Threw Hrun Hthrew)
    as [Hres Hkeep].
  destruct (Hkeep eq_refl) as [Hcache Hitems].
  split; [exact Hres|]. split; [done|]. split; [done|].
  destruct (acquire_miss_cases world geometry false s G HG Hc)
    as (r' & s1' & Hrun' & HG1 & [Hf32 Hidx] & _).
  rewrite Hrun in Hrun'. injection Hrun' as <- <-.
  assert (Hc1 : cache s1 !! cache_id_in s1 (boxed G (current_boundingBox s G)) false
                = None).
  { by rewrite Hcache, cache_id_in_boxed. }
  destruct (acquire_miss_cases world geometry false s1 _ HG1 Hc1)
    as (r2 & s2 & Hrun2 & _ & _ & _ & _ & Hcases2).
  destruct Hcases2 as [(Hnone & _)|(_ & _ & o2 & Hcooks2 & _)].
  - destruct Hnone. split.
    + by apply (has_positions_kept s s1 G Hf32).
    + by apply (has_indices_kept s s1 G false Hidx).
  - by exists r2, s2, o2.
Qed.

(** In convex mode the exception leaves [geometryToPxMesh]. *)
Lemma convex_exception_propagates world s s1 geometry r :
  geometryToPxMesh world geometry true s = (r, s1) →
  native_cooks (log s1) = Threw :: native_cooks (log s) →
  r = Throw NativeError.
Proof.
  intros Hrun Hthrew.
  by destruct (acquire_decided world geometry true s r s1 Threw Hrun Hthrew).
Qed.

(** C4 fails.  When the native cooking routine is called and gives no mesh,
    the binding hands the wrapper of the null pointer to [geometryToPxMesh],
    and [if (!pmesh) return null] does not catch it: the call returns a
    handle, on a new item that holds the wrapper and is stored in the cache
    under the geometry's id.  The next call for the same geometry and mode
    finds this entry: it returns another handle on it and does not call the
    native routine again. *)
Theorem rejected_cook_is_cached (world : World) (s s1 : State) (geometry : loc)
    (convex : bool) (r : Completion (option loc)) :
  geometryToPxMesh world geometry convex s = (r, s1) →
  native_cooks (log s1) = Rejected :: native_cooks (log s) →
  ∃ G h l it this,
    geometries s !! geometry = Some G ∧
    cache s !! cache_id_in s G convex = None ∧
    r = Normal (Some h) ∧
    cache s1 = <[cache_id_in s G convex := l]> (cache s) ∧
    items s !! l = None ∧ items s1 !! l = Some it ∧
    item_pmesh it = null_mesh ∧ item_refs it = 1%Z ∧
    handles s1 !! h = Some this ∧
    item this = l ∧ value this = Some null_mesh ∧ released this = false ∧
    ∃ h2 s2 this2,
      geometryToPxMesh world geometry convex s1 = (Normal (Some h2), s2) ∧
      native_cooks (log s2) = native_cooks (log s1) ∧
      h2 ≠ h ∧ handles s2 !! h2 = Some this2 ∧
      item this2 = l ∧ value this2 = Some null_mesh ∧ released this2 = false.
Proof.
  intros Hrun Hrej.
  destruct (acquire_decided world geometry convex s r s1 Rejected Hrun Hrej)
    as [[h ->] _].
  destruct (acquire_returns world geometry convex s h s1 Hrun)
    as (G & l & it1 & HG & _ & Hc1 & Hl1 & Hnew & Hh1 & Hcase).
  destruct Hcase as [(_ & _ & _ & _ & Hsame & _)
                    |(Hmiss & Hfresh & _ & Hcache & Hit1 & Hcooked)].
  { rewrite Hsame in Hrej. by destruct (not_cons_self _ _ Hrej). }
  destruct Hcooked as [(Hcooks & _)|(_ & Hnull)]; [congruence|].
  destruct (acquire_again world geometry convex s h s1 Hrun)
    as (G' & l' & it1' & h2 & s2 & HG' & Hc1' & Hl1' & _ & Hrun2 & Hne & Hh2
        & _ & _ & Hcooks2).
  assert (G' = G) as -> by congruence.
  assert (l' = l) as -> by congruence.
  assert (it1' = it1) as -> by congruence.
  exists G, h, l, it1, (open_handle l it1).
  split; [done|]. split; [done|]. split; [done|]. split; [done|].
  split; [done|]. split; [done|]. split; [done|].
  split; [by rewrite Hit1|].
  split; [rewrite Hh1; apply lookup_insert_eq|].
  split; [done|]. split; [by simpl; rewrite Hnull|]. split; [done|].
  exists h2, s2, (open_handle l (retained it1)).
  split; [done|]. split; [done|]. split; [done|].
  split; [rewrite Hh2; apply lookup_insert_eq|].
  split; [done|]. split; [by simpl; rewrite Hnull|done].
Qed.

(** The last release of an item: the entry leaves the cache and its mesh is
    released. *)
Lemma release_last h this it s :
  handles s !! h = Some this → released this = false →
  items s !! item this = Some it → item_refs it = 1%Z →
  ∃ s1, release h s = (Normal tt, s1) ∧
    cache s1 = delete (item_id it) (cache s) ∧
    items s1 = <[item this := dropped it]> (items s) ∧
    pmeshes s1 = <[item_pmesh it := false]> (pmeshes s) ∧
    geometries s1 = geometries s ∧ f32arrays s1 = f32arrays s ∧
    indexarrays s1 = indexarrays s ∧
    log s1 = pmesh_release (item_pmesh it) :: log s.
Proof.
  intros Hh Hr Hi Hone. exists (after_release h this it s).
  split; [by apply release_first|].
  unfold after_release. rewrite Hone. simpl. done.
Qed.

(** C3.  Destroyed is terminal.  Once the last outstanding handle of the entry
    of a geometry and mode is released, the entry is out of the cache and its
    mesh is released.  A following call for the same geometry and mode does not
    find it: it calls the native cooking routine (unless the geometry lacks an
    array the mode reads, which throws), the destroyed item keeps its count of
    0 and stays out of the cache, and a handle that is returned is on a new
    item, with count 1, under the same id, holding what the native routine
    returned: a newly cooked live mesh or, when it gave no mesh, the wrapper of
    the null pointer. *)
Theorem destroyed_entry_not_resurrected (world : World) (s : State) (h : loc)
    (this : PMeshHandle) (it : Item) (geometry : loc) (G : BufferGeometry)
    (convex : bool) :
  handles s !! h = Some this → released this = false →
  items s !! item this = Some it → item_refs it = 1%Z →
  geometries s !! geometry = Some G →
  item_id it = cache_id_in s G convex →
  ∃ s1, release h s = (Normal tt, s1) ∧
    cache s1 !! item_id it = None ∧
    pmeshes s1 !! item_pmesh it = Some false ∧
    ∃ r s2, geometryToPxMesh world geometry convex s1 = (r, s2) ∧
      ((∃ o, native_cooks (log s2) = o :: native_cooks (log s1)) ∨
       (r = Throw TypeError ∧ ¬ (has_positions s G ∧ has_indices s G convex))) ∧
      cache s2 !! item_id it ≠ Some (item this) ∧
      (∃ it0, items s2 !! item this = Some it0 ∧ item_refs it0 = 0%Z) ∧
      pmeshes s2 !! item_pmesh it = Some false ∧
      (∀ h', r = Normal (Some h') →
         ∃ this' it',
           handles s2 !! h' = Some this' ∧ released this' = false ∧
           item this' ≠ item this ∧
           items s1 !! item this' = None ∧
           items s2 !! item this' = Some it' ∧
           item_refs it' = 1%Z ∧
           cache s2 !! item_id it = Some (item this') ∧
           ((native_cooks (log s2)
               = Cooked (item_pmesh it') :: native_cooks (log s1) ∧
             item_pmesh it' ≠ item_pmesh it ∧
             pmeshes s2 !! item_pmesh it' = Some true)
            ∨
            (native_cooks (log s2) = Rejected :: native_cooks (log s1) ∧
             item_pmesh it' = null_mesh))).
Proof.
  intros Hh Hr Hi Hone HG Hid.
  destruct (release_last h this it s Hh Hr Hi Hone)
    as (s1 & Hrun & Hcache & Hitems & Hpm & Hgeo & Hf32 & Hidx & Hlog).
  exists s1. split; [done|].
  assert (Hc1 : cache s1 !! item_id it = None)
    by (rewrite Hcache; apply lookup_delete_eq).
  assert (Hpm1 : pmeshes s1 !! item_pmesh it = Some false)
    by (rewrite Hpm; apply lookup_insert_eq).
  assert (Hi1 : items s1 !! item this = Some (dropped it))
    by (rewrite Hitems; apply lookup_insert_eq).
  split; [done|]. split; [done|].
  assert (HG1 : geometries s1 !! geometry = Some G) by (by rewrite Hgeo).
  assert (Hid1 : cache_id_in s1 G convex = cache_id_in s G convex).
  { unfold cache_id_in, bakeScale_in, current_boundingBox. by rewrite Hf32. }
  assert (Hmiss : cache s1 !! cache_id_in s1 G convex = None)
    by (by rewrite Hid1, <- Hid).
  destruct (acquire_miss_cases world geometry convex s1 G HG1 Hmiss)
    as (r & s2 & Hrun2 & _ & _ & Hkeep_items & Hkeep_pm & Hcases).
  exists r, s2. split; [done|].
  assert (Hpos : has_positions s1 G ∧ has_indices s1 G convex
                 ↔ has_positions s G ∧ has_indices s G convex).
  { unfold has_positions, has_indices. by rewrite Hf32, Hidx. }
  split.
  { destruct Hcases as [(Hno & -> & _)|(_ & _ & o & Hcooks & _)].
    - right. split; [done|]. by rewrite <- Hpos.
    - left. by exists o. }
  assert (Hhandle : ∀ h', r = Normal (Some h') →
    ∃ this' it',
      handles s2 !! h' = Some this' ∧ released this' = false ∧
      item this' ≠ item this ∧
      items s1 !! item this' = None ∧
      items s2 !! item this' = Some it' ∧
      item_refs it' = 1%Z ∧
      cache s2 !! item_id it = Some (item this') ∧
      ((native_cooks (log s2) = Cooked (item_pmesh it') :: native_cooks (log s1) ∧
        item_pmesh it' ≠ item_pmesh it ∧
        pmeshes s2 !! item_pmesh it' = Some true)
       ∨
       (native_cooks (log s2) = Rejected :: native_cooks (log s1) ∧
        item_pmesh it' = null_mesh))).
  { intros h' ->.
    destruct (acquire_returns world geometry convex s1 h' s2 Hrun2)
      as (G' & l & it1 & HG' & _ & Hc2 & Hl2 & _ & Hh2 & Hcase).
    assert (G' = G) as -> by congruence.
    destruct Hcase as [(Hhit & _)|(_ & Hnew & _ & _ & Hit1 & Hcooked)];
      [congruence|].
    exists (open_handle l it1), it1.
    split; [rewrite Hh2; apply lookup_insert_eq|]. split; [done|].
    split; [simpl; congruence|]. split; [done|]. split; [done|].
    split; [by rewrite Hit1|].
    split; [by rewrite Hid, <- Hid1|].
    destruct Hcooked as [(Hcooks & Hpmn & Hpml)|Hnull]; [left|by right].
    split; [done|]. split; [congruence|done]. }
  split; [|split; [|split]].
  - destruct r as [[h'|]|e].
    + destruct (Hhandle h' eq_refl) as (this' & it' & _ & _ & Hne & _ & _ & _ & Hc & _).
      rewrite Hc. congruence.
    + destruct Hcases as [(_ & [=] & _)|(_ & _ & o & _ & Hres & Hkeep)].
      destruct o as [pm| |]; simpl in Hres; [by destruct Hres|by destruct Hres|].
      destruct (Hkeep eq_refl) as [-> _]. by rewrite Hc1.
    + destruct Hcases as [(_ & _ & _ & ->)|(_ & _ & o & _ & Hres & Hkeep)];
        [by rewrite Hc1|].
      destruct o as [pm| |]; simpl in Hres; [by destruct Hres|by destruct Hres|].
      destruct (Hkeep eq_refl) as [-> _]. by rewrite Hc1.
  - exists (dropped it). split; [by apply Hkeep_items|]. simpl. lia.
  - by apply Hkeep_pm.
  - done.
Qed.

(** C8, as the code has it.  In triangle mode a geometry without index buffer
    that has no cache entry under its id makes [geometryToPxMesh] throw a
    [TypeError], from [index.array]: the call does not return [null], the
    native cooking routine is not called, and the only foreign memory
    allocated, if any, is the one block allocated before the branch, for the
    positions.  With a cache entry under its id the call returns a handle and
    the missing index buffer goes unnoticed. *)
Theorem missing_indices_detected_before_cooking (world : World) (s : State)
    (geometry : loc) (G : BufferGeometry) :
  geometries s !! geometry = Some G →
  index G = None →
  cache s !! cache_id_in s G false = None →
  ∃ s', geometryToPxMesh world geometry false s = (Throw TypeError, s') ∧
    native_cooks (log s') = native_cooks (log s) ∧
    cache s' = cache s ∧
    (has_positions s G →
       ∃ bytes ptr, mallocs (log s') = (bytes, ptr) :: mallocs (log s)) ∧
    (¬ has_positions s G → mallocs (log s') = mallocs (log s)).
Proof.
  intros HG Hindex Hmiss.
  destruct (acquire_miss world geometry false s G HG Hmiss)
    as (s0 & r & sc & Hstep & Hcook & Hrun).
  destruct (cook_spec world (boxed G (current_boundingBox s G)) false
              (bakeScale_in s G) s0) as (r' & sc' & Hcook' & Hframe & _ & Hcases).
  rewrite Hcook in Hcook'. injection Hcook' as <- <-.
  destruct Hstep, Hframe.
  assert (Hpos : has_positions s0 (boxed G (current_boundingBox s G))
                 ↔ has_positions s G).
  { unfold has_positions. simpl. by rewrite pre_f32arrays0. }
  destruct Hcases as [(Hno & -> & Hcooks & Hmallocs)
                     |[(Hyes & _ & -> & Hcooks & Hmallocs)
                      |(_ & Hind & _)]].
  - exists sc. split; [done|]. split; [by rewrite Hcooks|].
    split; [by rewrite cf_cache0|]. rewrite Hpos in Hno.
    split; [done|]. intros _. by rewrite Hmallocs.
  - exists sc. split; [done|]. split; [by rewrite Hcooks|].
    split; [by rewrite cf_cache0|]. rewrite Hpos in Hyes.
    split; [|done]. intros _. by rewrite <- pre_mallocs0.
  - destruct (Hind eq_refl) as (il & Hil & _). simpl in Hil. congruence.
Qed.

(** A call that returns no handle leaves the cache, the items and the handles
    as they were. *)
Lemma acquire_fails world g convex s r s' :
  geometryToPxMesh world g convex s = (r, s') →
  (∀ h, r ≠ Normal (Some h)) →
  cache s' = cache s ∧ items s' = items s ∧ handles s' = handles s.
Proof.
  intros Hrun Hno.
  destruct (geometries s !! g) as [G|] eqn:HG.
  2:{ rewrite (acquire_unknown world g convex s HG) in Hrun. by injection Hrun as <- <-. }
  destruct (cache s !! cache_id_in s G convex) as [l|] eqn:Hc.
  - destruct (acquire_prelude world g convex s G HG) as (s0 & Hstep & Hpre).
    rewrite Hpre, Hc in Hrun. destruct Hstep.
    destruct (items s0 !! l) as [it|] eqn:Hl.
    + rewrite (bind_normal _ _ _ _ _ (new_PMeshHandle_run l it s0 Hl)) in Hrun.
      injection Hrun as <- <-. by destruct (Hno (fresh (dom (handles s0)))).
    + rewrite (bind_throw _ _ _ _ _ (new_PMeshHandle_missing l s0 Hl)) in Hrun.
      by injection Hrun as <- <-.
  - destruct (acquire_miss world g convex s G HG Hc)
      as (s0 & r' & sc & Hstep & Hcook & Hmiss).
    pose proof (cook_frame _ _ _ _ _ _ _ Hcook) as Hframe.
    destruct Hstep, Hframe. rewrite Hmiss in Hrun.
    destruct r' as [[pm|]|e]; injection Hrun as <- <-.
    + by destruct (Hno (fresh (dom (handles s)))).
    + split; [congruence|]. split; congruence.
    + split; [congruence|]. split; congruence.
Qed.

(** Every handle of a reachable state shows its item's mesh until it is
    released and nothing afterwards. *)
Lemma reachable_handles_ok s : reachable s → handles_ok s.
Proof.
  induction 1 as [s Hstart|s s' _ IH Hstep|s world g convex r s' _ IH Hrun
                 |s h r s' _ IH Hrun].
  - destruct Hstart as (_ & _ & Hh & _). intros h this Hl.
    rewrite Hh in Hl. unfold initial in Hl. simpl in Hl.
    by rewrite lookup_empty in Hl.
  - destruct Hstep as (_ & Hi & Hh & _). intros h this Hl.
    rewrite Hh in Hl. specialize (IH h this Hl).
    unfold handle_ok in *. by rewrite Hi.
  - destruct r as [[h1|]|e].
    + destruct (acquire_returns world g convex s h1 s' Hrun)
        as (G & l & it1 & _ & _ & _ & Hl1 & Hnew & Hh1 & Hcase).
      assert (Hi' : items s' = <[l := it1]> (items s))
        by (by destruct Hcase as [(_ & _ & ? & _)|(_ & _ & ? & _)]).
      assert (Hpm : ∀ it, items s !! l = Some it → item_pmesh it1 = item_pmesh it).
      { intros it Hit.
        destruct Hcase as [(_ & (it' & Hit' & ->) & _)|(_ & Hnone & _)]; [|congruence].
        assert (it' = it) as -> by congruence. done. }
      intros h this Hl. rewrite Hh1 in Hl.
      destruct (decide (h = h1)) as [->|Hne].
      * rewrite lookup_insert_eq in Hl. injection Hl as <-.
        unfold handle_ok. simpl. by exists it1.
      * rewrite lookup_insert_ne in Hl by done. specialize (IH h this Hl).
        unfold handle_ok in *. destruct (released this); [done|].
        destruct IH as (it & Hit & Hv). rewrite Hi'.
        destruct (decide (item this = l)) as [Heq|Hnel].
        -- rewrite Heq, lookup_insert_eq. exists it1. split; [done|].
           rewrite Hv. f_equal. symmetry. apply Hpm. by rewrite <- Heq.
        -- rewrite lookup_insert_ne by done. by exists it.
    + destruct (acquire_fails world g convex s _ s' Hrun) as (_ & Hi & Hh); [done|].
      intros h this Hl. rewrite Hh in Hl. specialize (IH h this Hl).
      unfold handle_ok in *. by rewrite Hi.
    + destruct (acquire_fails world g convex s _ s' Hrun) as (_ & Hi & Hh); [done|].
      intros h this Hl. rewrite Hh in Hl. specialize (IH h this Hl).
      unfold handle_ok in *. by rewrite Hi.
  - destruct (handles s !! h) as [this0|] eqn:Hh0.
    2:{ rewrite (release_unknown h s Hh0) in Hrun. by injection Hrun as <- <-. }
    destruct (released this0) eqn:Hr0.
    { rewrite (release_released h this0 s Hh0 Hr0) in Hrun. by injection Hrun as <- <-. }
    destruct (items s !! item this0) as [it0|] eqn:Hi0.
    2:{ rewrite (release_dangling h this0 s Hh0 Hr0 Hi0) in Hrun.
        by injection Hrun as <- <-. }
    rewrite (release_first h this0 it0 s Hh0 Hr0 Hi0) in Hrun.
    injection Hrun as <- <-.
    assert (Hh' : handles (after_release h this0 it0 s)
                  = <[h := closed_handle this0]> (handles s)).
    { unfold after_release. by destruct (item_refs it0 - 1 =? 0)%Z. }
    assert (Hi' : items (after_release h this0 it0 s)
                  = <[item this0 := dropped it0]> (items s)).
    { unfold after_release. by destruct (item_refs it0 - 1 =? 0)%Z. }
    intros h' this Hl. rewrite Hh' in Hl.
    destruct (decide (h' = h)) as [->|Hne].
    + rewrite lookup_insert_eq in Hl. by injection Hl as <-.
    + rewrite lookup_insert_ne in Hl by done. specialize (IH h' this Hl).
      unfold handle_ok in *. destruct (released this); [done|].
      destruct IH as (it & Hit & Hv). rewrite Hi'.
      destruct (decide (item this = item this0)) as [Heq|Hnel].
      * rewrite Heq, lookup_insert_eq. exists (dropped it0). split; [done|].
        rewrite Hv. simpl. congruence.
      * rewrite lookup_insert_ne by done. by exists it.
Qed.

(** [geometryToPxMesh] leaves every handle that exists as it is, and so does
    [release()] on another handle, or on a handle that is released. *)
Lemma acquire_keeps_handle world g convex s r s' h this :
  geometryToPxMesh world g convex s = (r, s') →
  handles s !! h = Some this → handles s' !! h = Some this.
Proof.
  intros Hrun Hh. destruct r as [[h1|]|e].
  - destruct (acquire_returns world g convex s h1 s' Hrun)
      as (G & l & it1 & _ & _ & _ & _ & Hnew & Hh1 & _).
    rewrite Hh1, lookup_insert_ne; [done|congruence].
  - destruct (acquire_fails world g convex s _ s' Hrun) as (_ & _ & ->); done.
  - destruct (acquire_fails world g convex s _ s' Hrun) as (_ & _ & ->); done.
Qed.

Lemma release_keeps_handle h' s r s' h this :
  release h' s = (r, s') →
  handles s !! h = Some this → h' ≠ h ∨ released this = true →
  handles s' !! h = Some this.
Proof.
  intros Hrun Hh Hother.
  destruct (handles s !! h') as [this'|] eqn:Hh'.
  2:{ rewrite (release_unknown h' s Hh') in Hrun. by injection Hrun as <- <-. }
  destruct (released this') eqn:Hr'.
  { rewrite (release_released h' this' s Hh' Hr') in Hrun.
    by injection Hrun as <- <-. }
  destruct (items s !! item this') as [it'|] eqn:Hi'.
  2:{ rewrite (release_dangling h' this' s Hh' Hr' Hi') in Hrun.
      by injection Hrun as <- <-. }
  rewrite (release_first h' this' it' s Hh' Hr' Hi') in Hrun.
  injection Hrun as <- <-. unfold after_release.
  assert (h' ≠ h) by (destruct Hother; congruence).
  destruct (item_refs it' - 1 =? 0)%Z; simpl; by rewrite lookup_insert_ne.
Qed.

(** An item object stays where it is, with the cooked mesh it was made
    with. *)
Lemma acquire_keeps_item world g convex s r s' l it :
  geometryToPxMesh world g convex s = (r, s') →
  items s !! l = Some it →
  ∃ it', items s' !! l = Some it' ∧ item_pmesh it' = item_pmesh it.
Proof.
  intros Hrun Hl. destruct r as [[h1|]|e].
  - destruct (acquire_returns world g convex s h1 s' Hrun)
      as (G & l1 & it1 & _ & _ & _ & _ & _ & _ & Hcase).
    destruct Hcase as [(_ & (it0 & Hit0 & ->) & -> & _)|(_ & Hnone & -> & _)].
    + destruct (decide (l = l1)) as [->|Hne].
      * rewrite lookup_insert_eq. exists (retained it0). split; [done|].
        simpl. congruence.
      * rewrite lookup_insert_ne by done. by exists it.
    + rewrite lookup_insert_ne by congruence. by exists it.
  - destruct (acquire_fails world g convex s _ s' Hrun) as (_ & -> & _); [done|].
    by exists it.
  - destruct (acquire_fails world g convex s _ s' Hrun) as (_ & -> & _); [done|].
    by exists it.
Qed.

Lemma release_keeps_item h s r s' l it :
  release h s = (r, s') →
  items s !! l = Some it →
  ∃ it', items s' !! l = Some it' ∧ item_pmesh it' = item_pmesh it.
Proof.
  intros Hrun Hl.
  destruct (handles s !! h) as [this|] eqn:Hh.
  2:{ rewrite (release_unknown h s Hh) in Hrun. injection Hrun as <- <-.
      by exists it. }
  destruct (released this) eqn:Hr.
  { rewrite (release_released h this s Hh Hr) in Hrun.
    injection Hrun as <- <-. by exists it. }
  destruct (items s !! item this) as [it0|] eqn:Hi.
  2:{ rewrite (release_dangling h this s Hh Hr Hi) in Hrun.
      injection Hrun as <- <-. by exists it. }
  rewrite (release_first h this it0 s Hh Hr Hi) in Hrun.
  injection Hrun as <- <-.
  assert (Hi' : items (after_release h this it0 s)
                = <[item this := dropped it0]> (items s)).
  { unfold after_release. by destruct (item_refs it0 - 1 =? 0)%Z. }
  rewrite Hi'. destruct (decide (l = item this)) as [->|Hne].
  - rewrite lookup_insert_eq. exists (dropped it0). split; [done|].
    simpl. congruence.
  - rewrite lookup_insert_ne by done. by exists it.
Qed.

(** Along steps that are not [release()] on the handle at [h], the handle
    stays as it is and its item keeps its cooked mesh. *)
Lemma unreleased_is_stable h this it s s' :
  rtc (step_without h) s s' →
  handles s !! h = Some this → items s !! item this = Some it →
  handles s' !! h = Some this ∧
  ∃ it', items s' !! item this = Some it' ∧ item_pmesh it' = item_pmesh it.
Proof.
  intros Hsteps. revert it.
  induction Hsteps as [s|s s1 s' Hstep _ IH]; intros it Hh Hi.
  { split; [done|]. by exists it. }
  assert (Hnext : handles s1 !! h = Some this ∧
            ∃ it1, items s1 !! item this = Some it1 ∧ item_pmesh it1 = item_pmesh it).
  { destruct Hstep as [s s1 (_ & Hitems & Hhandles & _)
                      |s world g convex r s1 Hrun|s h' r s1 Hne Hrun].
    - rewrite Hhandles, Hitems. split; [done|]. by exists it.
    - split; [by apply (acquire_keeps_handle _ _ _ _ _ _ _ _ Hrun)|].
      by apply (acquire_keeps_item _ _ _ _ _ _ _ _ Hrun).
    - split; [apply (release_keeps_handle _ _ _ _ _ _ Hrun); [done|by left]|].
      by apply (release_keeps_item _ _ _ _ _ _ Hrun). }
  destruct Hnext as (Hh1 & it1 & Hi1 & Hpm1).
  destruct (IH it1 Hh1 Hi1) as (Hh' & it' & Hi' & Hpm').
  split; [done|]. exists it'. split; [done|]. congruence.
Qed.

(** Whatever is called, a released handle stays as it is. *)
Lemma released_is_stable h this s s' :
  rtc step s s' →
  handles s !! h = Some this → released this = true →
  handles s' !! h = Some this.
Proof.
  intros Hsteps Hh Hr.
  induction Hsteps as [s|s s1 s' Hstep _ IH]; [done|].
  apply IH.
  destruct Hstep as [s s1 (_ & _ & Hhandles & _)
                    |s world g convex r s1 Hrun|s h' r s1 Hrun].
  - by rewrite Hhandles.
  - by apply (acquire_keeps_handle _ _ _ _ _ _ _ _ Hrun).
  - apply (release_keeps_handle _ _ _ _ _ _ Hrun); [done|by right].
Qed.

(** The states reached from a reachable state are reachable. *)
Lemma reachable_steps s s' : reachable s → rtc step s s' → reachable s'.
Proof.
  intros Hreach Hsteps.
  induction Hsteps as [s|s s1 s' Hstep _ IH]; [done|].
  apply IH.
  destruct Hstep as [s s1 Hcaller|s world g convex r s1 Hrun|s h r s1 Hrun].
  - by eapply reach_caller.
  - by eapply reach_acquire.
  - by eapply reach_release.
Qed.

(** C10.  A handle returned by [geometryToPxMesh] is a new handle, not
    released, whose [value] is the cooked mesh of its item.  Whatever is
    called afterwards, as long as it is not [release()] on this handle, the
    handle stays so and its item keeps that mesh; the first [release()] on it
    then returns normally and leaves it released with [value] null, and so
    it stays whatever is called from then on.  In every state reached from
    there, when the call was made in a reachable state, a handle that has
    not been released holds its item's cooked mesh in [value] and a released
    handle holds null, and [release()] on it returns normally and leaves it
    released with [value] null. *)
Theorem released_handle_exposes_nothing (world : World) (s s1 : State)
    (geometry : loc) (convex : bool) (h : loc) :
  geometryToPxMesh world geometry convex s = (Normal (Some h), s1) →
  (∃ this it,
     handles s !! h = None ∧
     handles s1 !! h = Some this ∧ released this = false ∧
     items s1 !! item this = Some it ∧ value this = Some (item_pmesh it) ∧
     ∀ s2, rtc (step_without h) s1 s2 →
       handles s2 !! h = Some this ∧
       (∃ it2, items s2 !! item this = Some it2 ∧
               item_pmesh it2 = item_pmesh it) ∧
       ∃ s3 this3,
         release h s2 = (Normal tt, s3) ∧
         handles s3 !! h = Some this3 ∧
         released this3 = true ∧ value this3 = None ∧
         ∀ s4, rtc step s3 s4 → handles s4 !! h = Some this3) ∧
  (reachable s →
   ∀ s2 h' this', rtc step s1 s2 → handles s2 !! h' = Some this' →
     (released this' = false →
        ∃ it', items s2 !! item this' = Some it' ∧
               value this' = Some (item_pmesh it')) ∧
     (released this' = true → value this' = None) ∧
     ∃ s3 this3,
       release h' s2 = (Normal tt, s3) ∧
       handles s3 !! h' = Some this3 ∧
       released this3 = true ∧ value this3 = None).
Proof.
  intros Hrun. split.
  - destruct (acquire_returns world geometry convex s h s1 Hrun)
      as (G & l & it1 & _ & _ & _ & Hl1 & Hnew & Hh1 & _).
    assert (Hh : handles s1 !! h = Some (open_handle l it1))
      by (rewrite Hh1; apply lookup_insert_eq).
    exists (open_handle l it1), it1.
    split; [done|]. split; [done|]. split; [done|]. split; [done|].
    split; [done|].
    intros s2 Hsteps.
    destruct (unreleased_is_stable h _ it1 s1 s2 Hsteps Hh Hl1)
      as (Hh2 & it2 & Hi2 & Hpm2).
    split; [done|]. split; [by exists it2|].
    assert (Hh3 : handles (after_release h (open_handle l it1) it2 s2) !! h
                  = Some (closed_handle (open_handle l it1))).
    { unfold after_release. destruct (item_refs it2 - 1 =? 0)%Z; simpl;
        apply lookup_insert_eq. }
    exists (after_release h (open_handle l it1) it2 s2),
      (closed_handle (open_handle l it1)).
    split; [by apply release_first|]. split; [done|].
    split; [done|]. split; [done|].
    intros s4 Hsteps4. by apply (released_is_stable _ _ _ _ Hsteps4).
  - intros Hreach s2 h' this' Hsteps Hh'.
    assert (Hreach2 : reachable s2).
    { apply (reachable_steps s1); [by eapply reach_acquire|done]. }
    pose proof (reachable_handles_ok s2 Hreach2 h' this' Hh') as Hok.
    unfold handle_ok in Hok.
    destruct (released this') eqn:Hr.
    + split; [done|]. split; [done|].
      exists s2, this'. by rewrite (release_released h' this' s2 Hh' Hr).
    + destruct Hok as (it' & Hit' & Hv).
      split; [by exists it'|]. split; [done|].
      exists (after_release h' this' it' s2), (closed_handle this').
      split; [by apply release_first|]. split; [|done].
      unfold after_release. destruct (item_refs it' - 1 =? 0)%Z; simpl;
        apply lookup_insert_eq.
Qed.

(** Neither [geometryToPxMesh] nor [release] changes a typed array that
    exists. *)
Lemma acquire_keeps_arrays world g convex s r s' :
  geometryToPxMesh world g convex s = (r, s') → arrays_kept s s'.
Proof.
  intros Hrun.
  destruct (geometries s !! g) as [G|] eqn:HG.
  2:{ rewrite (acquire_unknown world g convex s HG) in Hrun.
      injection Hrun as <- <-. by split. }
  destruct (cache s !! cache_id_in s G convex) as [l|] eqn:Hc.
  - destruct (acquire_prelude world g convex s G HG) as (s0 & Hstep & Hpre).
    rewrite Hpre, Hc in Hrun. destruct Hstep.
    destruct (items s0 !! l) as [it|] eqn:Hl.
    + rewrite (bind_normal _ _ _ _ _ (new_PMeshHandle_run l it s0 Hl)) in Hrun.
      injection Hrun as <- <-. split; simpl; congruence.
    + rewrite (bind_throw _ _ _ _ _ (new_PMeshHandle_missing l s0 Hl)) in Hrun.
      injection Hrun as <- <-. split; congruence.
  - destruct (acquire_miss_cases world g convex s G HG Hc)
      as (r' & s2 & Hrun' & _ & Hkept & _).
    congruence.
Qed.

Lemma release_keeps_arrays h s r s' :
  release h s = (r, s') → arrays_kept s s'.
Proof.
  intros Hrun.
  destruct (handles s !! h) as [this|] eqn:Hh.
  2:{ rewrite (release_unknown h s Hh) in Hrun. injection Hrun as <- <-. by split. }
  destruct (released this) eqn:Hr.
  { rewrite (release_released h this s Hh Hr) in Hrun.
    injection Hrun as <- <-. by split. }
  destruct (items s !! item this) as [it|] eqn:Hi.
  2:{ rewrite (release_dangling h this s Hh Hr Hi) in Hrun.
      injection Hrun as <- <-. by split. }
  rewrite (release_first h this it s Hh Hr Hi) in Hrun.
  injection Hrun as <- <-. unfold after_release.
  by destruct (item_refs it - 1 =? 0)%Z; split.
Qed.

(** C7, as the code has it.  When the bake scale is not 1.0 the positions sent
    to PhysX are a new [Float32Array] of the same length whose element [i] is
    [positions[i] * bakeScale] rounded to binary32, the product being computed
    in binary64; when it is 1.0 they are the positions array itself and nothing
    is copied.  No call of [geometryToPxMesh] or [release] changes a typed
    array that exists, so the caller's position and index buffers are never
    mutated. *)
Theorem scale_policy_frame (s : State) (positions : loc) (original : list float)
    (bakeScale : float) :
  f32arrays s !! positions = Some original →
  (Number.strict_ne bakeScale 1 = true →
     ∃ scaledPositions s1 scaled,
       scalePositions positions bakeScale s = (Normal scaledPositions, s1) ∧
       f32arrays s !! scaledPositions = None ∧
       f32arrays s1 !! scaledPositions = Some scaled ∧
       length scaled = length original ∧
       (∀ i v, original !! i = Some v →
               scaled !! i = Some (Number.fround (v * bakeScale))) ∧
       arrays_kept s s1) ∧
  (Number.strict_eq bakeScale 1 = true →
     scalePositions positions bakeScale s = (Normal positions, s)) ∧
  (∀ world geometry convex r s',
     geometryToPxMesh world geometry convex s = (r, s') → arrays_kept s s') ∧
  (∀ h r s', release h s = (r, s') → arrays_kept s s').
Proof.
  intros Hp. split; [|split; [|split]].
  - intros Hne. unfold Number.strict_ne in Hne. apply negb_true_iff in Hne.
    destruct (scalePositions_scale positions bakeScale s original Hp Hne)
      as (sp & s1 & Hrun & Hfresh & Hs1 & _ & Hstep).
    exists sp, s1, (map (fun v => Number.fround (v * bakeScale)) original).
    split; [done|]. split; [done|].
    split; [rewrite Hs1; apply lookup_insert_eq|].
    split; [apply length_map|].
    split.
    + intros i v Hi.
      change (map (fun v => Number.fround (v * bakeScale)) original)
        with ((fun v => Number.fround (v * bakeScale)) <$> original).
      by rewrite list_lookup_fmap, Hi.
    + destruct Hstep. by split.
  - intros Heq. by apply (scalePositions_pass _ _ _ _ Hp).
  - intros world geometry convex r s'. apply acquire_keeps_arrays.
  - intros h r s'. apply release_keeps_arrays.
Qed.

(** Foreign memory on the paths that return: a call that returns, a handle or
    [null], has freed every block it allocated. *)
Lemma returning_call_frees_everything world g convex s a s' :
  geometryToPxMesh world g convex s = (Normal a, s') → allocated s' = allocated s.
Proof.
  intros Hrun.
  destruct (geometries s !! g) as [G|] eqn:HG.
  2:{ by rewrite (acquire_unknown world g convex s HG) in Hrun. }
  destruct (cache s !! cache_id_in s G convex) as [l|] eqn:Hc.
  - destruct (acquire_prelude world g convex s G HG) as (s0 & Hstep & Hpre).
    rewrite Hpre, Hc in Hrun. destruct Hstep.
    destruct (items s0 !! l) as [it|] eqn:Hl.
    + rewrite (bind_normal _ _ _ _ _ (new_PMeshHandle_run l it s0 Hl)) in Hrun.
      by injection Hrun as <- <-.
    + by rewrite (bind_throw _ _ _ _ _ (new_PMeshHandle_missing l s0 Hl)) in Hrun.
  - destruct (acquire_miss world g convex s G HG Hc)
      as (s0 & r & sc & Hstep & Hcook & Hmiss).
    destruct (cook_spec world (boxed G (current_boundingBox s G)) convex
                (bakeScale_in s G) s0) as (r' & sc' & Hcook' & _ & Halloc & _).
    rewrite Hcook in Hcook'. injection Hcook' as <- <-.
    destruct Hstep. rewrite Hmiss in Hrun.
    destruct r as [[pm|]|e]; [| |done]; injection Hrun as <- <-; simpl;
      rewrite (Halloc _ eq_refl); done.
Qed.

(** Foreign memory on the paths that throw: when a call for a geometry that has
    its positions array and no cache entry throws, from the native routine in
    convex mode or from [index.array], the block allocated for the positions is
    still allocated. *)
Lemma exception_leaks_positions world g convex s G e s' :
  geometries s !! g = Some G →
  cache s !! cache_id_in s G convex = None →
  has_positions s G →
  geometryToPxMesh world g convex s = (Throw e, s') →
  ∃ bytes,
    allocated s !! next_block (allocated s) = None ∧
    allocated s' = <[next_block (allocated s) := bytes]> (allocated s).
Proof.
  intros HG Hc Hpos Hrun.
  destruct (acquire_miss world g convex s G HG Hc)
    as (s0 & r & sc & Hstep & Hcook & Hmiss).
  rewrite Hmiss in Hrun. destruct Hstep.
  destruct r as [[pm|]|e']; try done. injection Hrun as <- <-.
  destruct (cook_throw_leaks _ _ _ _ _ _ _ (proj2 (has_positions_boxed s s0 G
              pre_f32arrays0) Hpos) Hcook) as (bytes & Halloc).
  exists bytes. split; [apply next_block_fresh|].
  by rewrite Halloc, pre_allocated0.
Qed.

End Entries.

(** ** Frames: what a computation leaves alone *)

Section Frames.
Context (R : State → State → Prop) `{!PreOrder R}.

(** A relation that is reflexive and transitive is respected by a computation
    whose parts respect it. *)
Lemma respects_ret {A} (a : A) : respects R (ret a).
Proof. intros s r s' [= <- <-]. reflexivity. Qed.

Lemma respects_throw {A} e : respects R (@throw A e).
Proof. intros s r s' [= <- <-]. reflexivity. Qed.

Lemma respects_gets {A} (f : State → A) : respects R (gets f).
Proof. intros s r s' [= <- <-]. reflexivity. Qed.

Lemma respects_deref {A} (o : option A) : respects R (deref o).
Proof. destruct o; [apply respects_ret|apply respects_throw]. Qed.

Lemma respects_load {A} (heap : State → gmap loc A) l : respects R (load heap l).
Proof. intros s r s'. unfold load. apply respects_deref. Qed.

Lemma respects_modify (f : State → State) :
  (∀ s, R s (f s)) → respects R (modify f).
Proof. intros Hf s r s' [= <- <-]. apply Hf. Qed.

Lemma respects_bind {A B} (m : M A) (k : A → M B) :
  respects R m → (∀ a, respects R (k a)) → respects R (bind m k).
Proof.
  intros Hm Hk s r s'. unfold bind.
  destruct (m s) as [[a|e] s1] eqn:Hrun.
  - intros Hrun'. transitivity s1; [by apply (Hm _ _ _ Hrun)|].
    by apply (Hk a _ _ _ Hrun').
  - intros [= <- <-]. by apply (Hm _ _ _ Hrun).
Qed.

Lemma respects_try {A} (body : M A) handler finalizer :
  respects R body → (∀ e, respects R (handler e)) → respects R finalizer →
  respects R (try_catch_finally body handler finalizer).
Proof.
  intros Hb Hh Hf s r s'. unfold try_catch_finally.
  destruct (body s) as [[a|e] s0] eqn:Hbody.
  - destruct (finalizer s0) as [[u|e] s2] eqn:Hfin; intros [= <- <-];
      (transitivity s0; [by apply (Hb _ _ _ Hbody)|by apply (Hf _ _ _ Hfin)]).
  - destruct (handler e s0) as [r1 s1] eqn:Hhand.
    destruct (finalizer s1) as [[u|e'] s2] eqn:Hfin; intros [= <- <-];
      (transitivity s0; [by apply (Hb _ _ _ Hbody)|];
       transitivity s1; [by apply (Hh _ _ _ _ Hhand)|by apply (Hf _ _ _ Hfin)]).
Qed.

End Frames.

(** ** Cooked meshes change by native cooking calls only *)

Section CookingSteps.
Context `{Externals}.

Lemma cooking_step_refl s : cooking_step s s.
Proof.
  split; [|done]. exists []. split; [done|]. split; [done|apply not_elem_of_nil].
Qed.

Lemma cooking_step_trans s1 s2 s3 :
  cooking_step s1 s2 → cooking_step s2 s3 → cooking_step s1 s3.
Proof.
  intros [(new1 & Hc1 & Hp1 & Hn1) Hr1] [(new2 & Hc2 & Hp2 & Hn2) Hr2]. split.
  - exists (new2 ++ new1). split; [|split].
    + by rewrite Hc2, Hc1, app_assoc.
    + by rewrite Hp2, Hp1, foldr_app.
    + rewrite elem_of_app. tauto.
  - intros pm. by rewrite Hr2, Hr1.
Qed.

#[local] Instance cooking_step_preorder : PreOrder cooking_step.
Proof. split; [exact cooking_step_refl|exact cooking_step_trans]. Qed.

(** A step that neither cooks nor releases a mesh. *)
Lemma cooking_step_quiet s s' :
  native_cooks (log s') = native_cooks (log s) →
  (∀ pm, native_releases pm (log s') = native_releases pm (log s)) →
  pmeshes s' = pmeshes s → cooking_step s s'.
Proof.
  intros Hc Hr Hp. split; [|done].
  exists []. split; [done|]. split; [done|apply not_elem_of_nil].
Qed.

(** A loop keeps what its body keeps. *)
Lemma for_loop_keeps {B} (proj : State → B) body :
  (∀ i s, proj (body i s) = proj s) →
  ∀ n start s, proj (for_loop start n body s) = proj s.
Proof.
  intros Hbody. induction n as [|n IH]; intros start s; simpl; [done|].
  by rewrite IH, Hbody.
Qed.

Create HintDb cooking.

(** [frame] shows that a computation respects [cooking_step] by following its
    structure, with the lemmas of [cooking] for the parts already done. *)
Ltac frame :=
  repeat first
    [ solve [auto 1 with cooking nocore]
    | apply respects_ret; apply cooking_step_preorder
    | apply respects_throw; apply cooking_step_preorder
    | apply respects_gets; apply cooking_step_preorder
    | apply respects_load; apply cooking_step_preorder
    | apply respects_deref; apply cooking_step_preorder
    | apply respects_modify; intros ?; by apply cooking_step_quiet
    | match goal with
      | |- respects _ (if ?b then _ else _) => destruct b
      | |- respects _ (match ?x with _ => _ end) => destruct x
      end
    | apply respects_bind; [apply cooking_step_preorder| |intros ?]
    | apply respects_try; [apply cooking_step_preorder| |intros ?|] ].

Lemma new_Float32Array_cooking xs : respects cooking_step (new_Float32Array xs).
Proof. intros s r s' [= <- <-]. by apply cooking_step_quiet. Qed.

Lemma new_Uint16Array_cooking n : respects cooking_step (new_Uint16Array n).
Proof. intros s r s' [= <- <-]. by apply cooking_step_quiet. Qed.

Lemma webidl_malloc_cooking bytes : respects cooking_step (_webidl_malloc bytes).
Proof. intros s r s' [= <- <-]. by apply cooking_step_quiet. Qed.

Lemma console_errors_cooking n : respects cooking_step (console_errors n).
Proof.
  intros s r s' [= <- <-]. rewrite iter_emit.
  apply cooking_step_quiet; simpl; [apply native_cooks_errors| |done].
  intros pm. apply native_releases_errors.
Qed.

Lemma finish_cook_cooking verdict call :
  (∀ o l, native_cooks (call o :: l) = o :: native_cooks l) →
  (∀ o pm l, native_releases pm (call o :: l) = native_releases pm l) →
  respects cooking_step (finish_cook verdict call).
Proof.
  intros Hcall Hrel s r s'. unfold finish_cook.
  destruct verdict; intros [= <- <-]; (split; [|intros pm; apply Hrel]).
  - exists [Cooked (fresh ({[null_mesh]} ∪ dom (pmeshes s)))].
    split; [apply Hcall|]. split; [done|].
    rewrite list_elem_of_singleton. intros [= Heq].
    by apply (fresh_mesh_not_null (pmeshes s)).
  - exists [Rejected]. split; [apply Hcall|]. split; [done|].
    by rewrite list_elem_of_singleton.
  - exists [Threw]. split; [apply Hcall|]. split; [done|].
    by rewrite list_elem_of_singleton.
Qed.

Lemma CreateConvexMesh_cooking params desc :
  respects cooking_step (PHYSX_CreateConvexMesh params desc).
Proof.
  intros s r s'. unfold PHYSX_CreateConvexMesh. by apply finish_cook_cooking.
Qed.

Lemma CreateTriangleMesh_cooking params desc :
  respects cooking_step (PHYSX_CreateTriangleMesh params desc).
Proof.
  intros s r s'. unfold PHYSX_CreateTriangleMesh. by apply finish_cook_cooking.
Qed.

Lemma new_item_cooking id pm bs : respects cooking_step (new_item id pm bs).
Proof. intros s r s' [= <- <-]. by apply cooking_step_quiet. Qed.

Lemma for_loop_cooking n body :
  (∀ i s, log (body i s) = log s) → (∀ i s, pmeshes (body i s) = pmeshes s) →
  respects cooking_step (modify (for_loop 0 n body)).
Proof.
  intros Hlog Hpm. apply respects_modify. intros s. apply cooking_step_quiet.
  - by rewrite (for_loop_keeps log).
  - intros pm. by rewrite (for_loop_keeps log).
  - by apply (for_loop_keeps pmeshes).
Qed.

#[local] Hint Resolve new_Float32Array_cooking new_Uint16Array_cooking
  webidl_malloc_cooking console_errors_cooking CreateConvexMesh_cooking
  CreateTriangleMesh_cooking new_item_cooking : cooking.

Lemma new_PMeshHandle_cooking l : respects cooking_step (new_PMeshHandle l).
Proof.
  unfold new_PMeshHandle. frame.
  intros s r s' [= <- <-]. by apply cooking_step_quiet.
Qed.

Lemma scale_loop_cooking n p sp bs :
  respects cooking_step (modify (for_loop 0 n (scale_body p sp bs))).
Proof. by apply for_loop_cooking. Qed.

Lemma widen_loop_cooking n src ind :
  respects cooking_step (modify (for_loop 0 n (widen_body src ind))).
Proof. by apply for_loop_cooking. Qed.

Lemma normalizePosition_cooking G : respects cooking_step (normalizePosition G).
Proof. unfold normalizePosition. cbv zeta. frame. Qed.

#[local] Hint Resolve new_PMeshHandle_cooking scale_loop_cooking
  widen_loop_cooking normalizePosition_cooking : cooking.

(** Whatever [geometryToPxMesh] does to the cooked meshes is done by the
    native cooking call it makes. *)
Lemma acquire_cooking world g convex :
  respects cooking_step (geometryToPxMesh world g convex).
Proof. unfold geometryToPxMesh. frame. Qed.

End CookingSteps.

(** ** Counting the handles of an item *)

Section Counting.

Lemma holders_insert_new hs h this l :
  hs !! h = None →
  holders (<[h := this]> hs) l =
    if decide (item this = l ∧ released this = false)
    then S (holders hs l) else holders hs l.
Proof.
  intros Hh. unfold holders. rewrite map_filter_insert. simpl.
  case_decide.
  - rewrite map_size_insert_None; [done|].
    apply map_lookup_filter_None_2. by left.
  - by rewrite delete_id.
Qed.

(** Releasing a handle takes it out of the count of its item, and of no
    other. *)
Lemma holders_close hs h this l :
  hs !! h = Some this → released this = false →
  holders hs l =
    if decide (item this = l)
    then S (holders (<[h := closed_handle this]> hs) l)
    else holders (<[h := closed_handle this]> hs) l.
Proof.
  intros Hh Hr. unfold holders.
  rewrite map_filter_insert_False by (simpl; intros [_ ?]; done).
  rewrite map_filter_delete. case_decide as Hl.
  - rewrite map_size_delete_Some.
    + assert (Hin : filter (fun p : loc * PMeshHandle =>
                      item p.2 = l ∧ released p.2 = false) hs !! h = Some this)
        by (by apply map_lookup_filter_Some_2).
      assert (size (filter (fun p : loc * PMeshHandle =>
                      item p.2 = l ∧ released p.2 = false) hs) ≠ 0).
      { apply map_size_ne_0_lookup_2 with h. by eexists. }
      lia.
    + exists this. by apply map_lookup_filter_Some_2.
  - rewrite map_size_delete_None; [done|].
    apply map_lookup_filter_None_2. right. intros x Hx [Hi _]. simpl in Hi.
    congruence.
Qed.

Lemma holders_zero hs l :
  (∀ h this, hs !! h = Some this → released this = false → item this ≠ l) →
  holders hs l = 0.
Proof.
  intros Hno. unfold holders. apply map_size_empty_iff, map_empty. intros h.
  apply map_lookup_filter_None_2.
  destruct (hs !! h) as [this|] eqn:Hh; [right|by left].
  intros x [= <-] [Hi Hr]. simpl in *. by apply (Hno h this).
Qed.

Lemma holders_pos hs h this :
  hs !! h = Some this → released this = false → 0 < holders hs (item this).
Proof.
  intros Hh Hr. unfold holders.
  assert (size (filter (fun p : loc * PMeshHandle =>
                  item p.2 = item this ∧ released p.2 = false) hs) ≠ 0); [|lia].
  apply map_size_ne_0_lookup_2 with h. exists this.
  by apply map_lookup_filter_Some_2.
Qed.

(** Two handles that hold the same item count for two. *)
Lemma holders_two hs h1 h2 this1 this2 :
  h1 ≠ h2 → hs !! h1 = Some this1 → hs !! h2 = Some this2 →
  released this1 = false → released this2 = false → item this1 = item this2 →
  1 < holders hs (item this1).
Proof.
  intros Hne H1 H2 Hr1 Hr2 Hit.
  rewrite (holders_close hs h1 this1 (item this1) H1 Hr1), decide_True by done.
  assert (0 < holders (<[h1 := closed_handle this1]> hs) (item this2));
    [|by rewrite Hit; lia].
  apply holders_pos with h2; [|done]. by rewrite lookup_insert_ne.
Qed.

(** A handle that is alone in holding its item counts for one. *)
Lemma holders_one hs h this :
  hs !! h = Some this → released this = false →
  (∀ h' this', hs !! h' = Some this' → released this' = false →
               item this' = item this → h' = h) →
  holders hs (item this) = 1.
Proof.
  intros Hh Hr Halone.
  rewrite (holders_close hs h this (item this) Hh Hr), decide_True by done.
  f_equal. apply holders_zero. intros h' this' Hh' Hr' Hit.
  destruct (decide (h' = h)) as [->|Hne].
  - rewrite lookup_insert_eq in Hh'. by injection Hh' as <-.
  - rewrite lookup_insert_ne in Hh' by done. by destruct Hne; eapply Halone.
Qed.

End Counting.

(** ** The bookkeeping of the cache is right in every reachable state *)

Section Bookkeeping.
Context `{Externals}.

(** One call makes at most one native cooking call, whose outcome decides the
    result; the cooked meshes change by the mesh it cooked, if any, and no
    mesh is released. *)
Lemma acquire_outcome world g convex s r s' :
  geometryToPxMesh world g convex s = (r, s') →
  (∀ pm, native_releases pm (log s') = native_releases pm (log s)) ∧
  ((native_cooks (log s') = native_cooks (log s) ∧ pmeshes s' = pmeshes s ∧
    ∀ h, r = Normal (Some h) →
         ∃ G, geometries s !! g = Some G ∧
              is_Some (cache s !! cache_id_in s G convex))
   ∨
   (∃ o, native_cooks (log s') = o :: native_cooks (log s) ∧
         pmeshes s' = cooked_into o (pmeshes s) ∧
         acquire_result convex o r ∧
         o ≠ Cooked null_mesh)).
Proof.
  intros Hrun.
  destruct (acquire_cooking world g convex s r s' Hrun)
    as [(new & Hnew & Hpm & Hnn) Hrel].
  split; [done|].
  assert (Hquiet : native_cooks (log s') = native_cooks (log s) →
                   pmeshes s' = pmeshes s).
  { intros Heq. rewrite Heq in Hnew.
    apply (app_inv_tail _ [] new) in Hnew. by subst new. }
  assert (Hone : ∀ o, native_cooks (log s') = o :: native_cooks (log s) →
                      pmeshes s' = cooked_into o (pmeshes s) ∧ o ≠ Cooked null_mesh).
  { intros o Heq. rewrite Heq in Hnew.
    apply (app_inv_tail _ [o] new) in Hnew. subst new. split; [done|].
    intros ->. apply Hnn. by apply list_elem_of_singleton. }
  destruct (geometries s !! g) as [G|] eqn:HG.
  2:{ rewrite (acquire_unknown world g convex s HG) in Hrun.
      injection Hrun as <- <-. left. done. }
  destruct (cache s !! cache_id_in s G convex) as [l|] eqn:Hc.
  - left.
    destruct (acquire_prelude world g convex s G HG) as (s0 & Hstep & Hpre).
    rewrite Hpre, Hc in Hrun. destruct Hstep.
    assert (Hcooks : native_cooks (log s') = native_cooks (log s)).
    { destruct (items s0 !! l) as [it|] eqn:Hl.
      - rewrite (bind_normal _ _ _ _ _ (new_PMeshHandle_run l it s0 Hl)) in Hrun.
        by injection Hrun as <- <-.
      - rewrite (bind_throw _ _ _ _ _ (new_PMeshHandle_missing l s0 Hl)) in Hrun.
        by injection Hrun as <- <-. }
    split; [done|]. split; [by apply Hquiet|].
    intros h _. exists G. split; [done|]. by rewrite Hc.
  - destruct (acquire_miss_cases world g convex s G HG Hc)
      as (r' & s2 & Hrun' & _ & _ & _ & _ & Hcases).
    rewrite Hrun in Hrun'. injection Hrun' as <- <-.
    destruct Hcases as [(_ & -> & Hcooks & _)|(_ & _ & o & Hcooks & Hres & _)].
    + left. split; [done|]. split; [by apply Hquiet|]. done.
    + right. exists o. destruct (Hone o Hcooks) as [Hpm' Hnn'].
      split; [done|]. split; [done|]. split; done.
Qed.

Lemma consistent_initial : consistent initial.
Proof.
  split; unfold initial; simpl; try (intros; by rewrite ?lookup_empty in * );
    try (intros ??? Hl; by rewrite lookup_empty in Hl);
    try (intros ???? Hl; by rewrite lookup_empty in Hl).
Qed.

(** The bookkeeping only reads the cache, the items, the handles, the cooked
    meshes, the native releases and the outcomes of the native cooking
    calls. *)
Lemma consistent_ext s s' :
  cache s' = cache s → items s' = items s → handles s' = handles s →
  pmeshes s' = pmeshes s →
  (∀ pm, native_releases pm (log s') = native_releases pm (log s)) →
  (∀ o, o ∈ native_cooks (log s) → o ∈ native_cooks (log s')) →
  consistent s → consistent s'.
Proof.
  intros Hc Hi Hh Hp Hr Hk
    [Irefs Ihandles Icache Icached Ipmesh Iinj Iowned Ireleases Iunknown Inull
       Idead Irejected].
  split; rewrite ?Hc, ?Hi, ?Hh, ?Hp; try done;
    try (intros; rewrite Hr; eauto; fail).
  intros l it Hl Hn. apply Hk. eauto.
Qed.

(** A new handle on an item of the cache. *)
Lemma consistent_retain s s' h l it :
  consistent s →
  handles s !! h = None → items s !! l = Some it → (0 < item_refs it)%Z →
  handles s' = <[h := open_handle l (retained it)]> (handles s) →
  items s' = <[l := retained it]> (items s) →
  cache s' = cache s → pmeshes s' = pmeshes s →
  (∀ pm, native_releases pm (log s') = native_releases pm (log s)) →
  (∀ o, o ∈ native_cooks (log s) → o ∈ native_cooks (log s')) →
  consistent s'.
Proof.
  intros Hco Hh Hl Hpos Hh' Hi' Hc' Hp' Hr' Hk'.
  destruct Hco
    as [Irefs Ihandles Icache Icached Ipmesh Iinj Iowned Ireleases Iunknown Inull
          Idead Irejected].
  assert (Hold : ∀ l0 it0, <[l := retained it]> (items s) !! l0 = Some it0 →
            ∃ it0', items s !! l0 = Some it0' ∧ item_pmesh it0' = item_pmesh it0).
  { intros l0 it0 Hl0. destruct (decide (l0 = l)) as [->|Hne].
    - rewrite lookup_insert_eq in Hl0. injection Hl0 as <-. by exists it.
    - rewrite lookup_insert_ne in Hl0 by done. by exists it0. }
  split; rewrite ?Hc', ?Hi', ?Hh', ?Hp'.
  - intros l0 it0 Hl0. rewrite holders_insert_new by done. simpl.
    destruct (decide (l0 = l)) as [->|Hne].
    + rewrite lookup_insert_eq in Hl0. injection Hl0 as <-.
      rewrite decide_True by done. simpl. rewrite (Irefs l it Hl). lia.
    + rewrite lookup_insert_ne in Hl0 by done.
      rewrite decide_False by (intros [? _]; congruence). eauto.
  - intros h0 this Hh0 Hr0.
    destruct (decide (h0 = h)) as [->|Hne].
    + rewrite lookup_insert_eq in Hh0. injection Hh0 as <-. simpl.
      rewrite lookup_insert_eq. by eexists.
    + rewrite lookup_insert_ne in Hh0 by done.
      destruct (Ihandles h0 this Hh0 Hr0) as [it0 Hit0].
      destruct (decide (item this = l)) as [->|Hnel].
      * rewrite lookup_insert_eq. by eexists.
      * rewrite lookup_insert_ne by done. by eexists.
  - intros id l0 Hid. destruct (Icache id l0 Hid) as (it0 & Hit0 & Hid0 & Hpos0).
    destruct (decide (l0 = l)) as [->|Hne].
    + rewrite lookup_insert_eq. exists (retained it).
      assert (it0 = it) as -> by congruence. simpl. split; [done|]. split; [done|lia].
    + rewrite lookup_insert_ne by done. by exists it0.
  - intros l0 it0 Hl0 Hpos0. destruct (decide (l0 = l)) as [->|Hne].
    + rewrite lookup_insert_eq in Hl0. injection Hl0 as <-. simpl. eauto.
    + rewrite lookup_insert_ne in Hl0 by done. eauto.
  - intros l0 it0 Hl0 Hnn. destruct (decide (l0 = l)) as [->|Hne].
    + rewrite lookup_insert_eq in Hl0. injection Hl0 as <-. simpl in *.
      rewrite (Ipmesh l it Hl Hnn). f_equal.
      rewrite !bool_decide_eq_true_2 by lia. done.
    + rewrite lookup_insert_ne in Hl0 by done. eauto.
  - intros l1 l2 it1 it2 Hl1 Hl2 Hpm Hnn.
    destruct (Hold _ _ Hl1) as (it1' & Hl1' & Hpm1).
    destruct (Hold _ _ Hl2) as (it2' & Hl2' & Hpm2).
    apply (Iinj l1 l2 it1' it2' Hl1' Hl2'); congruence.
  - intros pm Hpm Hnn. destruct (Iowned pm Hpm Hnn) as (l0 & it0 & Hl0 & Hpm0).
    destruct (decide (l0 = l)) as [->|Hne].
    + exists l, (retained it). rewrite lookup_insert_eq. split; [done|].
      simpl. congruence.
    + exists l0, it0. by rewrite lookup_insert_ne.
  - intros l0 it0 Hl0 Hnn. rewrite Hr'. destruct (decide (l0 = l)) as [->|Hne].
    + rewrite lookup_insert_eq in Hl0. injection Hl0 as <-. simpl in *.
      rewrite (Ireleases l it Hl Hnn).
      rewrite !bool_decide_eq_true_2 by lia. done.
    + rewrite lookup_insert_ne in Hl0 by done. eauto.
  - intros pm Hpm. rewrite Hr'. eauto.
  - done.
  - intros l0 it0 Hl0 Hz. destruct (decide (l0 = l)) as [->|Hne].
    + rewrite lookup_insert_eq in Hl0. injection Hl0 as <-. simpl in Hz. lia.
    + rewrite lookup_insert_ne in Hl0 by done. eauto.
  - intros l0 it0 Hl0 Hn. destruct (Hold _ _ Hl0) as (it0' & Hl0' & Hpm0).
    apply Hk', (Irejected l0 it0' Hl0'). congruence.
Qed.

(** A new entry for what a native call returned, with its first handle: the
    wrapper of a newly cooked mesh, or the wrapper of the null pointer after a
    call that gave no mesh. *)
Lemma consistent_insert s s' h l id pm bs :
  consistent s →
  handles s !! h = None → items s !! l = None → cache s !! id = None →
  (pm ≠ null_mesh →
     pmeshes s !! pm = None ∧ pmeshes s' = <[pm := true]> (pmeshes s)) →
  (pm = null_mesh →
     pmeshes s' = pmeshes s ∧ Rejected ∈ native_cooks (log s')) →
  handles s' = <[h := open_handle l (retained (fresh_item id pm bs))]> (handles s) →
  items s' = <[l := retained (fresh_item id pm bs)]> (items s) →
  cache s' = <[id := l]> (cache s) →
  (∀ pm, native_releases pm (log s') = native_releases pm (log s)) →
  (∀ o, o ∈ native_cooks (log s) → o ∈ native_cooks (log s')) →
  consistent s'.
Proof.
  intros Hco Hh Hl Hid Hmesh Hnull Hh' Hi' Hc' Hr' Hk'.
  destruct Hco
    as [Irefs Ihandles Icache Icached Ipmesh Iinj Iowned Ireleases Iunknown Inull
          Idead Irejected].
  assert (Hnone : holders (handles s) l = 0).
  { apply holders_zero. intros h0 this Hh0 Hr0 Hit.
    destruct (Ihandles h0 this Hh0 Hr0) as [it0 Hit0]. congruence. }
  assert (Hkeep : ∀ pm0 b, pmeshes s !! pm0 = Some b → pmeshes s' !! pm0 = Some b).
  { intros pm0 b Hb. destruct (decide (pm = null_mesh)) as [Hn|Hn].
    - by rewrite (proj1 (Hnull Hn)).
    - destruct (Hmesh Hn) as [Hfresh ->]. rewrite lookup_insert_ne; [done|congruence]. }
  assert (Hback : ∀ pm0, pm0 ≠ pm → pmeshes s' !! pm0 = pmeshes s !! pm0).
  { intros pm0 Hne. destruct (decide (pm = null_mesh)) as [Hn|Hn].
    - by rewrite (proj1 (Hnull Hn)).
    - destruct (Hmesh Hn) as [_ ->]. by rewrite lookup_insert_ne. }
  split; rewrite ?Hc', ?Hi', ?Hh'.
  - intros l0 it0 Hl0. rewrite holders_insert_new by done. simpl.
    destruct (decide (l0 = l)) as [->|Hne].
    + rewrite lookup_insert_eq in Hl0. injection Hl0 as <-.
      rewrite decide_True by done. simpl. rewrite Hnone. done.
    + rewrite lookup_insert_ne in Hl0 by done.
      rewrite decide_False by (intros [? _]; congruence). eauto.
  - intros h0 this Hh0 Hr0.
    destruct (decide (h0 = h)) as [->|Hne].
    + rewrite lookup_insert_eq in Hh0. injection Hh0 as <-. simpl.
      rewrite lookup_insert_eq. by eexists.
    + rewrite lookup_insert_ne in Hh0 by done.
      destruct (Ihandles h0 this Hh0 Hr0) as [it0 Hit0].
      rewrite lookup_insert_ne by congruence. by eexists.
  - intros id0 l0 Hid0. destruct (decide (id0 = id)) as [->|Hne].
    + rewrite lookup_insert_eq in Hid0. injection Hid0 as <-.
      rewrite lookup_insert_eq. eexists. split; [done|]. simpl. split; [done|lia].
    + rewrite lookup_insert_ne in Hid0 by done.
      destruct (Icache id0 l0 Hid0) as (it0 & Hit0 & Hid0' & Hpos0).
      rewrite lookup_insert_ne by congruence. by exists it0.
  - intros l0 it0 Hl0 Hpos0. destruct (decide (l0 = l)) as [->|Hne].
    + rewrite lookup_insert_eq in Hl0. injection Hl0 as <-. simpl.
      apply lookup_insert_eq.
    + rewrite lookup_insert_ne in Hl0 by done.
      pose proof (Icached l0 it0 Hl0 Hpos0) as Hc0.
      rewrite lookup_insert_ne by congruence. done.
  - intros l0 it0 Hl0 Hnn. destruct (decide (l0 = l)) as [->|Hne].
    + rewrite lookup_insert_eq in Hl0. injection Hl0 as <-. simpl in *.
      destruct (Hmesh Hnn) as [_ ->]. by rewrite lookup_insert_eq.
    + rewrite lookup_insert_ne in Hl0 by done.
      apply Hkeep. eauto.
  - intros l1 l2 it1 it2 Hl1 Hl2 Hpm12 Hnn.
    destruct (decide (l1 = l)) as [->|Hne1], (decide (l2 = l)) as [->|Hne2];
      [done| | |].
    + rewrite lookup_insert_eq in Hl1. injection Hl1 as <-.
      rewrite lookup_insert_ne in Hl2 by done. simpl in *.
      destruct (Hmesh Hnn) as [Hfresh _].
      rewrite Hpm12 in Hnn, Hfresh.
      pose proof (Ipmesh l2 it2 Hl2 Hnn) as Hp2. congruence.
    + rewrite lookup_insert_eq in Hl2. injection Hl2 as <-.
      rewrite lookup_insert_ne in Hl1 by done. simpl in *.
      pose proof (Ipmesh l1 it1 Hl1 Hnn) as Hp1.
      rewrite <- Hpm12 in Hmesh. destruct (Hmesh Hnn) as [Hfresh _]. congruence.
    + rewrite lookup_insert_ne in Hl1, Hl2 by done. eauto.
  - intros pm0 Hpm0 Hnn. destruct (decide (pm0 = pm)) as [->|Hne].
    + eexists l, _. rewrite lookup_insert_eq. done.
    + rewrite (Hback pm0 Hne) in Hpm0.
      destruct (Iowned pm0 Hpm0 Hnn) as (l0 & it0 & Hl0 & Hpm0').
      exists l0, it0. rewrite lookup_insert_ne by congruence. done.
  - intros l0 it0 Hl0 Hnn. rewrite Hr'. destruct (decide (l0 = l)) as [->|Hne].
    + rewrite lookup_insert_eq in Hl0. injection Hl0 as <-. simpl in *.
      destruct (Hmesh Hnn) as [Hfresh _]. eauto.
    + rewrite lookup_insert_ne in Hl0 by done. eauto.
  - intros pm0 Hpm0. rewrite Hr'. destruct (decide (pm0 = pm)) as [->|Hne].
    + destruct (decide (pm = null_mesh)) as [Hn|Hn].
      * rewrite (proj1 (Hnull Hn)) in Hpm0. eauto.
      * destruct (Hmesh Hn) as [Hfresh _]. eauto.
    + rewrite (Hback pm0 Hne) in Hpm0. eauto.
  - destruct (decide (pm = null_mesh)) as [Hn|Hn].
    + by rewrite (proj1 (Hnull Hn)).
    + rewrite (Hback null_mesh) by congruence. done.
  - intros l0 it0 Hl0 Hz. destruct (decide (l0 = l)) as [->|Hne].
    + rewrite lookup_insert_eq in Hl0. injection Hl0 as <-. simpl in Hz. lia.
    + rewrite lookup_insert_ne in Hl0 by done. apply Hkeep. eauto.
  - intros l0 it0 Hl0 Hn. destruct (decide (l0 = l)) as [->|Hne].
    + rewrite lookup_insert_eq in Hl0. injection Hl0 as <-. simpl in Hn.
      by apply Hnull.
    + rewrite lookup_insert_ne in Hl0 by done. eauto.
Qed.

(** The first release of a handle. *)
Lemma consistent_release s h this it :
  consistent s →
  handles s !! h = Some this → released this = false →
  items s !! item this = Some it →
  consistent (after_release h this it s).
Proof.
  intros Hco Hh Hr Hl.
  destruct Hco
    as [Irefs Ihandles Icache Icached Ipmesh Iinj Iowned Ireleases Iunknown Inull
          Idead Irejected].
  assert (Hpos : (0 < item_refs it)%Z).
  { rewrite (Irefs _ _ Hl). pose proof (holders_pos _ _ _ Hh Hr). lia. }
  assert (Hh' : handles (after_release h this it s)
                = <[h := closed_handle this]> (handles s)).
  { unfold after_release. by destruct (item_refs it - 1 =? 0)%Z. }
  assert (Hi' : items (after_release h this it s)
                = <[item this := dropped it]> (items s)).
  { unfold after_release. by destruct (item_refs it - 1 =? 0)%Z. }
  assert (Hc' : cache (after_release h this it s)
                = if (item_refs it - 1 =? 0)%Z
                  then delete (item_id it) (cache s) else cache s).
  { unfold after_release. by destruct (item_refs it - 1 =? 0)%Z. }
  assert (Hp' : pmeshes (after_release h this it s)
                = if (item_refs it - 1 =? 0)%Z
                  then <[item_pmesh it := false]> (pmeshes s) else pmeshes s).
  { unfold after_release. by destruct (item_refs it - 1 =? 0)%Z. }
  assert (Hr' : ∀ pm, native_releases pm (log (after_release h this it s))
                = if (item_refs it - 1 =? 0)%Z
                  then (if bool_decide (item_pmesh it = pm) then 1 else 0)
                       + native_releases pm (log s)
                  else native_releases pm (log s)).
  { intros pm. unfold after_release. by destruct (item_refs it - 1 =? 0)%Z. }
  assert (Hk' : native_cooks (log (after_release h this it s)) = native_cooks (log s)).
  { unfold after_release. by destruct (item_refs it - 1 =? 0)%Z. }
  assert (Hother : ∀ l0 it0, l0 ≠ item this → items s !! l0 = Some it0 →
                             item_pmesh it0 ≠ null_mesh →
                             item_pmesh it0 ≠ item_pmesh it).
  { intros l0 it0 Hne Hl0 Hnn Hpm.
    by destruct Hne; apply (Iinj l0 (item this) it0 it). }
  assert (Hold : ∀ l0 it0, <[item this := dropped it]> (items s) !! l0 = Some it0 →
            ∃ it0', items s !! l0 = Some it0' ∧ item_pmesh it0' = item_pmesh it0).
  { intros l0 it0 Hl0. destruct (decide (l0 = item this)) as [->|Hne].
    - rewrite lookup_insert_eq in Hl0. injection Hl0 as <-. by exists it.
    - rewrite lookup_insert_ne in Hl0 by done. by exists it0. }
  split; rewrite ?Hc', ?Hi', ?Hh', ?Hp', ?Hk'.
  - intros l0 it0 Hl0. pose proof (holders_close _ _ _ l0 Hh Hr) as Hclose.
    destruct (decide (l0 = item this)) as [->|Hne].
    + rewrite lookup_insert_eq in Hl0. injection Hl0 as <-. simpl.
      rewrite decide_True in Hclose by done. rewrite (Irefs _ _ Hl), Hclose. lia.
    + rewrite lookup_insert_ne in Hl0 by done.
      rewrite decide_False in Hclose by done. rewrite <- Hclose. eauto.
  - intros h0 this0 Hh0 Hr0.
    destruct (decide (h0 = h)) as [->|Hne].
    + rewrite lookup_insert_eq in Hh0. by injection Hh0 as <-.
    + rewrite lookup_insert_ne in Hh0 by done.
      destruct (Ihandles h0 this0 Hh0 Hr0) as [it0 Hit0].
      destruct (decide (item this0 = item this)) as [->|Hnel].
      * rewrite lookup_insert_eq. by eexists.
      * rewrite lookup_insert_ne by done. by eexists.
  - intros id l0 Hid.
    assert (Hid0 : cache s !! id = Some l0).
    { destruct (item_refs it - 1 =? 0)%Z; [|done].
      by apply lookup_delete_Some in Hid as [_ ?]. }
    destruct (Icache id l0 Hid0) as (it0 & Hit0 & Hid0' & Hpos0).
    destruct (decide (l0 = item this)) as [->|Hne].
    + assert (it0 = it) as -> by congruence.
      rewrite lookup_insert_eq. exists (dropped it). split; [done|].
      split; [done|]. simpl.
      destruct (Z.eqb_spec (item_refs it - 1) 0) as [Hz|Hnz]; [|lia].
      apply lookup_delete_Some in Hid as [Hne _]. congruence.
    + rewrite lookup_insert_ne by done. by exists it0.
  - intros l0 it0 Hl0 Hpos0. destruct (decide (l0 = item this)) as [->|Hne].
    + rewrite lookup_insert_eq in Hl0. injection Hl0 as <-. simpl in *.
      rewrite (proj2 (Z.eqb_neq _ _)) by lia. eauto.
    + rewrite lookup_insert_ne in Hl0 by done.
      pose proof (Icached l0 it0 Hl0 Hpos0) as Hc0.
      destruct (item_refs it - 1 =? 0)%Z; [|done].
      rewrite lookup_delete_ne; [done|]. intros Heq.
      pose proof (Icached _ _ Hl Hpos) as Hc1. congruence.
  - intros l0 it0 Hl0 Hnn. destruct (decide (l0 = item this)) as [->|Hne].
    + rewrite lookup_insert_eq in Hl0. injection Hl0 as <-. simpl in *.
      destruct (Z.eqb_spec (item_refs it - 1) 0) as [Hz|Hnz].
      * rewrite lookup_insert_eq, bool_decide_eq_false_2 by lia. done.
      * rewrite (Ipmesh _ _ Hl Hnn), !bool_decide_eq_true_2 by lia. done.
    + rewrite lookup_insert_ne in Hl0 by done.
      pose proof (Ipmesh l0 it0 Hl0 Hnn) as Hp0.
      destruct (item_refs it - 1 =? 0)%Z; [|done].
      rewrite lookup_insert_ne; [done|]. intros Heq. by apply (Hother l0 it0).
  - intros l1 l2 it1 it2 Hl1 Hl2 Hpm Hnn.
    destruct (Hold _ _ Hl1) as (it1' & Hl1' & Hpm1).
    destruct (Hold _ _ Hl2) as (it2' & Hl2' & Hpm2).
    apply (Iinj l1 l2 it1' it2' Hl1' Hl2'); congruence.
  - intros pm Hpm Hnn.
    assert (Hpm0 : is_Some (pmeshes s !! pm)).
    { destruct (item_refs it - 1 =? 0)%Z; [|done].
      destruct (decide (pm = item_pmesh it)) as [->|Hne].
      - rewrite (Ipmesh _ _ Hl Hnn). by eexists.
      - by rewrite lookup_insert_ne in Hpm. }
    destruct (Iowned pm Hpm0 Hnn) as (l0 & it0 & Hl0 & Hpm0').
    destruct (decide (l0 = item this)) as [->|Hne].
    + exists (item this), (dropped it). rewrite lookup_insert_eq.
      split; [done|]. simpl. congruence.
    + exists l0, it0. by rewrite lookup_insert_ne.
  - intros l0 it0 Hl0 Hnn. rewrite Hr'.
    destruct (decide (l0 = item this)) as [->|Hne].
    + rewrite lookup_insert_eq in Hl0. injection Hl0 as <-. simpl in *.
      rewrite (Ireleases _ _ Hl Hnn),
        (bool_decide_eq_true_2 (0 < item_refs it)%Z) by done.
      destruct (Z.eqb_spec (item_refs it - 1) 0) as [Hz|Hnz].
      * rewrite bool_decide_eq_true_2, bool_decide_eq_false_2 by (done || lia). done.
      * rewrite bool_decide_eq_true_2 by lia. done.
    + rewrite lookup_insert_ne in Hl0 by done.
      rewrite (Ireleases _ _ Hl0 Hnn).
      destruct (item_refs it - 1 =? 0)%Z; [|done].
      rewrite bool_decide_eq_false_2; [done|]. intros Heq.
      by apply (Hother l0 it0).
  - intros pm Hpm. rewrite Hr'.
    destruct (item_refs it - 1 =? 0)%Z; [|eauto].
    destruct (decide (item_pmesh it = pm)) as [<-|Hne].
    + by rewrite lookup_insert_eq in Hpm.
    + rewrite lookup_insert_ne in Hpm by done.
      rewrite bool_decide_eq_false_2 by done. simpl. eauto.
  - destruct (item_refs it - 1 =? 0)%Z; [|done].
    destruct (decide (item_pmesh it = null_mesh)) as [->|Hne].
    + by rewrite lookup_insert_eq.
    + by rewrite lookup_insert_ne.
  - intros l0 it0 Hl0 Hz. destruct (decide (l0 = item this)) as [->|Hne].
    + rewrite lookup_insert_eq in Hl0. injection Hl0 as <-. simpl in *.
      rewrite (proj2 (Z.eqb_eq _ _) Hz). apply lookup_insert_eq.
    + rewrite lookup_insert_ne in Hl0 by done.
      pose proof (Idead l0 it0 Hl0 Hz) as Hd0.
      destruct (item_refs it - 1 =? 0)%Z; [|done].
      destruct (decide (item_pmesh it0 = item_pmesh it)) as [->|Hnp].
      * apply lookup_insert_eq.
      * by rewrite lookup_insert_ne.
  - intros l0 it0 Hl0 Hn. destruct (Hold _ _ Hl0) as (it0' & Hl0' & Hpm0).
    apply (Irejected l0 it0' Hl0'). congruence.
Qed.

(** The bookkeeping is right in every reachable state. *)
Lemma reachable_consistent s : reachable s → consistent s.
Proof.
  induction 1 as [s Hstart|s s' _ IH Hstep|s world g convex r s' _ IH Hrun
                 |s h r s' _ IH Hrun].
  - destruct Hstart as (Hc & Hi & Hh & _ & _ & Hp & Hl).
    apply (consistent_ext initial); try done; [by rewrite Hl|by rewrite Hl|].
    apply consistent_initial.
  - destruct Hstep as (Hc & Hi & Hh & _ & _ & Hp & Hl).
    apply (consistent_ext s); try done; by rewrite Hl.
  - destruct (acquire_outcome world g convex s r s' Hrun) as [Hrel Hcases].
    assert (Hgrow : ∀ o, o ∈ native_cooks (log s) → o ∈ native_cooks (log s')).
    { intros o Ho. destruct Hcases as [(-> & _)|(o' & -> & _)]; [done|].
      by apply list_elem_of_further. }
    destruct r as [[h1|]|e].
    + destruct (acquire_returns world g convex s h1 s' Hrun)
        as (G & l & it1 & HG & _ & Hc1 & Hl1 & Hnew & Hh1 & Hcase).
      destruct Hcase as [(Hhit & (it & Hit & ->) & Hi1 & Hcache & Hcooks & Hpm)
                        |(Hmiss & Hfresh & Hi1 & Hcache & Hit1 & Hcooked)].
      * apply (consistent_retain s s' h1 l it); try done.
        destruct (co_cache s IH _ _ Hhit) as (it' & Hit' & _ & Hpos). congruence.
      * destruct Hcases as [(Hsame & _)|(o & Ho & Hpm & _ & Hnn)].
        { destruct Hcooked as [(Hcooks & _)|(Hcooks & _)];
            rewrite Hsame in Hcooks; by destruct (not_cons_self _ _ Hcooks). }
        rewrite Hit1 in Hh1, Hi1.
        apply (consistent_insert s s' h1 l (cache_id_in s G convex) (item_pmesh it1)
                 (bakeScale_in s G)); try done.
        -- intros Hmesh.
           destruct Hcooked as [(Hcooks & Hpmn & _)|(_ & Hnull)]; [|done].
           rewrite Ho in Hcooks. injection Hcooks as ->. done.
        -- intros Hnull.
           destruct Hcooked as [(Hcooks & _)|(Hcooks & _)].
           ++ rewrite Ho in Hcooks. injection Hcooks as ->.
              rewrite Hnull in Hnn. done.
           ++ rewrite Ho in Hcooks. injection Hcooks as ->.
              split; [done|]. rewrite Ho. apply list_elem_of_here.
    + destruct (acquire_fails world g convex s _ s' Hrun) as (Hc & Hi & Hh); [done|].
      apply (consistent_ext s); try done.
      destruct Hcases as [(_ & Hpm & _)|(o & _ & Hpm & Hres & _)]; [done|].
      destruct o as [pm| |]; [by destruct Hres|by destruct Hres|done].
    + destruct (acquire_fails world g convex s _ s' Hrun) as (Hc & Hi & Hh); [done|].
      apply (consistent_ext s); try done.
      destruct Hcases as [(_ & Hpm & _)|(o & _ & Hpm & Hres & _)]; [done|].
      destruct o as [pm| |]; [by destruct Hres|by destruct Hres|done].
  - destruct (handles s !! h) as [this|] eqn:Hh.
    2:{ rewrite (release_unknown h s Hh) in Hrun. by injection Hrun as <- <-. }
    destruct (released this) eqn:Hr.
    { rewrite (release_released h this s Hh Hr) in Hrun. by injection Hrun as <- <-. }
    destruct (items s !! item this) as [it|] eqn:Hi.
    2:{ rewrite (release_dangling h this s Hh Hr Hi) in Hrun.
        by injection Hrun as <- <-. }
    rewrite (release_first h this it s Hh Hr Hi) in Hrun.
    injection Hrun as <- <-. by apply consistent_release.
Qed.

End Bookkeeping.

(** ** Reference counting *)

Section Invariants.
Context `{Externals}.

(** X1.  In every reachable state the count of an item, [item.refs], is the
    number of handles that reference the item and have not been released. *)
Theorem reference_count_is_exact (s : State) (l : loc) (it : Item) :
  reachable s → items s !! l = Some it →
  item_refs it = Z.of_nat (holders (handles s) l).
Proof.
  intros Hreach Hl. by apply (co_refs s (reachable_consistent s Hreach)).
Qed.

(** X2.  In every reachable state a handle that has not been released holds
    the object of its item in [value], and the item is still the cache entry of
    its id.  The object is a live mesh that has not been released natively,
    unless it is the wrapper of the null pointer: then a native routine gave no
    mesh, and the wrapper is not a live mesh. *)
Theorem unreleased_handle_holds_live_mesh (s : State) (h : loc) (this : PMeshHandle) :
  reachable s → handles s !! h = Some this → released this = false →
  ∃ it pm,
    items s !! item this = Some it ∧
    value this = Some pm ∧ item_pmesh it = pm ∧
    cache s !! item_id it = Some (item this) ∧
    (pm ≠ null_mesh →
       pmeshes s !! pm = Some true ∧ native_releases pm (log s) = 0) ∧
    (pm = null_mesh →
       pmeshes s !! pm ≠ Some true ∧ Rejected ∈ native_cooks (log s)).
Proof.
  intros Hreach Hh Hr.
  pose proof (reachable_consistent s Hreach) as Hco.
  pose proof (reachable_handles_ok s Hreach h this Hh) as Hok.
  unfold handle_ok in Hok. rewrite Hr in Hok. destruct Hok as (it & Hit & Hv).
  assert (Hpos : (0 < item_refs it)%Z).
  { rewrite (co_refs s Hco _ _ Hit). pose proof (holders_pos _ _ _ Hh Hr). lia. }
  exists it, (item_pmesh it). split; [done|]. split; [done|]. split; [done|].
  split; [by apply (co_cached s Hco)|]. split.
  - intros Hnn. split.
    + rewrite (co_pmesh s Hco _ _ Hit Hnn). by rewrite bool_decide_eq_true_2.
    + rewrite (co_releases s Hco _ _ Hit Hnn). by rewrite bool_decide_eq_true_2.
  - intros Hn. split.
    + rewrite Hn. apply (co_null s Hco).
    + by apply (co_rejected s Hco _ _ Hit).
Qed.

(** X3.  The mesh of an item is destroyed exactly by the release of its last
    handle.  In a reachable state, [release()] on a handle that has not been
    released returns; while another unreleased handle references the same
    item, no mesh changes, the mesh of the item stays live, the entry stays in
    the cache and PhysX is not called; when there is no other one, [release()]
    is called on the object of the item and the entry is deleted from the
    cache. *)
Theorem mesh_destroyed_exactly_at_last_release (s : State) (h : loc)
    (this : PMeshHandle) :
  reachable s → handles s !! h = Some this → released this = false →
  ∃ it s1,
    items s !! item this = Some it ∧
    release h s = (Normal tt, s1) ∧
    ((∃ h' this', h' ≠ h ∧ handles s !! h' = Some this' ∧
                  released this' = false ∧ item this' = item this) →
       pmeshes s1 = pmeshes s ∧
       (item_pmesh it ≠ null_mesh → pmeshes s1 !! item_pmesh it = Some true) ∧
       cache s1 !! item_id it = Some (item this) ∧
       log s1 = log s) ∧
    ((∀ h' this', handles s !! h' = Some this' → released this' = false →
                  item this' = item this → h' = h) →
       pmeshes s1 !! item_pmesh it = Some false ∧
       cache s1 !! item_id it = None ∧
       log s1 = pmesh_release (item_pmesh it) :: log s).
Proof.
  intros Hreach Hh Hr. pose proof (reachable_consistent s Hreach) as Hco.
  destruct (co_handles s Hco h this Hh Hr) as [it Hit].
  exists it, (after_release h this it s).
  split; [done|]. split; [by apply release_first|].
  pose proof (co_refs s Hco _ _ Hit) as Hrefs.
  split.
  - intros (h' & this' & Hne & Hh' & Hr' & Hitem).
    pose proof (holders_two (handles s) h h' this this' (not_eq_sym Hne) Hh Hh' Hr Hr'
                  (eq_sym Hitem)) as Htwo.
    assert (Hpos : (0 < item_refs it)%Z) by lia.
    unfold after_release. rewrite (proj2 (Z.eqb_neq _ _)) by lia. simpl.
    split; [done|]. split; [|split; [|done]].
    + intros Hnn. rewrite (co_pmesh s Hco _ _ Hit Hnn).
      by rewrite bool_decide_eq_true_2.
    + by apply (co_cached s Hco).
  - intros Halone.
    pose proof (holders_one (handles s) h this Hh Hr Halone) as Hone.
    unfold after_release. rewrite (proj2 (Z.eqb_eq _ _)) by lia. simpl.
    split; [apply lookup_insert_eq|]. split; [apply lookup_delete_eq|done].
Qed.

(** X4.  In every reachable state every cooked mesh has been released
    natively at most once, and exactly once when it is no longer live.  (The
    wrapper of the null pointer is no cooked mesh.) *)
Theorem mesh_released_at_most_once (s : State) (pm : nat) :
  reachable s → pm ≠ null_mesh →
  native_releases pm (log s) ≤ 1 ∧
  (native_releases pm (log s) = 1 ↔ pmeshes s !! pm = Some false).
Proof.
  intros Hreach Hnn. pose proof (reachable_consistent s Hreach) as Hco.
  destruct (pmeshes s !! pm) as [b|] eqn:Hpm.
  - destruct (co_owned s Hco pm) as (l & it & Hl & <-); [by eexists|done|].
    rewrite (co_pmesh s Hco _ _ Hl Hnn) in Hpm. injection Hpm as <-.
    rewrite (co_releases s Hco _ _ Hl Hnn).
    destruct (bool_decide (0 < item_refs it)%Z); split; try lia; split; done.
  - rewrite (co_unknown s Hco pm Hpm). split; [lia|]. split; done.
Qed.

(** X5.  In every reachable state the cache holds exactly the items that are
    in use: an entry is stored under the [id] field of its item, has a positive
    count and, unless its object is the wrapper of the null pointer, a live
    mesh; a count is never negative, an item is the entry of its id exactly
    when its count is positive, and [release()] was called on the object of an
    item with count 0. *)
Theorem cache_holds_the_live_items (s : State) :
  reachable s →
  (∀ id l, cache s !! id = Some l →
     ∃ it, items s !! l = Some it ∧ item_id it = id ∧ (0 < item_refs it)%Z ∧
           (item_pmesh it ≠ null_mesh →
              pmeshes s !! item_pmesh it = Some true)) ∧
  (∀ l it, items s !! l = Some it →
     (0 ≤ item_refs it)%Z ∧
     (cache s !! item_id it = Some l ↔ (0 < item_refs it)%Z) ∧
     (item_refs it = 0%Z → pmeshes s !! item_pmesh it = Some false)).
Proof.
  intros Hreach. pose proof (reachable_consistent s Hreach) as Hco. split.
  - intros id l Hid. destruct (co_cache s Hco id l Hid) as (it & Hl & Hid' & Hpos).
    exists it. split; [done|]. split; [done|]. split; [done|].
    intros Hnn. rewrite (co_pmesh s Hco _ _ Hl Hnn).
    by rewrite bool_decide_eq_true_2.
  - intros l it Hl. split; [|split].
    + rewrite (co_refs s Hco _ _ Hl). lia.
    + split; [|by apply (co_cached s Hco)].
      intros Hc. destruct (co_cache s Hco _ _ Hc) as (it' & Hl' & _ & Hpos).
      congruence.
    + intros Hz. by apply (co_dead s Hco l it).
Qed.

(** X6.  Once every handle has been released, nothing is left: in a reachable
    state in which all handles are released the cache is empty, no mesh is
    live, and every cooked mesh has been released natively once. *)
Theorem all_released_all_destroyed (s : State) :
  reachable s →
  (∀ h this, handles s !! h = Some this → released this = true) →
  cache s = ∅ ∧
  (∀ pm b, pmeshes s !! pm = Some b → b = false) ∧
  (∀ pm, is_Some (pmeshes s !! pm) → pm ≠ null_mesh →
         native_releases pm (log s) = 1).
Proof.
  intros Hreach Hall. pose proof (reachable_consistent s Hreach) as Hco.
  assert (Hzero : ∀ l it, items s !! l = Some it → item_refs it = 0%Z).
  { intros l it Hl. rewrite (co_refs s Hco _ _ Hl), holders_zero; [done|].
    intros h this Hh Hr. rewrite (Hall h this Hh) in Hr. done. }
  split; [|split].
  - apply map_empty. intros id. destruct (cache s !! id) as [l|] eqn:Hid; [|done].
    destruct (co_cache s Hco id l Hid) as (it & Hl & _ & Hpos).
    rewrite (Hzero _ _ Hl) in Hpos. lia.
  - intros pm b Hpm. destruct (decide (pm = null_mesh)) as [->|Hnn].
    + destruct b; [|done]. by destruct (co_null s Hco).
    + destruct (co_owned s Hco pm) as (l & it & Hl & <-); [by eexists|done|].
      rewrite (co_dead s Hco _ _ Hl (Hzero _ _ Hl)) in Hpm. by injection Hpm as <-.
  - intros pm Hpm Hnn. destruct (co_owned s Hco pm Hpm Hnn) as (l & it & Hl & <-).
    by rewrite (co_releases s Hco _ _ Hl Hnn), (Hzero _ _ Hl).
Qed.

End Invariants.

(** ** Acquire and release *)

Section RoundTrip.
Context `{Externals}.

Lemma dropped_retained it : dropped (retained it) = it.
Proof. destruct it. unfold dropped, retained. simpl. f_equal. lia. Qed.

(** X7.  Acquiring a handle and releasing it again is neutral.  In a reachable
    state, after a call that returned a handle, [release()] on this handle
    returns and leaves the cache as it was before the call: on a hit the
    entry keeps its count, on a miss the new entry is deleted again and its
    mesh released.  Every item, every handle and every cooked mesh that
    existed is as before, no other mesh is live, and no block of foreign
    memory is left. *)
Theorem acquire_then_release_is_neutral (world : World) (geometry : loc)
    (convex : bool) (s s1 : State) (h : loc) :
  reachable s →
  geometryToPxMesh world geometry convex s = (Normal (Some h), s1) →
  ∃ s2, release h s1 = (Normal tt, s2) ∧
    cache s2 = cache s ∧
    (∀ l it, items s !! l = Some it → items s2 !! l = Some it) ∧
    (∀ pm b, pmeshes s !! pm = Some b → pmeshes s2 !! pm = Some b) ∧
    (∀ pm, pmeshes s2 !! pm = Some true → pmeshes s !! pm = Some true) ∧
    (∀ h' this, handles s !! h' = Some this → handles s2 !! h' = Some this) ∧
    allocated s2 = allocated s.
Proof.
  intros Hreach Hrun.
  pose proof (reachable_consistent s Hreach) as Hco.
  pose proof (returning_call_frees_everything world geometry convex s _ s1 Hrun)
    as Halloc.
  destruct (acquire_outcome world geometry convex s _ s1 Hrun) as [_ Hmeshes].
  destruct (acquire_returns world geometry convex s h s1 Hrun)
    as (G & l & it1 & HG & _ & Hc1 & Hl1 & Hnew & Hh1 & Hcase).
  assert (Hh : handles s1 !! h = Some (open_handle l it1))
    by (rewrite Hh1; apply lookup_insert_eq).
  exists (after_release h (open_handle l it1) it1 s1).
  split; [by apply release_first|].
  assert (Hkeep : ∀ h' this, handles s !! h' = Some this →
            <[h := closed_handle (open_handle l it1)]> (handles s1) !! h' = Some this).
  { intros h' this Hh'. rewrite Hh1.
    rewrite !lookup_insert_ne by congruence. done. }
  destruct Hcase as [(Hhit & (it & Hit & ->) & Hi1 & Hcache & Hcooks & Hpm)
                    |(Hmiss & Hfresh & Hi1 & Hcache & Hit1 & Hcooked)].
  - destruct (co_cache s Hco _ _ Hhit) as (it' & Hit' & _ & Hpos).
    assert (it' = it) as -> by congruence.
    unfold after_release. simpl item_refs.
    rewrite (proj2 (Z.eqb_neq _ _)) by lia. simpl.
    split; [done|]. split; [|split; [|split; [|split; [done|done]]]].
    + intros l0 it0 Hl0. rewrite Hi1, dropped_retained.
      destruct (decide (l0 = l)) as [->|Hne].
      * rewrite lookup_insert_eq. congruence.
      * by rewrite !lookup_insert_ne.
    + intros pm b. by rewrite Hpm.
    + intros pm. by rewrite Hpm.
  - assert (Hpm1 :
      (pmeshes s !! item_pmesh it1 = None ∧
       pmeshes s1 = <[item_pmesh it1 := true]> (pmeshes s)) ∨
      (item_pmesh it1 = null_mesh ∧ pmeshes s1 = pmeshes s)).
    { destruct Hmeshes as [(Hsame & _)|(o & Ho & Hpm & _)].
      { destruct Hcooked as [(Hcooks & _)|(Hcooks & _)];
          rewrite Hsame in Hcooks; by destruct (not_cons_self _ _ Hcooks). }
      destruct Hcooked as [(Hcooks & Hpmn & _)|(Hcooks & Hnull)];
        rewrite Ho in Hcooks; injection Hcooks as ->; [by left|by right]. }
    unfold after_release. rewrite Hit1. simpl.
    split; [|split; [|split; [|split; [|split; [done|done]]]]].
    + rewrite Hcache, delete_insert_eq. by apply delete_id.
    + intros l0 it0 Hl0. rewrite Hi1.
      rewrite !lookup_insert_ne by congruence. done.
    + intros pm b Hb. destruct Hpm1 as [[Hpmn ->]|[Hnull ->]].
      * rewrite !lookup_insert_ne by congruence. done.
      * destruct (decide (pm = item_pmesh it1)) as [->|Hne].
        -- rewrite lookup_insert_eq. rewrite Hnull in Hb.
           destruct b; [|done]. by destruct (co_null s Hco).
        -- by rewrite lookup_insert_ne.
    + intros pm. destruct (decide (pm = item_pmesh it1)) as [->|Hne].
      * by rewrite lookup_insert_eq.
      * destruct Hpm1 as [[_ ->]|[_ ->]]; by rewrite ?lookup_insert_ne.
Qed.

End RoundTrip.

(** ** Cache hits and the caller's geometry *)

Section Hits.
Context `{Externals}.

(** X8.  A cache hit reads the geometry's [uuid] and bounding box and nothing
    else.  After a call that returned a handle, whatever the caller does to
    the geometry's position attribute, its index buffer and the typed arrays,
    as long as [uuid] and [boundingBox] stay, the next call for the geometry
    and mode, also with another world, returns a new handle on the same item
    with the same mesh: it calls no native routine, allocates no foreign
    memory and creates no typed array. *)
Theorem cache_hit_reads_no_vertex_data (world world' : World) (geometry : loc)
    (convex : bool) (s s1 s1' : State) (h1 : loc) (G1 G' : BufferGeometry) :
  geometryToPxMesh world geometry convex s = (Normal (Some h1), s1) →
  caller_step s1 s1' →
  geometries s1 !! geometry = Some G1 →
  geometries s1' !! geometry = Some G' →
  uuid G' = uuid G1 → boundingBox G' = boundingBox G1 →
  ∃ h2 s2 this1 this2,
    geometryToPxMesh world' geometry convex s1' = (Normal (Some h2), s2) ∧
    h2 ≠ h1 ∧
    handles s2 !! h1 = Some this1 ∧ handles s2 !! h2 = Some this2 ∧
    released this1 = false ∧ released this2 = false ∧
    item this2 = item this1 ∧ value this2 = value this1 ∧
    native_cooks (log s2) = native_cooks (log s1') ∧
    mallocs (log s2) = mallocs (log s1') ∧
    allocated s2 = allocated s1' ∧
    f32arrays s2 = f32arrays s1' ∧ indexarrays s2 = indexarrays s1'.
Proof.
  intros Hrun (Hc & Hi & Hh & _) HG1 HG' Huuid Hbox.
  destruct (acquire_returns world geometry convex s h1 s1 Hrun)
    as (G & l & it1 & HG & HG1' & Hc1 & Hl1 & Hnew & Hh1 & _).
  rewrite HG1 in HG1'. injection HG1' as ->.
  assert (Hid : cache_id_in s1' G' convex = cache_id_in s G convex).
  { unfold cache_id_in, bakeScale_in, current_boundingBox at 1.
    rewrite Hbox, Huuid. done. }
  assert (Hc' : cache s1' !! cache_id_in s1' G' convex = Some l)
    by (by rewrite Hid, Hc).
  assert (Hl' : items s1' !! l = Some it1) by (by rewrite Hi).
  destruct (acquire_hit world' geometry convex s1' G' l it1 HG' Hc' Hl')
    as (s0 & Hstep & Hhit).
  exists (fresh (dom (handles s1'))), (with_handle l it1 s0),
    (open_handle l it1), (open_handle l it1).
  split; [done|].
  assert (Hfresh : handles s1' !! fresh (dom (handles s1')) = None)
    by apply fresh_handle.
  assert (Hh1' : handles s1' !! h1 = Some (open_handle l it1)).
  { rewrite Hh, Hh1. apply lookup_insert_eq. }
  split; [congruence|].
  split.
  { simpl. rewrite (pre_handles _ _ _ _ Hstep).
    rewrite lookup_insert_ne; [done|congruence]. }
  split; [simpl; rewrite (pre_handles _ _ _ _ Hstep); apply lookup_insert_eq|].
  split; [done|]. split; [done|]. split; [done|]. split; [done|].
  split; [exact (pre_cooks _ _ _ _ Hstep)|].
  split; [exact (pre_mallocs _ _ _ _ Hstep)|].
  split; [exact (pre_allocated _ _ _ _ Hstep)|].
  split; [exact (pre_f32arrays _ _ _ _ Hstep)|exact (pre_indexarrays _ _ _ _ Hstep)].
Qed.

(** X9.  Whatever its result, a call of [geometryToPxMesh] changes the
    caller's geometries in one way only: the geometry it is given gets the
    bounding box the call worked with stored in [boundingBox]; its [uuid],
    position attribute and index stay, and so does every other geometry.  A
    geometry that has a bounding box is not changed at all. *)
Theorem only_the_bounding_box_is_stored (world : World) (geometry : loc)
    (convex : bool) (s s' : State) (r : Completion (option loc))
    (G : BufferGeometry) :
  geometryToPxMesh world geometry convex s = (r, s') →
  geometries s !! geometry = Some G →
  geometries s' = <[geometry := boxed G (current_boundingBox s G)]> (geometries s) ∧
  (is_Some (boundingBox G) → geometries s' = geometries s).
Proof.
  intros Hrun HG.
  assert (Hgeo : geometries s'
                 = <[geometry := boxed G (current_boundingBox s G)]> (geometries s)).
  { destruct (cache s !! cache_id_in s G convex) as [l|] eqn:Hc.
    - destruct (acquire_prelude world geometry convex s G HG) as (s0 & Hstep & Hpre).
      rewrite Hpre, Hc in Hrun.
      destruct (items s0 !! l) as [it|] eqn:Hl.
      + rewrite (bind_normal _ _ _ _ _ (new_PMeshHandle_run l it s0 Hl)) in Hrun.
        injection Hrun as <- <-. exact (pre_geometries _ _ _ _ Hstep).
      + rewrite (bind_throw _ _ _ _ _ (new_PMeshHandle_missing l s0 Hl)) in Hrun.
        injection Hrun as <- <-. exact (pre_geometries _ _ _ _ Hstep).
    - destruct (acquire_miss world geometry convex s G HG Hc)
        as (s0 & r' & sc & Hstep & Hcook & Hmiss).
      pose proof (cook_frame _ _ _ _ _ _ _ Hcook) as Hframe.
      rewrite Hmiss in Hrun.
      destruct r' as [[pm|]|e]; injection Hrun as <- <-; simpl;
        by rewrite (cf_geometries _ _ Hframe), (pre_geometries _ _ _ _ Hstep). }
  split; [done|].
  intros [bbox Hb]. rewrite Hgeo. unfold current_boundingBox. rewrite Hb.
  rewrite (boxed_id _ _ Hb). by apply insert_id.
Qed.

End Hits.

(** ** What a cooking call sends, logs and leaves allocated *)

Section Marshalling.
Context `{Externals}.

Lemma call_report_from convex blocks others o e s0 s s' :
  log s = log s0 → call_report convex blocks others o e s s' →
  call_report convex blocks others o e s0 s'.
Proof. intros Hlog []. split; by rewrite <- Hlog. Qed.

Lemma cooks_cooks_points convex params points pts indices indexPtr o e :
  cooks convex params points pts indices indexPtr o e →
  cooks_points convex params points pts o e.
Proof.
  unfold cooks, cooks_points. destruct convex; [done|].
  intros (a & _ & ->). by eexists _, _, _.
Qed.

Lemma length_scaled_by bakeScale xs : length (scaled_by bakeScale xs) = length xs.
Proof. unfold scaled_by. destruct (Number.strict_eq _ _); [done|apply length_map]. Qed.

Lemma positions_values G bakeScale s :
  has_positions s G →
  ∃ positions s1 scaledPositions s2,
    normalizePosition G s = (Normal positions, s1) ∧
    scalePositions positions bakeScale s1 = (Normal scaledPositions, s2) ∧
    f32arrays s2 !! positions = Some (positions_in s G) ∧
    f32arrays s2 !! scaledPositions = Some (scaled_by bakeScale (positions_in s G)) ∧
    indexarrays s2 = indexarrays s ∧
    arrays_step s s2.
Proof.
  intros [xs Hxs]. unfold positions_in, scaled_by. rewrite Hxs. simpl.
  assert (Hnorm : ∃ positions s1,
    normalizePosition G s = (Normal positions, s1) ∧
    f32arrays s1 !! positions
      = Some (if isInterleavedBufferAttribute (position G)
              then deinterleaveAttribute (position G) xs else xs) ∧
    indexarrays s1 = indexarrays s ∧ arrays_step s s1).
  { destruct (isInterleavedBufferAttribute (position G)) eqn:Hi.
    - destruct (normalizePosition_interleaved G s xs Hi Hxs)
        as (p & s1 & Hrun & _ & Hp & Hidx & Hstep).
      by exists p, s1.
    - exists (array (position G)), s.
      split; [by apply normalizePosition_plain|].
      split; [done|]. split; [done|]. apply arrays_step_refl. }
  destruct Hnorm as (p & s1 & Hrun1 & Hp & Hidx1 & Hstep1).
  set (original := if isInterleavedBufferAttribute (position G)
                   then deinterleaveAttribute (position G) xs else xs) in *.
  destruct (Number.strict_eq bakeScale 1) eqn:Hb.
  - exists p, s1, p, s1.
    split; [done|]. split; [by apply (scalePositions_pass _ _ _ _ Hp)|done].
  - destruct (scalePositions_scale p bakeScale s1 original Hp Hb)
      as (sp & s2 & Hrun2 & Hfresh & Hs2 & Hidx2 & Hstep2).
    exists p, s1, sp, s2.
    split; [done|]. split; [done|]. split; [by apply (as_f32arrays _ _ Hstep2)|].
    split; [rewrite Hs2; apply lookup_insert_eq|].
    split; [congruence|]. by apply arrays_step_trans with s1.
Qed.

Lemma cookConvex_calls params ptr n s :
  ∃ r s' o, cookConvex params ptr n s = (r, s') ∧
    call_report true 0 0 o
      (CreateConvexMesh params (PxConvexMeshDesc (points_desc n ptr) true)
         (HEAP s !! ptr) o) s s' ∧
    branch_result true o r.
Proof.
  unfold cookConvex, PHYSX_CreateConvexMesh, finish_cook, bind, modify, ret.
  simpl. destruct (cook_convex _ _ _ _); simpl;
    eexists _, _, _; (split; [reflexivity|]); (split; [by split|]);
    simpl; eauto.
Qed.

(** The native call of the triangle branch is given the array handed on by
    normalisation: its values, with the stride and the flag of its width, in
    the block allocated for them. *)
Lemma cookIndexed_calls params points indices arr s d :
  indexarrays s !! indices = Some arr →
  is_Some (allocated s !! data points) →
  HEAP s !! data points = Some d →
  ∃ r s' o, cookIndexed params points indices s = (r, s') ∧
    call_report false 1 0 o
      (CreateTriangleMesh params
         (PxTriangleMeshDesc points (triangles_desc arr (next_block (allocated s)))
            (index_flag arr))
         (Some d) (Some (index_data arr)) o) s s' ∧
    branch_result false o r.
Proof.
  intros Harr Hlive Hd. unfold cookIndexed.
  rewrite (bind_normal _ _ _ _ _ (load_some indexarrays _ s _ Harr)).
  assert (Hne : next_block (allocated s) ≠ data points).
  { intros Heq. rewrite <- Heq, next_block_fresh in Hlive. by destruct Hlive. }
  unfold try_catch_finally, PHYSX_CreateTriangleMesh, finish_cook,
    _webidl_malloc, _webidl_free, HEAPU16_set, HEAPU32_set, bind, modify, ret,
    triangles_desc, index_flag, index_data.
  destruct arr as [elems|elems|elems]; simpl;
    rewrite ?next_block_shift1, ?next_block_shift2, lookup_insert_eq,
      lookup_insert_ne, Hd by done;
    destruct (cook_triangles _ _ _ _ _); simpl;
    eexists _, _, _; (split; [reflexivity|]); (split; [by split|]);
    simpl; eauto.
Qed.

Lemma cookTriangles_calls params G ptr n s d a :
  indices_in s G = Some a →
  is_Some (allocated s !! ptr) → HEAP s !! ptr = Some d →
  ∃ r s' o, cookTriangles params G ptr n s = (r, s') ∧
    call_report false 1 0 o
      (CreateTriangleMesh params
         (PxTriangleMeshDesc (points_desc n ptr)
            (triangles_desc (normalized a) (next_block (allocated s)))
            (index_flag (normalized a)))
         (Some d) (Some (index_data (normalized a))) o) s s' ∧
    branch_result false o r.
Proof.
  intros Hind Hlive Hd. unfold indices_in in Hind.
  destruct (index G) as [il|] eqn:Hil; [|done]. simpl in Hind.
  unfold cookTriangles. rewrite bind_modify, Hil. simpl deref. rewrite bind_ret.
  set (s0 := emit (new_desc false) s).
  destruct (normalizeIndices_ok il s0 a Hind)
    as (ind & s1 & arr & Hrun & Harr & -> & Hstep).
  rewrite (bind_normal _ _ _ _ _ Hrun).
  destruct (cookIndexed_calls params (points_desc n ptr) ind _ s1 d Harr)
    as (r & s' & o & Hrun' & Hrep & Hres).
  { by rewrite (as_allocated _ _ Hstep). }
  { by rewrite (as_HEAP _ _ Hstep). }
  exists r, s', o. split; [done|]. split; [|done].
  rewrite (as_allocated _ _ Hstep) in Hrep.
  apply (call_report_from _ _ _ _ _ s0) in Hrep; [|exact (as_log _ _ Hstep)].
  destruct Hrep. by split.
Qed.

(** The marshalling code makes one native call, on the block that holds the
    positions it was given and, in triangle mode, on the block that holds the
    normalised indices of the geometry. *)
Lemma marshal_calls world G convex scaled n s :
  has_indices s G convex →
  ∃ r s' o e, marshal world G convex scaled n s = (r, s') ∧
    call_report convex (blocks_of convex) 0 o e s s' ∧
    cooks convex (cookingParams world)
      (points_desc n (next_block (allocated s))) (F32 scaled) (indices_in s G)
      (next_block (<[next_block (allocated s) := (Z.of_nat (length scaled) * 4)%Z]>
                     (allocated s))) o e ∧
    bridge_result convex o r.
Proof.
  intros Hind. unfold marshal.
  set (bytes := (Z.of_nat (length scaled) * 4)%Z).
  set (ptr := next_block (allocated s)).
  set (s1 := set_HEAP <[Z.shiftl (Z.shiftr ptr 2) 2 := F32 scaled]>
               (emit (webidl_malloc bytes ptr)
                  (set_allocated <[ptr := bytes]> s))).
  assert (Hstart : ∀ k : Z → M (option nat),
    bind (_webidl_malloc bytes)
      (fun p => bind (HEAPF32_set scaled (Z.shiftr p 2)) (fun _ => k p)) s
    = k ptr s1) by done.
  rewrite Hstart. clear Hstart.
  assert (Hheap : HEAP s1 !! ptr = Some (F32 scaled)).
  { subst s1 ptr. simpl. rewrite next_block_shift2. apply lookup_insert_eq. }
  assert (Hlive : is_Some (allocated s1 !! ptr)).
  { subst s1. simpl. rewrite lookup_insert_eq. by eexists. }
  assert (Hbranch : ∃ rb sb o e,
    (if convex then cookConvex (cookingParams world) ptr n
     else cookTriangles (cookingParams world) G ptr n) s1 = (rb, sb) ∧
    call_report convex (blocks_of convex) 0 o e s sb ∧
    cooks convex (cookingParams world) (points_desc n ptr) (F32 scaled)
      (indices_in s G) (next_block (<[ptr := bytes]> (allocated s))) o e ∧
    branch_result convex o rb).
  { destruct convex.
    - destruct (cookConvex_calls (cookingParams world) ptr n s1)
        as (rb & sb & o & Hrun & Hrep & Hres).
      rewrite Hheap in Hrep. eexists rb, sb, o, _. split; [done|].
      split; [|done]. destruct Hrep. by split.
    - destruct (Hind eq_refl) as (il & Hil & [a Ha]).
      assert (Hin : indices_in s G = Some a).
      { unfold indices_in. by rewrite Hil. }
      destruct (cookTriangles_calls (cookingParams world) G ptr n s1 (F32 scaled) a)
        as (rb & sb & o & Hrun & Hrep & Hres); [done..|].
      eexists rb, sb, o, _. split; [done|].
      split; [destruct Hrep; split; try done; simpl in *; lia|].
      split; [|done]. by exists a. }
  destruct Hbranch as (rb & sb & o & e & Hrun & Hrep & Hev & Hres).
  destruct rb as [[desc pmesh]|err].
  - rewrite (bind_normal _ _ _ _ _ Hrun).
    eexists _, _, o, e. split; [reflexivity|].
    split; [destruct Hrep; by split|]. split; [done|].
    by apply (bridge_of_branch _ _ _ (desc, pmesh) Hres).
  - rewrite (bind_throw _ _ _ _ _ Hrun).
    exists (Throw err), sb, o, e. split; [done|]. split; [done|]. split; [done|].
    destruct o as [pm| |]; simpl in *.
    + by destruct Hres as [desc ?].
    + by destruct Hres as [desc ?].
    + destruct convex; simpl in *; [by injection Hres as ->|].
      by destruct Hres as [desc ?].
Qed.

Lemma cook_calls world G convex bakeScale s :
  has_positions s G → has_indices s G convex →
  ∃ r s' o e, cook world G convex bakeScale s = (r, s') ∧
    call_report convex (blocks_of convex) 0 o e s s' ∧
    cooks convex (cookingParams world)
      (points_desc (length (positions_in s G)) (next_block (allocated s)))
      (F32 (scaled_by bakeScale (positions_in s G))) (indices_in s G)
      (next_block
         (<[next_block (allocated s) :=
              (Z.of_nat (length (positions_in s G)) * 4)%Z]> (allocated s))) o e ∧
    bridge_result convex o r.
Proof.
  intros Hpos Hind. unfold cook.
  destruct (positions_values G bakeScale s Hpos)
    as (p & s1 & sp & s2 & Hrun1 & Hrun2 & Hp & Hsp & Hidx & Hstep).
  rewrite (bind_normal _ _ _ _ _ Hrun1), (bind_normal _ _ _ _ _ Hrun2).
  rewrite (bind_normal _ _ _ _ _ (load_some f32arrays _ s2 _ Hsp)).
  rewrite (bind_normal _ _ _ _ _ (load_some f32arrays _ s2 _ Hp)).
  assert (Hind2 : has_indices s2 G convex).
  { unfold has_indices. by rewrite Hidx. }
  destruct (marshal_calls world G convex (scaled_by bakeScale (positions_in s G))
              (length (positions_in s G)) s2 Hind2)
    as (r & s' & o & e & Hrun & Hrep & Hev & Hres).
  exists r, s', o, e. split; [done|].
  assert (Hin : indices_in s2 G = indices_in s G).
  { unfold indices_in. by rewrite Hidx. }
  rewrite (as_allocated _ _ Hstep), length_scaled_by, Hin in Hev.
  split; [|done].
  by apply (call_report_from _ _ _ _ _ s) in Hrep; [|exact (as_log _ _ Hstep)].
Qed.

(** Computing the bake scale logs the error reports of a bounding box that is
    computed, then the warning when the bake scale is not 1, and nothing
    else. *)
Lemma computeBakeScale_log s g G :
  geometries s !! g = Some G →
  ∃ s1, computeBakeScale g s = (Normal (bakeScale_in s G), s1) ∧
    log s1 = (if Number.strict_ne (bakeScale_in s G) 1
              then [console_warn (uuid G) (bakeScale_in s G)] else [])
             ++ replicate (box_errors s G) console_error ++ log s.
Proof.
  intros HG. unfold computeBakeScale.
  destruct (get_boundingBox_run s g G HG) as (s0 & Hrun & Hstep & Hlog).
  rewrite (bind_normal _ _ _ _ _ Hrun).
  assert (HG0 : geometries s0 !! g = Some (boxed G (current_boundingBox s G))).
  { rewrite (pre_geometries _ _ _ _ Hstep). apply lookup_insert_eq. }
  rewrite (bind_normal _ _ _ _ _ (load_some geometries g s0 _ HG0)).
  fold (bakeScale_in s G).
  destruct (Number.strict_ne (bakeScale_in s G) 1);
    eexists; (split; [reflexivity|]); simpl; by rewrite Hlog.
Qed.

(** A call that reaches the native routine: the geometry has no cache entry
    and has the arrays its mode reads.  It makes one native call, on the
    block that holds the scaled positions. *)
Lemma acquire_calls world g convex s G :
  geometries s !! g = Some G →
  cache s !! cache_id_in s G convex = None →
  has_positions s G → has_indices s G convex →
  ∃ r s' o e,
    geometryToPxMesh world g convex s = (r, s') ∧
    call_report convex (blocks_of convex) (box_errors s G) o e s s' ∧
    cooks convex (cookingParams world)
      (points_desc (length (positions_in s G)) (next_block (allocated s)))
      (F32 (scaled_by (bakeScale_in s G) (positions_in s G))) (indices_in s G)
      (next_block
         (<[next_block (allocated s) :=
              (Z.of_nat (length (positions_in s G)) * 4)%Z]> (allocated s))) o e ∧
    acquire_result convex o r.
Proof.
  intros HG Hc Hpos Hind.
  destruct (computeBakeScale_run s g G HG) as (s0 & Hrun & Hstep).
  destruct (computeBakeScale_log s g G HG) as (s0' & Hrun' & Hlog).
  rewrite Hrun in Hrun'. injection Hrun' as <-.
  assert (Hpos0 : has_positions s0 (boxed G (current_boundingBox s G))).
  { unfold has_positions. simpl. by rewrite (pre_f32arrays _ _ _ _ Hstep). }
  assert (Hind0 : has_indices s0 (boxed G (current_boundingBox s G)) convex).
  { unfold has_indices. simpl. by rewrite (pre_indexarrays _ _ _ _ Hstep). }
  destruct (cook_calls world (boxed G (current_boundingBox s G)) convex
              (bakeScale_in s G) s0 Hpos0 Hind0)
    as (r & sc & o & e & Hcook & Hrep & Hev & Hres).
  assert (Hsame : positions_in s0 (boxed G (current_boundingBox s G))
                  = positions_in s G).
  { unfold positions_in. simpl. by rewrite (pre_f32arrays _ _ _ _ Hstep). }
  assert (Hin : indices_in s0 (boxed G (current_boundingBox s G)) = indices_in s G).
  { unfold indices_in. simpl. by rewrite (pre_indexarrays _ _ _ _ Hstep). }
  rewrite Hsame, Hin, (pre_allocated _ _ _ _ Hstep) in Hev.
  assert (Hrep0 : call_report convex (blocks_of convex) (box_errors s G) o e s sc).
  { destruct Hrep as [Hcalls Hcooks Herrors Hmallocs]. rewrite Hlog in *.
    destruct (Number.strict_ne _ _); simpl in *;
      rewrite ?native_calls_errors, ?native_cooks_errors, ?errors_errors,
        ?mallocs_errors in *;
      (split; [done|done| |done]); lia. }
  unfold geometryToPxMesh.
  rewrite (bind_normal _ _ _ _ _ Hrun).
  assert (HG0 : geometries s0 !! g = Some (boxed G (current_boundingBox s G))).
  { rewrite (pre_geometries _ _ _ _ Hstep). apply lookup_insert_eq. }
  rewrite (bind_normal _ _ _ _ _ (load_some geometries g s0 _ HG0)).
  rewrite bind_gets, (pre_cache _ _ _ _ Hstep).
  change (cache_id (uuid (boxed G (current_boundingBox s G))) convex
            (bakeScale_in s G)) with (cache_id_in s G convex).
  rewrite Hc.
  destruct r as [[pm|]|err].
  - rewrite (bind_normal _ _ _ _ _ Hcook).
    set (id := cache_id_in s G convex). set (bs := bakeScale_in s G).
    set (l := fresh (dom (items sc))).
    set (s2 := set_cache <[id := l]> (set_items <[l := fresh_item id pm bs]> sc)).
    assert (Hnew : ∀ k : loc → M (option loc),
      bind (new_item id pm bs)
        (fun l' => bind (modify (set_cache <[id := l']>)) (fun _ => k l')) sc
      = k l s2) by done.
    rewrite Hnew.
    assert (Hl2 : items s2 !! l = Some (fresh_item id pm bs))
      by apply lookup_insert_eq.
    rewrite (bind_normal _ _ _ _ _ (new_PMeshHandle_run l _ s2 Hl2)).
    eexists _, _, o, e. split; [reflexivity|].
    split; [destruct Hrep0; by split|]. split; [done|].
    destruct o as [pm'| |]; simpl in *; [by eexists|by eexists|by destruct convex].
  - rewrite (bind_normal _ _ _ _ _ Hcook).
    eexists _, _, o, e. split; [reflexivity|]. split; [done|]. split; [done|].
    destruct o as [pm'| |]; simpl in *; [done|done|by destruct convex].
  - rewrite (bind_throw _ _ _ _ _ Hcook).
    eexists _, _, o, e. split; [reflexivity|]. split; [done|]. split; [done|].
    destruct o as [pm'| |]; simpl in *; [done|done|by destruct convex].
Qed.

(** C9.  An 8 bit index buffer is copied into a new 16 bit buffer of the same
    length with the same values, the source buffer staying as it is; a 16 bit
    or 32 bit index buffer is handed on itself, without any change of state.
    A call of [geometryToPxMesh] in triangle mode that reaches the native
    routine gives it exactly the values of the geometry's index buffer, as 16
    bit indices (stride 6, the 16 bit flag) for an 8 or 16 bit buffer and as
    32 bit indices (stride 12, no flag) for a 32 bit buffer, in the block
    allocated for them after the block of the positions; the geometry's index
    buffer is as before after the call. *)
Theorem index_widening (world : World) (s : State) (geometry : loc)
    (G : BufferGeometry) (source : loc) (a : IndexArray) :
  geometries s !! geometry = Some G →
  cache s !! cache_id_in s G false = None →
  has_positions s G →
  index G = Some source → indexarrays s !! source = Some a →
  (∀ elems, a = Uint8Array elems → Forall (fun v => 0 ≤ v < 256)%Z elems) →
  (∃ indices s1,
     normalizeIndices source s = (Normal indices, s1) ∧
     indexarrays s1 !! source = Some a ∧
     match a with
     | Uint8Array elems =>
         indexarrays s !! indices = None ∧
         indexarrays s1 !! indices = Some (Uint16Array elems)
     | _ => indices = source ∧ s1 = s
     end) ∧
  ∃ r s' o,
    geometryToPxMesh world geometry false s = (r, s') ∧
    indexarrays s' !! source = Some a ∧
    native_calls (log s') =
      CreateTriangleMesh (cookingParams world)
        (PxTriangleMeshDesc
           (points_desc (length (positions_in s G)) (next_block (allocated s)))
           {| count := Z.of_nat (length (index_elems a)) / 3;
              data_stride := match a with Uint32Array _ => 12 | _ => 6 end;
              data :=
                next_block
                  (<[next_block (allocated s) :=
                       (Z.of_nat (length (positions_in s G)) * 4)%Z]>
                     (allocated s)) |}
           (match a with Uint32Array _ => false | _ => true end))
        (Some (F32 (scaled_by (bakeScale_in s G) (positions_in s G))))
        (Some (match a with
               | Uint8Array elems | Uint16Array elems => U16 elems
               | Uint32Array elems => U32 elems
               end))
        o
      :: native_calls (log s) ∧
    acquire_result false o r.
Proof.
  intros HG Hc Hpos Hil Ha Hrange. split.
  - destruct a as [elems|elems|elems].
    + destruct (normalizeIndices_widen source s elems Ha)
        as (ind & s1 & Hrun & Hfresh & Hind & _ & Hstep).
      rewrite (map_to_uint16_small elems (Hrange elems eq_refl)) in Hind.
      exists ind, s1. split; [done|].
      split; [by apply (as_indexarrays _ _ Hstep)|]. split; [done|].
      rewrite Hind. apply lookup_insert_eq.
    + exists source, s. by split; [apply (normalizeIndices_adequate _ _ _ Ha)|].
    + exists source, s. by split; [apply (normalizeIndices_adequate _ _ _ Ha)|].
  - assert (Hind : has_indices s G false).
    { intros _. exists source. split; [done|]. by eexists. }
    destruct (acquire_calls world geometry false s G HG Hc Hpos Hind)
      as (r & s' & o & e & Hrun & Hrep & Hev & Hres).
    exists r, s', o. split; [done|].
    split; [by apply (proj2 (acquire_keeps_arrays _ _ _ _ _ _ Hrun))|].
    split; [|done].
    rewrite (rep_calls _ _ _ _ _ _ _ Hrep). f_equal.
    destruct Hev as (a' & Hin & ->).
    unfold indices_in in Hin. rewrite Hil in Hin. simpl in Hin.
    rewrite Ha in Hin. injection Hin as <-.
    destruct a as [elems|elems|elems]; [|done|done].
    unfold normalized, triangles_desc, index_flag, index_data. simpl.
    by rewrite (map_to_uint16_small elems (Hrange elems eq_refl)).
Qed.

(** A native call that throws leaves no trace in the cache: the next call for
    the same geometry and mode calls the native routine again. *)
Lemma uncooked_is_retried world g convex s r s1 :
  geometryToPxMesh world g convex s = (r, s1) →
  native_cooks (log s1) = Threw :: native_cooks (log s) →
  cache s1 = cache s ∧ items s1 = items s ∧
  ∃ r2 s2 o2,
    geometryToPxMesh world g convex s1 = (r2, s2) ∧
    native_cooks (log s2) = o2 :: native_cooks (log s1).
Proof.
  intros Hrun Hcooks.
  destruct (acquire_cooked world g convex s r s1 Threw Hrun Hcooks)
    as (G & HG & Hc & Hpos & Hind).
  destruct (acquire_decided world g convex s r s1 Threw Hrun Hcooks) as [_ Hkeep].
  destruct (Hkeep eq_refl) as [Hcache Hitems].
  destruct (acquire_miss_cases world g convex s G HG Hc)
    as (r' & s1' & Hrun' & HG1 & [Hf32 Hidx] & _).
  rewrite Hrun in Hrun'. injection Hrun' as <- <-.
  split; [done|]. split; [done|].
  assert (Hc1 : cache s1 !! cache_id_in s1 (boxed G (current_boundingBox s G)) convex
                = None).
  { by rewrite Hcache, cache_id_in_boxed. }
  destruct (acquire_miss_cases world g convex s1 _ HG1 Hc1)
    as (r2 & s2 & Hrun2 & _ & _ & _ & _ & Hcases2).
  destruct Hcases2 as [(Hnone & _)|(_ & _ & o2 & Hcooks2 & _)].
  - destruct Hnone. split.
    + by apply (has_positions_kept s s1 G Hf32).
    + by apply (has_indices_kept s s1 G convex Hidx).
  - by exists r2, s2, o2.
Qed.

(** X10.  A call for a geometry that has no cache entry and has the arrays its
    mode reads makes exactly one native cooking call.  The call is given the
    world's cooking parameters and a points descriptor with a third of the
    number of positions as count, stride 12 and the address of the block
    allocated for the positions, and this block holds the geometry's
    positions, de-interleaved when the attribute is interleaved, as they are
    when the bake scale is 1 and otherwise multiplied by the bake scale and
    rounded to binary32.  The outcome of this call decides the result. *)
Theorem native_routine_gets_the_scaled_positions (world : World) (geometry : loc)
    (convex : bool) (s : State) (G : BufferGeometry) :
  geometries s !! geometry = Some G →
  cache s !! cache_id_in s G convex = None →
  has_positions s G → has_indices s G convex →
  ∃ r s' o e,
    geometryToPxMesh world geometry convex s = (r, s') ∧
    native_calls (log s') = e :: native_calls (log s) ∧
    cooks_points convex (cookingParams world)
      (points_desc (length (positions_in s G)) (next_block (allocated s)))
      (F32 (scaled_by (bakeScale_in s G) (positions_in s G))) o e ∧
    acquire_result convex o r.
Proof.
  intros HG Hc Hpos Hind.
  destruct (acquire_calls world geometry convex s G HG Hc Hpos Hind)
    as (r & s' & o & e & Hrun & Hrep & Hev & Hres).
  exists r, s', o, e. split; [done|].
  split; [exact (rep_calls _ _ _ _ _ _ _ Hrep)|]. split; [|done].
  exact (cooks_cooks_points _ _ _ _ _ _ _ _ Hev).
Qed.

(** X11.  A call that returns, a handle or [null], leaves the live blocks of
    foreign memory as it found them.  On a cache hit it allocates nothing and
    calls no native routine; otherwise it has made one native call and
    allocated one block in convex mode and two in triangle mode, all of them
    freed again. *)
Theorem returning_call_frees_its_blocks (world : World) (geometry : loc)
    (convex : bool) (s s' : State) (a : option loc) :
  geometryToPxMesh world geometry convex s = (Normal a, s') →
  allocated s' = allocated s ∧
  ((native_cooks (log s') = native_cooks (log s) ∧
    mallocs (log s') = mallocs (log s))
   ∨
   (∃ o, native_cooks (log s') = o :: native_cooks (log s) ∧
         length (mallocs (log s')) = blocks_of convex + length (mallocs (log s)))).
Proof.
  intros Hrun.
  split; [by apply (returning_call_frees_everything world geometry convex s a s')|].
  destruct (geometries s !! geometry) as [G|] eqn:HG.
  2:{ by rewrite (acquire_unknown world geometry convex s HG) in Hrun. }
  destruct (cache s !! cache_id_in s G convex) as [l|] eqn:Hc.
  - left.
    destruct (acquire_prelude world geometry convex s G HG) as (s0 & Hstep & Hpre).
    rewrite Hpre, Hc in Hrun.
    destruct (items s0 !! l) as [it|] eqn:Hl.
    + rewrite (bind_normal _ _ _ _ _ (new_PMeshHandle_run l it s0 Hl)) in Hrun.
      injection Hrun as <- <-. simpl.
      by rewrite (pre_cooks _ _ _ _ Hstep), (pre_mallocs _ _ _ _ Hstep).
    + by rewrite (bind_throw _ _ _ _ _ (new_PMeshHandle_missing l s0 Hl)) in Hrun.
  - right.
    destruct (acquire_miss_cases world geometry convex s G HG Hc)
      as (r' & s1' & Hrun' & _ & _ & _ & _ & Hcases).
    rewrite Hrun in Hrun'. injection Hrun' as <- <-.
    destruct Hcases as [(_ & [=] & _)|(Hpos & Hind & _)].
    destruct (acquire_calls world geometry convex s G HG Hc Hpos Hind)
      as (r & s2 & o & e & Hrun2 & Hrep & _).
    rewrite Hrun in Hrun2. injection Hrun2 as <- <-.
    exists o. split; [exact (rep_cooks _ _ _ _ _ _ _ Hrep)|].
    exact (rep_mallocs _ _ _ _ _ _ _ Hrep).
Qed.

Lemma cook_throw_leaks_exact world G convex bakeScale s e s' :
  has_positions s G →
  cook world G convex bakeScale s = (Throw e, s') →
  allocated s' =
    <[next_block (allocated s) := (Z.of_nat (length (positions_in s G)) * 4)%Z]>
      (allocated s).
Proof.
  intros Hpos. unfold cook.
  destruct (positions_values G bakeScale s Hpos)
    as (p & s1 & sp & s2 & Hrun1 & Hrun2 & Hp & Hsp & _ & Hstep).
  rewrite (bind_normal _ _ _ _ _ Hrun1), (bind_normal _ _ _ _ _ Hrun2).
  rewrite (bind_normal _ _ _ _ _ (load_some f32arrays _ s2 _ Hsp)).
  rewrite (bind_normal _ _ _ _ _ (load_some f32arrays _ s2 _ Hp)).
  intros Hrun. apply marshal_throw_leaks in Hrun.
  by rewrite (as_allocated _ _ Hstep), length_scaled_by in Hrun.
Qed.

(** X12.  A call that throws after the positions were copied leaves their
    block allocated.  For a geometry that has its positions array and no cache
    entry, a call that throws ends with exactly one more live block, of 4 bytes
    per position, at the address [_webidl_malloc] returned, and with the cache
    as it was.  In convex mode the exception is the one of the native routine;
    in triangle mode it is the [TypeError] of a missing index array, and the
    native routine was not called. *)
Theorem throwing_call_leaks_the_positions_block (world : World) (geometry : loc)
    (convex : bool) (s s' : State) (G : BufferGeometry) (e : Exn) :
  geometries s !! geometry = Some G →
  cache s !! cache_id_in s G convex = None →
  has_positions s G →
  geometryToPxMesh world geometry convex s = (Throw e, s') →
  allocated s !! next_block (allocated s) = None ∧
  allocated s' =
    <[next_block (allocated s) := (Z.of_nat (length (positions_in s G)) * 4)%Z]>
      (allocated s) ∧
  cache s' = cache s ∧
  if convex
  then e = NativeError ∧ native_cooks (log s') = Threw :: native_cooks (log s)
  else e = TypeError ∧ native_cooks (log s') = native_cooks (log s) ∧
       (∀ il, index G = Some il → indexarrays s !! il = None).
Proof.
  intros HG Hc Hpos Hrun.
  split; [apply next_block_fresh|].
  destruct (acquire_miss world geometry convex s G HG Hc)
    as (s0 & r & sc & Hstep & Hcook & Hmiss).
  split.
  { rewrite Hmiss in Hrun. destruct r as [[pm|]|e']; try done.
    injection Hrun as <- <-.
    assert (Hpos0 : has_positions s0 (boxed G (current_boundingBox s G))).
    { unfold has_positions. simpl. by rewrite (pre_f32arrays _ _ _ _ Hstep). }
    rewrite (cook_throw_leaks_exact _ _ _ _ _ _ _ Hpos0 Hcook).
    unfold positions_in. simpl.
    by rewrite (pre_f32arrays _ _ _ _ Hstep), (pre_allocated _ _ _ _ Hstep). }
  destruct (acquire_fails world geometry convex s _ s' Hrun) as (Hcache & _); [done|].
  split; [done|].
  destruct (acquire_miss_cases world geometry convex s G HG Hc)
    as (r' & s1' & Hrun' & _ & _ & _ & _ & Hcases).
  rewrite Hrun in Hrun'. injection Hrun' as <- <-.
  destruct Hcases as [(Hno & [= ->] & Hcooks & _)|(_ & _ & o & Hcooks & Hres & _)].
  - destruct convex.
    + destruct Hno. split; [done|]. by intros [=].
    + split; [done|]. split; [done|].
      intros il Hil. destruct (indexarrays s !! il) as [a|] eqn:Ha; [|done].
      destruct Hno. split; [done|]. intros _. exists il. split; [done|]. by eexists.
  - destruct o as [pm| |]; simpl in Hres; [by destruct Hres|by destruct Hres|].
    destruct convex; [|done]. by injection Hres as ->.
Qed.

(** X13.  In triangle mode an exception of the native routine does not reach
    the caller: the call returns [null]; [console.error] is called twice by
    the [catch] clause, besides the error reports of [computeBoundingBox] when
    the geometry had no bounding box yet; the cache, the items, the handles,
    the cooked meshes and the live blocks of foreign memory are as before, and
    the next call for the geometry calls the native routine again. *)
Theorem triangle_cook_exception_is_swallowed (world : World) (geometry : loc)
    (s s1 : State) (r : Completion (option loc)) :
  geometryToPxMesh world geometry false s = (r, s1) →
  native_cooks (log s1) = Threw :: native_cooks (log s) →
  r = Normal None ∧
  (∃ G, geometries s !! geometry = Some G ∧
        errors (log s1) = 2 + box_errors s G + errors (log s)) ∧
  cache s1 = cache s ∧ items s1 = items s ∧ handles s1 = handles s ∧
  pmeshes s1 = pmeshes s ∧ allocated s1 = allocated s ∧
  ∃ r2 s2 o,
    geometryToPxMesh world geometry false s1 = (r2, s2) ∧
    native_cooks (log s2) = o :: native_cooks (log s1).
Proof.
  intros Hrun Hthrew.
  destruct (acquire_cooked world geometry false s r s1 Threw Hrun Hthrew)
    as (G & HG & Hc & Hpos & Hind).
  destruct (acquire_calls world geometry false s G HG Hc Hpos Hind)
    as (r' & s' & o & e & Hrun' & Hrep & _ & Hres).
  rewrite Hrun in Hrun'. injection Hrun' as <- <-.
  pose proof (rep_cooks _ _ _ _ _ _ _ Hrep) as Hcooks.
  rewrite Hthrew in Hcooks. injection Hcooks as <-.
  simpl in Hres. subst r.
  split; [done|].
  split; [exists G; split; [done|]; exact (rep_errors _ _ _ _ _ _ _ Hrep)|].
  destruct (acquire_fails world geometry false s _ s1 Hrun) as (Hcache & Hitems & Hh);
    [done|].
  split; [done|]. split; [done|]. split; [done|].
  split.
  { destruct (acquire_outcome world geometry false s _ s1 Hrun)
      as [_ [(Hsame & _)|(o & Ho & Hpm & _)]].
    - rewrite Hsame in Hthrew. by destruct (not_cons_self _ _ Hthrew).
    - rewrite Ho in Hthrew. by injection Hthrew as ->. }
  split; [by apply (returning_call_frees_everything world geometry false s None s1)|].
  by apply (uncooked_is_retried world geometry false s (Normal None) s1).
Qed.

(** X14.  In convex mode an exception of the native routine leaves
    [geometryToPxMesh]: the call itself logs nothing with [console.error]
    (the only error reports are those of [computeBoundingBox], when the
    geometry had no bounding box yet), the cache, the items, the handles and
    the cooked meshes are as before, and the next call for the geometry calls
    the native routine again. *)
Theorem convex_cook_exception_reaches_the_caller (world : World) (geometry : loc)
    (s s1 : State) (r : Completion (option loc)) :
  geometryToPxMesh world geometry true s = (r, s1) →
  native_cooks (log s1) = Threw :: native_cooks (log s) →
  r = Throw NativeError ∧
  (∃ G, geometries s !! geometry = Some G ∧
        errors (log s1) = box_errors s G + errors (log s)) ∧
  cache s1 = cache s ∧ items s1 = items s ∧ handles s1 = handles s ∧
  pmeshes s1 = pmeshes s ∧
  ∃ r2 s2 o,
    geometryToPxMesh world geometry true s1 = (r2, s2) ∧
    native_cooks (log s2) = o :: native_cooks (log s1).
Proof.
  intros Hrun Hthrew.
  destruct (acquire_cooked world geometry true s r s1 Threw Hrun Hthrew)
    as (G & HG & Hc & Hpos & Hind).
  destruct (acquire_calls world geometry true s G HG Hc Hpos Hind)
    as (r' & s' & o & e & Hrun' & Hrep & _ & Hres).
  rewrite Hrun in Hrun'. injection Hrun' as <- <-.
  pose proof (rep_cooks _ _ _ _ _ _ _ Hrep) as Hcooks.
  rewrite Hthrew in Hcooks. injection Hcooks as <-.
  simpl in Hres. subst r.
  split; [done|].
  split; [exists G; split; [done|]; exact (rep_errors _ _ _ _ _ _ _ Hrep)|].
  destruct (acquire_fails world geometry true s _ s1 Hrun) as (Hcache & Hitems & Hh);
    [done|].
  split; [done|]. split; [done|]. split; [done|].
  split.
  { destruct (acquire_outcome world geometry true s _ s1 Hrun)
      as [_ [(Hsame & _)|(o & Ho & Hpm & _)]].
    - rewrite Hsame in Hthrew. by destruct (not_cons_self _ _ Hthrew).
    - rewrite Ho in Hthrew. by injection Hthrew as ->. }
  by apply (uncooked_is_retried world geometry true s (Throw NativeError) s1).
Qed.

End Marshalling.

(** ** The outcomes of a call for a well-formed geometry *)

Section Outcomes.
Context `{Externals}.


End Outcomes.

(** ** The range of the bake scale *)

Section UnitInterval.

(** The reciprocal of a number above 5 is zero (for infinity) or a positive
    number with an exponent of at most -53. *)
Lemma recip_small (a : float) :
  (5 <? a)%float = true →
  Prim2SF (1 / a) = S754_zero false ∨
  ∃ m e, Prim2SF (1 / a) = S754_finite false m e ∧ (e ≤ -53)%Z.
Proof.
  rewrite ltb_spec, div_spec, Prim2SF_five, Prim2SF_one.
  pose proof (Prim2SF_valid a) as Hv.
  destruct (Prim2SF a) as [s|s| |s m e]; intros Hlt.
  1-3: try destruct s; first [discriminate Hlt | by left].
  unfold SFltb, SFcompare in Hlt. destruct s; [discriminate Hlt|].
  assert (He : (-50 ≤ e)%Z).
  { revert Hlt. destruct (Z.compare_spec (-50) e); [lia|lia|discriminate]. }
  simpl in Hv. unfold bounded, canonical_mantissa in Hv.
  apply andb_prop in Hv as [Hc Hb].
  apply Z.eqb_eq in Hc. apply Z.leb_le in Hb.
  pose proof (digits2_pos_bounds m) as Hm.
  assert (Hd : Z.pos (digits2_pos m) = 53%Z).
  { unfold fexp, SpecFloat.emin, prec, emax in Hc. lia. }
  rewrite Hd in Hm.
  unfold SF64div, SFdiv, SFdiv_core_binary.
  change (Zdigits2 4503599627370496) with 53%Z.
  change (Zdigits2 (Z.pos m)) with (Z.pos (digits2_pos m)). rewrite Hd.
  set (e' := Z.min _ _).
  assert (He' : (-105 - e ≤ e' ≤ -55)%Z).
  { subst e'. unfold fexp, SpecFloat.emin, prec, emax. lia. }
  set (m' := match (-52 - e - e')%Z with Z0 => _ | Z.pos _ => _ | Z.neg _ => _ end).
  assert (Hm' : (0 ≤ m' ≤ 2 ^ 105)%Z).
  { subst m'. destruct (-52 - e - e')%Z as [|n|n] eqn:En; [lia| |lia].
    rewrite Z.shiftl_mul_pow2 by lia.
    assert (2 ^ Z.pos n ≤ 2 ^ 53)%Z by (apply Z.pow_le_mono_r; lia).
    change (2 ^ 105)%Z with (4503599627370496 * 2 ^ 53)%Z.
    pose proof (Z.pow_pos_nonneg 2 (Z.pos n)). lia. }
  assert (Hq : Z.div_eucl m' (Z.pos m) = ((m' / Z.pos m)%Z, (m' mod Z.pos m)%Z)).
  { unfold Z.div, Z.modulo. by destruct (Z.div_eucl m' (Z.pos m)). }
  rewrite Hq. simpl xorb.
  assert (Hqb : (0 ≤ m' / Z.pos m ≤ 2 ^ 53)%Z).
  { split; [apply Z.div_pos; lia|].
    apply Z.div_le_upper_bound; [lia|].
    change (2 ^ 105)%Z with (2 ^ 52 * 2 ^ 53)%Z in Hm'. nia. }
  destruct (binary_round_aux_small false (m' / Z.pos m) e'
              (new_location (Z.pos m) (m' mod Z.pos m)) Hqb (proj2 He'))
    as [->|(mz & ez & -> & Hez)]; [by left|].
  right. by exists mz, ez.
Qed.

(** Such a number is a number between 0 and 1. *)
Lemma small_in_unit_interval (b : float) :
  (Prim2SF b = S754_zero false ∨
   ∃ m e, Prim2SF b = S754_finite false m e ∧ (e ≤ -53)%Z) →
  is_nan b = false ∧ (0 <=? b)%float = true ∧ (b <=? 1)%float = true.
Proof.
  unfold is_nan. rewrite FloatAxioms.eqb_spec, !FloatAxioms.leb_spec, Prim2SF_one.
  change (Prim2SF 0) with (S754_zero false).
  intros [->|(m & e & -> & He)]; [done|].
  unfold SFeqb, SFleb, SFcompare.
  rewrite Z.compare_refl.
  change (PosDef.Pos.compare_cont Eq m m) with (Pos.compare m m).
  rewrite Pos.compare_refl.
  destruct (Z.compare_spec e (-52)); [lia|done|lia].
Qed.

End UnitInterval.

Section Range.
Context `{Externals}.

(** X16.  The bake scale of every geometry is a number between 0 and 1, never
    [NaN], whatever the bounding box holds.  Computing it logs the error
    reports of [computeBoundingBox], when the geometry had no bounding box
    yet, then the warning, exactly when the bake scale is not 1, and nothing
    else. *)
Theorem bake_scale_never_enlarges (s : State) (geometry : loc) (G : BufferGeometry) :
  geometries s !! geometry = Some G →
  ∃ bakeScale s',
    computeBakeScale geometry s = (Normal bakeScale, s') ∧
    is_nan bakeScale = false ∧
    (0 <=? bakeScale)%float = true ∧ (bakeScale <=? 1)%float = true ∧
    log s' = (if Number.strict_ne bakeScale 1
              then [console_warn (uuid G) bakeScale] else [])
             ++ replicate (box_errors s G) console_error ++ log s.
Proof.
  intros HG.
  destruct (computeBakeScale_log s geometry G HG) as (s' & Hrun & Hlog).
  exists (bakeScale_in s G), s'. split; [done|].
  assert (Hrange : is_nan (bakeScale_in s G) = false ∧
                   (0 <=? bakeScale_in s G)%float = true ∧
                   (bakeScale_in s G <=? 1)%float = true).
  { unfold bakeScale_in, bakeScaleOf.
    destruct (Number.gt _ _) eqn:Hgt; [|done].
    apply small_in_unit_interval, recip_small.
    by rewrite <- TARGET_EXTENT_times_5. }
  destruct Hrange as (Hnan & Hlo & Hhi). done.
Qed.

End Range.

(** ** Cache ids *)

Section Ids.
Context `{Externals}.

Lemma cache_id_suffix uuid convex bakeScale :
  cache_id uuid convex bakeScale
    = uuid +:+ id_suffix convex (Number_toString bakeScale).
Proof. done. Qed.

Lemma underscores_app a b : underscores (a +:+ b) = underscores a + underscores b.
Proof. induction a as [|c a IH]; simpl; [done|]. rewrite IH. lia. Qed.

Lemma underscores_suffix convex number :
  underscores (id_suffix convex number) = 2 + underscores number.
Proof. by destruct convex. Qed.

Lemma id_suffix_head convex number :
  ∃ rest, id_suffix convex number = String underscore rest ∧
          underscores rest = 1 + underscores number.
Proof. destruct convex; eexists; (split; [reflexivity|done]). Qed.

(** A suffix of an underscore-free number is not a proper part of another
    one: ids of equal length apart, the uuids are equal. *)
Lemma suffix_cancel u : ∀ u' c c' n n',
  underscores n = 0 → underscores n' = 0 →
  u +:+ id_suffix c n = u' +:+ id_suffix c' n' →
  u = u' ∧ id_suffix c n = id_suffix c' n'.
Proof.
  induction u as [|a u IH]; intros [|a' u'] c c' n n' Hn Hn' Heq.
  - done.
  - exfalso. simpl in Heq.
    destruct (id_suffix_head c n) as (rest & Hrest & Hcount).
    rewrite Hrest in Heq. injection Heq as <- Heq.
    apply (f_equal underscores) in Heq.
    rewrite underscores_app, underscores_suffix in Heq. lia.
  - exfalso. simpl in Heq.
    destruct (id_suffix_head c' n') as (rest & Hrest & Hcount).
    rewrite Hrest in Heq. injection Heq as -> Heq.
    apply (f_equal underscores) in Heq.
    rewrite underscores_app, underscores_suffix in Heq. lia.
  - simpl in Heq. injection Heq as -> Heq.
    destruct (IH u' c c' n n' Hn Hn' Heq) as [-> Hs]. done.
Qed.

Lemma id_suffix_inj c c' n n' :
  id_suffix c n = id_suffix c' n' → c = c' ∧ n = n'.
Proof. destruct c, c'; simpl; intros [=]; done. Qed.

(** X17.  The cache id tells entries apart.  When the strings of the two bake
    scales hold no underscore, as the strings of JavaScript numbers do, two ids
    are equal exactly when the uuids, the modes and the strings of the bake
    scales are equal. *)
Theorem cache_id_tells_entries_apart (uuid uuid' : string) (convex convex' : bool)
    (bakeScale bakeScale' : float) :
  underscores (Number_toString bakeScale) = 0 →
  underscores (Number_toString bakeScale') = 0 →
  cache_id uuid convex bakeScale = cache_id uuid' convex' bakeScale' ↔
  uuid = uuid' ∧ convex = convex' ∧
  Number_toString bakeScale = Number_toString bakeScale'.
Proof.
  intros Hn Hn'. split.
  - rewrite !cache_id_suffix. intros Heq.
    destruct (suffix_cancel _ _ _ _ _ _ Hn Hn' Heq) as [-> Hs].
    by destruct (id_suffix_inj _ _ _ _ Hs) as [-> ->].
  - intros (-> & -> & Hs). by rewrite !cache_id_suffix, Hs.
Qed.

Lemma mode_suffixes_differ u : ∀ n n',
  u +:+ id_suffix true n ≠ u +:+ id_suffix false n'.
Proof.
  induction u as [|a u IH]; intros n n'; simpl.
  - intros [=].
  - intros [= Heq]. by apply (IH n n').
Qed.

(** X18.  The convex mesh and the triangle mesh of one geometry never share
    an entry, whatever the bake scales and the strings of numbers: storing or
    deleting the entry of one mode changes nothing under the id of the
    other. *)
Theorem modes_have_entries_of_their_own (uuid : string) (bakeScale bakeScale' : float)
    (entries : gmap string loc) (item : loc) :
  <[cache_id uuid true bakeScale := item]> entries !! cache_id uuid false bakeScale'
    = entries !! cache_id uuid false bakeScale' ∧
  <[cache_id uuid false bakeScale' := item]> entries !! cache_id uuid true bakeScale
    = entries !! cache_id uuid true bakeScale ∧
  delete (cache_id uuid true bakeScale) entries !! cache_id uuid false bakeScale'
    = entries !! cache_id uuid false bakeScale' ∧
  delete (cache_id uuid false bakeScale') entries !! cache_id uuid true bakeScale
    = entries !! cache_id uuid true bakeScale.
Proof.
  pose proof (mode_suffixes_differ uuid (Number_toString bakeScale)
                (Number_toString bakeScale')) as Hne.
  rewrite <- !cache_id_suffix in Hne.
  split; [by rewrite lookup_insert_ne|].
  split; [by rewrite lookup_insert_ne|].
  split; [by rewrite lookup_delete_ne|by rewrite lookup_delete_ne].
Qed.

End Ids.

(** ** Missing positions, and the owner of a cooked mesh *)

Section Edges.
Context `{Externals}.

(** Without the positions array the cooking code throws at its first read of
    it, in the state it was entered. *)
Lemma cook_without_positions world G convex bakeScale s :
  f32arrays s !! array (position G) = None →
  cook world G convex bakeScale s = (Throw TypeError, s).
Proof.
  intros Hxs. unfold cook.
  destruct (isInterleavedBufferAttribute (position G)) eqn:Hi.
  - by rewrite (bind_throw _ _ _ _ _ (normalizePosition_missing G s Hi Hxs)).
  - rewrite (bind_normal _ _ _ _ _ (normalizePosition_plain G s Hi)).
    by rewrite (bind_throw _ _ _ _ _ (scalePositions_missing _ _ s Hxs)).
Qed.

(** X19.  A geometry whose positions array is missing, and that has no cache
    entry, makes [geometryToPxMesh] throw a [TypeError] before anything is
    allocated or cooked: the live blocks and the contents of foreign memory,
    the cache, the items, the handles and the typed arrays are as before, and
    neither [_webidl_malloc] nor a native cooking routine was called. *)
Theorem missing_positions_fail_before_any_allocation (world : World)
    (geometry : loc) (convex : bool) (s : State) (G : BufferGeometry) :
  geometries s !! geometry = Some G →
  cache s !! cache_id_in s G convex = None →
  f32arrays s !! array (position G) = None →
  ∃ s', geometryToPxMesh world geometry convex s = (Throw TypeError, s') ∧
    allocated s' = allocated s ∧ HEAP s' = HEAP s ∧
    mallocs (log s') = mallocs (log s) ∧
    native_cooks (log s') = native_cooks (log s) ∧
    cache s' = cache s ∧ items s' = items s ∧ handles s' = handles s ∧
    f32arrays s' = f32arrays s ∧ indexarrays s' = indexarrays s.
Proof.
  intros HG Hc Hxs.
  destruct (acquire_miss world geometry convex s G HG Hc)
    as (s0 & r & sc & Hstep & Hcook & Hmiss).
  assert (Hxs0 : f32arrays s0
                   !! array (position (boxed G (current_boundingBox s G))) = None).
  { simpl. by rewrite (pre_f32arrays _ _ _ _ Hstep). }
  rewrite (cook_without_positions _ _ _ _ _ Hxs0) in Hcook.
  injection Hcook as <- <-.
  exists s0. split; [done|].
  split; [exact (pre_allocated _ _ _ _ Hstep)|].
  split; [exact (pre_HEAP _ _ _ _ Hstep)|].
  split; [exact (pre_mallocs _ _ _ _ Hstep)|].
  split; [exact (pre_cooks _ _ _ _ Hstep)|].
  split; [exact (pre_cache _ _ _ _ Hstep)|].
  split; [exact (pre_items _ _ _ _ Hstep)|].
  split; [exact (pre_handles _ _ _ _ Hstep)|].
  split; [exact (pre_f32arrays _ _ _ _ Hstep)|exact (pre_indexarrays _ _ _ _ Hstep)].
Qed.

(** X20.  [geometryToPxMesh] never releases a cooked mesh and never changes
    a cooked mesh that exists.  A mesh that is new after the call is live, and
    the call returned a new handle that holds this mesh in [value]: a call
    that returns [null] or throws leaves no new mesh behind. *)
Theorem cooked_mesh_is_never_dropped (world : World) (geometry : loc)
    (convex : bool) (s s' : State) (r : Completion (option loc)) :
  geometryToPxMesh world geometry convex s = (r, s') →
  (∀ pm, native_releases pm (log s') = native_releases pm (log s)) ∧
  (∀ pm b, pmeshes s !! pm = Some b → pmeshes s' !! pm = Some b) ∧
  (∀ pm, pmeshes s !! pm = None → is_Some (pmeshes s' !! pm) →
     pmeshes s' !! pm = Some true ∧
     ∃ h this, r = Normal (Some h) ∧ handles s !! h = None ∧
               handles s' !! h = Some this ∧
               value this = Some pm ∧ released this = false).
Proof.
  intros Hrun.
  destruct (acquire_outcome world geometry convex s r s' Hrun) as [Hrel Hcases].
  split; [done|].
  destruct Hcases as [(_ & Hpm & _)|(o & Hcooks & Hpm & Hres & _)].
  { rewrite Hpm. split; [done|]. intros pm Hnone [b Hb]. congruence. }
  destruct o as [pm0| |]; simpl in Hpm;
    [|rewrite Hpm; (split; [done|]); intros pm Hnone [b Hb]; congruence..].
  destruct Hres as [h ->].
  destruct (acquire_returns world geometry convex s h s' Hrun)
    as (G & l & it1 & _ & _ & _ & _ & Hnew & Hh & Hcase).
  destruct Hcase as [(_ & _ & _ & _ & Hsame & _)
                    |(_ & _ & _ & _ & _ & Hcooked)].
  { rewrite Hsame in Hcooks. by destruct (not_cons_self _ _ Hcooks). }
  destruct Hcooked as [(Hcooks' & Hpmn & Hpml)|(Hcooks' & _)];
    rewrite Hcooks in Hcooks'; [|done]. injection Hcooks' as ->.
  rewrite Hpm. split.
  - intros pm b Hb. rewrite lookup_insert_ne; [done|congruence].
  - intros pm Hnone Hsome.
    destruct (decide (pm = item_pmesh it1)) as [->|Hne].
    + split; [apply lookup_insert_eq|].
      exists h, (open_handle l it1). split; [done|]. split; [done|].
      split; [rewrite Hh; apply lookup_insert_eq|done].
    + rewrite lookup_insert_ne, Hnone in Hsome by done. by destruct Hsome.
Qed.

End Edges.

(** ** The statements on the sample geometries *)


Lemma release_idempotent_witness :
  ∃ s1,
    @release 0 Reference.quad_cooked = (Normal tt, s1) ∧
    cache s1 !! "quad_triangles_bs1" = None ∧
    @release 0 s1 = (Normal tt, s1).
Proof.
  assert (Hh : handles Reference.quad_cooked !! 0 = Some Reference.quad_handle)
    by (vm_compute; reflexivity).
  assert (Hi : items Reference.quad_cooked !! item Reference.quad_handle
               = Some Reference.quad_item)
    by (vm_compute; reflexivity).
  destruct (release_idempotent Reference.quad_cooked 0 Reference.quad_handle
              Reference.quad_item Hh eq_refl Hi)
    as (s1 & Hrun & _ & _ & Hzero & _ & Hagain & _).
  exists s1. split; [exact Hrun|]. split; [|exact Hagain].
  apply (Hzero eq_refl).
Defined.

Lemma second_acquire_shares_entry_witness :
  ∃ h2 s2 l it this1 this2,
    @geometryToPxMesh (Reference.env Accept) Reference.world 2 false
      Reference.quad_cooked = (Normal (Some h2), s2) ∧
    h2 ≠ 0 ∧
    handles s2 !! 0 = Some this1 ∧ handles s2 !! h2 = Some this2 ∧
    released this1 = false ∧ released this2 = false ∧
    item this1 = l ∧ item this2 = l ∧
    cache s2 !! @cache_id_in (Reference.env Accept) Reference.sample Reference.quad false
      = Some l ∧
    items s2 !! l = Some it ∧
    item_refs it = 2%Z ∧
    native_cooks (log s2) = native_cooks (log Reference.quad_cooked).
Proof.
  apply (second_acquire_shares_entry (H := Reference.env Accept) Reference.world
           Reference.sample Reference.quad_cooked 2 Reference.quad false 0);
    vm_compute; reflexivity.
Defined.

Lemma rejected_cook_is_cached_witness :
  ∃ h l it this,
    items Reference.quad_rejected !! l = Some it ∧
    item_pmesh it = null_mesh ∧ item_refs it = 1%Z ∧
    handles Reference.quad_rejected !! h = Some this ∧
    value this = Some null_mesh ∧ released this = false ∧
    ∃ h2 s2 this2,
      @geometryToPxMesh (Reference.env Reject) Reference.world 2 false
        Reference.quad_rejected = (Normal (Some h2), s2) ∧
      native_cooks (log s2) = native_cooks (log Reference.quad_rejected) ∧
      h2 ≠ h ∧ handles s2 !! h2 = Some this2 ∧
      value this2 = Some null_mesh ∧ released this2 = false.
Proof.
  assert (Hrun : @geometryToPxMesh (Reference.env Reject) Reference.world 2 false
                   Reference.sample = (Normal (Some 0), Reference.quad_rejected))
    by (vm_compute; reflexivity).
  assert (Hrej : native_cooks (log Reference.quad_rejected)
                 = Rejected :: native_cooks (log Reference.sample))
    by (vm_compute; reflexivity).
  destruct (rejected_cook_is_cached (H := Reference.env Reject) Reference.world
              Reference.sample Reference.quad_rejected 2 false (Normal (Some 0))
              Hrun Hrej)
    as (G & h & l & it & this & _ & _ & _ & _ & _ & Hit & Hpm & Hrefs & Hh & _ &
        Hv & Hrel & h2 & s2 & this2 & Hrun2 & Hcooks2 & Hne & Hh2 & _ & Hv2 & Hrel2).
  exists h, l, it, this.
  split; [exact Hit|]. split; [exact Hpm|]. split; [exact Hrefs|].
  split; [exact Hh|]. split; [exact Hv|]. split; [exact Hrel|].
  exists h2, s2, this2.
  split; [exact Hrun2|]. split; [exact Hcooks2|]. split; [exact Hne|].
  split; [exact Hh2|]. split; [exact Hv2|exact Hrel2].
Defined.

Lemma destroyed_entry_not_resurrected_witness :
  ∃ s1, release 0 Reference.quad_cooked = (Normal tt, s1) ∧
    cache s1 !! item_id Reference.quad_item = None ∧
    pmeshes s1 !! item_pmesh Reference.quad_item = Some false ∧
    ∃ r s2,
      @geometryToPxMesh (Reference.env Accept) Reference.world 2 false s1 = (r, s2) ∧
      cache s2 !! item_id Reference.quad_item ≠ Some (item Reference.quad_handle) ∧
      pmeshes s2 !! item_pmesh Reference.quad_item = Some false.
Proof.
  assert (Hh : handles Reference.quad_cooked !! 0 = Some Reference.quad_handle)
    by (vm_compute; reflexivity).
  assert (Hi : items Reference.quad_cooked !! item Reference.quad_handle
               = Some Reference.quad_item)
    by (vm_compute; reflexivity).
  assert (HG : geometries Reference.quad_cooked !! 2 = Some Reference.quad_boxed)
    by (vm_compute; reflexivity).
  assert (Hid : item_id Reference.quad_item
                = @cache_id_in (Reference.env Accept) Reference.quad_cooked
                    Reference.quad_boxed false)
    by (vm_compute; reflexivity).
  destruct (destroyed_entry_not_resurrected (H := Reference.env Accept)
              Reference.world Reference.quad_cooked 0 Reference.quad_handle
              Reference.quad_item 2 Reference.quad_boxed false
              Hh eq_refl Hi eq_refl HG Hid)
    as (s1 & Hrun & Hc & Hpm & r & s2 & Hrun2 & _ & Hc2 & _ & Hpm2 & _).
  exists s1. split; [exact Hrun|]. split; [exact Hc|]. split; [exact Hpm|].
  exists r, s2. split; [exact Hrun2|]. split; [exact Hc2|exact Hpm2].
Defined.

Lemma missing_indices_detected_before_cooking_witness :
  ∃ s', @geometryToPxMesh (Reference.env Accept) Reference.world 1 false
          Reference.sample = (Throw TypeError, s') ∧
    native_cooks (log s') = native_cooks (log Reference.sample) ∧
    cache s' = cache Reference.sample.
Proof.
  assert (HG : geometries Reference.sample !! 1 = Some Reference.wide_triangle)
    by (vm_compute; reflexivity).
  assert (Hmiss : cache Reference.sample
                    !! @cache_id_in (Reference.env Accept) Reference.sample
                         Reference.wide_triangle false = None)
    by (vm_compute; reflexivity).
  destruct (missing_indices_detected_before_cooking (H := Reference.env Accept)
              Reference.world Reference.sample 1 Reference.wide_triangle
              HG eq_refl Hmiss)
    as (s' & Hrun & Hcooks & Hcache & _).
  exists s'. split; [exact Hrun|]. split; [exact Hcooks|exact Hcache].
Defined.

(** The claim C8 as stated fails on the quad once it is cached and the caller
    has dropped its index buffer: in triangle mode the call finds the entry
    and returns a handle; nothing is thrown and nothing is reported. *)
Lemma absent_indices_unnoticed_on_a_hit :
  ∃ h s',
    geometries Reference.quad_emptied !! 2 = Some Reference.quad_stripped ∧
    index Reference.quad_stripped = None ∧
    @geometryToPxMesh (Reference.env Accept) Reference.world 2 false
      Reference.quad_emptied = (Normal (Some h), s') ∧
    log s' = log Reference.quad_emptied.
Proof.
  eexists _, _.
  split; [vm_compute; reflexivity|].
  split; [reflexivity|].
  split; vm_compute; reflexivity.
Qed.

Lemma reachable_quad_cooked : @reachable (Reference.env Accept) Reference.quad_cooked.
Proof.
  apply (reach_acquire (H := Reference.env Accept) Reference.sample Reference.world
           2 false (Normal (Some 0)) Reference.quad_cooked).
  - apply reach_start. repeat split.
  - vm_compute; reflexivity.
Qed.

Lemma released_handle_exposes_nothing_witness :
  ∃ this it,
    handles Reference.sample !! 0 = None ∧
    handles Reference.quad_cooked !! 0 = Some this ∧ released this = false ∧
    items Reference.quad_cooked !! item this = Some it ∧
    value this = Some (item_pmesh it) ∧
    handles Reference.quad_shared !! 0 = Some this ∧
    ∃ s3 this3,
      release 0 Reference.quad_shared = (Normal tt, s3) ∧
      handles s3 !! 0 = Some this3 ∧
      released this3 = true ∧ value this3 = None.
Proof.
  assert (Hrun : @geometryToPxMesh (Reference.env Accept) Reference.world 2 false
                   Reference.sample = (Normal (Some 0), Reference.quad_cooked))
    by (vm_compute; reflexivity).
  assert (Hsteps : rtc (@step_without (Reference.env Accept) 0)
                     Reference.quad_cooked Reference.quad_shared).
  { apply rtc_once.
    apply (without_acquire (H := Reference.env Accept) 0 Reference.quad_cooked
             Reference.world 2 false (Normal (Some 1)) Reference.quad_shared).
    vm_compute; reflexivity. }
  destruct (released_handle_exposes_nothing (H := Reference.env Accept)
              Reference.world Reference.sample Reference.quad_cooked 2 false 0 Hrun)
    as ((this & it & Hnone & Hh & Hr & Hi & Hv & Htrace) & _).
  destruct (Htrace Reference.quad_shared Hsteps)
    as (Hh2 & _ & s3 & this3 & Hrun3 & Hh3 & Hr3 & Hv3 & _).
  exists this, it.
  split; [exact Hnone|]. split; [exact Hh|]. split; [exact Hr|].
  split; [exact Hi|]. split; [exact Hv|]. split; [exact Hh2|].
  exists s3, this3.
  split; [exact Hrun3|]. split; [exact Hh3|]. split; [exact Hr3|exact Hv3].
Defined.

Lemma index_widening_witness :
  (∃ indices s1,
     normalizeIndices 0 Reference.sample = (Normal indices, s1) ∧
     indexarrays s1 !! 0 = Some (Uint8Array [0; 1; 2; 255]%Z) ∧
     indexarrays Reference.sample !! indices = None ∧
     indexarrays s1 !! indices = Some (Uint16Array [0; 1; 2; 255]%Z)) ∧
  ∃ r s' o points pts,
    @geometryToPxMesh (Reference.env Accept) Reference.world 0 false
      Reference.sample = (r, s') ∧
    indexarrays s' !! 0 = Some (Uint8Array [0; 1; 2; 255]%Z) ∧
    native_calls (log s') =
      CreateTriangleMesh (cookingParams Reference.world)
        (PxTriangleMeshDesc points
           {| count := Z.of_nat (length [0; 1; 2; 255]%Z) / 3;
              data_stride := 6;
              data :=
                next_block
                  (<[next_block (allocated Reference.sample) :=
                       (Z.of_nat
                          (length (@positions_in (Reference.env Accept)
                                     Reference.sample Reference.unit_triangle))
                        * 4)%Z]>
                     (allocated Reference.sample)) |}
           true)
        (Some pts) (Some (U16 [0; 1; 2; 255]%Z)) o
      :: native_calls (log Reference.sample).
Proof.
  assert (HG : geometries Reference.sample !! 0 = Some Reference.unit_triangle)
    by (vm_compute; reflexivity).
  assert (Hc : cache Reference.sample
                 !! @cache_id_in (Reference.env Accept) Reference.sample
                      Reference.unit_triangle false = None)
    by (vm_compute; reflexivity).
  assert (Hpos : @has_positions Reference.sample Reference.unit_triangle)
    by (eexists; vm_compute; reflexivity).
  assert (Hs : indexarrays Reference.sample !! 0 = Some (Uint8Array [0; 1; 2; 255]%Z))
    by (vm_compute; reflexivity).
  assert (Hrange : ∀ elems, Uint8Array [0; 1; 2; 255]%Z = Uint8Array elems →
                            Forall (fun v => 0 ≤ v < 256)%Z elems).
  { intros elems [= <-]. repeat constructor; lia. }
  destruct (index_widening (H := Reference.env Accept) Reference.world
              Reference.sample 0 Reference.unit_triangle 0
              (Uint8Array [0; 1; 2; 255]%Z) HG Hc Hpos eq_refl Hs Hrange)
    as ((indices & s1 & Hrun & Hsrc & Hfresh & Hind) &
        r & s' & o & Hrun' & Hsrc' & Hcalls & _).
  split.
  { exists indices, s1. split; [exact Hrun|]. split; [exact Hsrc|].
    split; [exact Hfresh|exact Hind]. }
  exists r, s', o. eexists _, _.
  split; [exact Hrun'|]. split; [exact Hsrc'|exact Hcalls].
Defined.

Lemma scale_policy_frame_witness :
  ∃ scaledPositions s1 scaled,
    scalePositions 1 (@bakeScale_in (Reference.env Accept) Reference.sample
                        Reference.wide_triangle) Reference.sample
      = (Normal scaledPositions, s1) ∧
    f32arrays Reference.sample !! scaledPositions = None ∧
    f32arrays s1 !! scaledPositions = Some scaled ∧
    length scaled = 9.
Proof.
  assert (Hp : f32arrays Reference.sample !! 1
               = Some [1; 0; 0; 7; 0; 0; 1; 3; 0]%float)
    by (vm_compute; reflexivity).
  destruct (scale_policy_frame (H := Reference.env Accept) Reference.sample 1 _
              (@bakeScale_in (Reference.env Accept) Reference.sample
                 Reference.wide_triangle) Hp)
    as (Hscale & _).
  destruct Hscale as (sp & s1 & scaled & Hrun & Hfresh & Hs1 & Hlen & _).
  { vm_compute; reflexivity. }
  exists sp, s1, scaled. split; [exact Hrun|]. split; [exact Hfresh|].
  split; [exact Hs1|exact Hlen].
Defined.

(** The claim C7 as stated fails on the wide triangle: its bake scale is 1/6,
    its first position is 1, and the first scaled position is the binary32
    number nearest to 1/6, which is not the binary64 product [1 * (1/6)]. *)
Lemma scaled_position_is_rounded :
  ∃ scaledPositions s1 original scaled,
    Number.strict_ne (@bakeScale_in (Reference.env Accept) Reference.sample
                        Reference.wide_triangle) 1 = true ∧
    f32arrays Reference.sample !! 1 = Some original ∧
    scalePositions 1 (@bakeScale_in (Reference.env Accept) Reference.sample
                        Reference.wide_triangle) Reference.sample
      = (Normal scaledPositions, s1) ∧
    f32arrays s1 !! scaledPositions = Some scaled ∧
    nth 0 scaled nan ≠
      (nth 0 original nan * @bakeScale_in (Reference.env Accept) Reference.sample
                              Reference.wide_triangle)%float.
Proof.
  eexists _, _, _, _.
  split; [vm_compute; reflexivity|].
  split; [vm_compute; reflexivity|].
  split; [vm_compute; reflexivity|].
  split; [vm_compute; reflexivity|].
  intros Heq. apply (f_equal Prim2SF) in Heq. vm_compute in Heq. discriminate Heq.
Qed.

(** C5 fails in convex mode when the native routine throws: cooking the wide
    triangle as a convex mesh in an environment whose cooking routine throws
    ends with the exception, and the 36 byte block allocated at address 8 for
    the positions is still allocated; no [webidl_free] was called. *)
Theorem convex_cook_exception_leaks_positions :
  ∃ s' pts bakeScale,
    @geometryToPxMesh (Reference.env Crash) Reference.world 1 true Reference.sample
      = (Throw NativeError, s') ∧
    allocated Reference.sample = ∅ ∧
    allocated s' !! 8%Z = Some 36%Z ∧
    log s' =
      [CreateConvexMesh 0
         (PxConvexMeshDesc {| count := 3; data_stride := 12; data := 8 |} true)
         pts Threw;
       new_desc true;
       webidl_malloc 36 8;
       console_warn "wide" bakeScale].
Proof.
  eexists _, _, _. split; [vm_compute; reflexivity|].
  split; [reflexivity|]. split; vm_compute; reflexivity.
Qed.

(** The same block leaks when a triangle mesh is asked of the wide triangle,
    which has no index buffer: the [TypeError] of [index.array] is thrown
    after the positions block is allocated. *)
Lemma missing_indices_leak_positions :
  ∃ s' bakeScale,
    @geometryToPxMesh (Reference.env Accept) Reference.world 1 false Reference.sample
      = (Throw TypeError, s') ∧
    allocated s' !! 8%Z = Some 36%Z ∧
    log s' = [new_desc false; webidl_malloc 36 8; console_warn "wide" bakeScale].
Proof.
  eexists _, _. split; [vm_compute; reflexivity|].
  split; vm_compute; reflexivity.
Qed.

(** ** Further statements on the sample geometries *)

Lemma reachable_quad_shared : @reachable (Reference.env Accept) Reference.quad_shared.
Proof.
  apply (reach_acquire (H := Reference.env Accept) Reference.quad_cooked
           Reference.world 2 false (Normal (Some 1)) Reference.quad_shared).
  - apply reachable_quad_cooked.
  - vm_compute; reflexivity.
Qed.

Lemma reachable_quad_released : @reachable (Reference.env Accept) Reference.quad_released.
Proof.
  apply (reach_release (H := Reference.env Accept) Reference.quad_cooked 0
           (Normal tt) Reference.quad_released).
  - apply reachable_quad_cooked.
  - vm_compute; reflexivity.
Qed.

Lemma reference_count_is_exact_witness :
  item_refs Reference.quad_item
    = Z.of_nat (holders (handles Reference.quad_cooked) 0).
Proof.
  apply (reference_count_is_exact (H := Reference.env Accept) Reference.quad_cooked
           0 Reference.quad_item reachable_quad_cooked).
  vm_compute; reflexivity.
Defined.

Lemma unreleased_handle_holds_live_mesh_witness :
  ∃ it pm,
    items Reference.quad_shared !! 0 = Some it ∧
    Some 1 = Some pm ∧ item_pmesh it = pm ∧
    cache Reference.quad_shared !! item_id it = Some 0 ∧
    (pm ≠ null_mesh →
       pmeshes Reference.quad_shared !! pm = Some true ∧
       native_releases pm (log Reference.quad_shared) = 0) ∧
    (pm = null_mesh →
       pmeshes Reference.quad_shared !! pm ≠ Some true ∧
       Rejected ∈ native_cooks (log Reference.quad_shared)).
Proof.
  assert (Hh : handles Reference.quad_shared !! 1
               = Some {| value := Some 1; item := 0; released := false |})
    by (vm_compute; reflexivity).
  exact (unreleased_handle_holds_live_mesh (H := Reference.env Accept)
           Reference.quad_shared 1
           _ reachable_quad_shared Hh eq_refl).
Defined.

Lemma mesh_released_at_most_once_witness :
  native_releases 1 (log Reference.quad_released) ≤ 1 ∧
  (native_releases 1 (log Reference.quad_released) = 1
   ↔ pmeshes Reference.quad_released !! 1 = Some false).
Proof.
  assert (Hne : 1 ≠ null_mesh) by (intros Heq; discriminate Heq).
  exact (mesh_released_at_most_once (H := Reference.env Accept) Reference.quad_released 1
           reachable_quad_released Hne).
Defined.

Lemma cache_holds_the_live_items_witness :
  ∃ it, items Reference.quad_shared !! 0 = Some it ∧
        item_id it = "quad_triangles_bs1" ∧ (0 < item_refs it)%Z ∧
        (item_pmesh it ≠ null_mesh →
           pmeshes Reference.quad_shared !! item_pmesh it = Some true).
Proof.
  destruct (cache_holds_the_live_items (H := Reference.env Accept) Reference.quad_shared
              reachable_quad_shared) as [Hcache _].
  apply (Hcache "quad_triangles_bs1" 0). vm_compute; reflexivity.
Defined.

Lemma all_released_all_destroyed_witness :
  cache Reference.quad_released = ∅ ∧
  (∀ pm b, pmeshes Reference.quad_released !! pm = Some b → b = false) ∧
  (∀ pm, is_Some (pmeshes Reference.quad_released !! pm) → pm ≠ null_mesh →
         native_releases pm (log Reference.quad_released) = 1).
Proof.
  apply (all_released_all_destroyed (H := Reference.env Accept) Reference.quad_released
           reachable_quad_released).
  assert (Hh : handles Reference.quad_released
               = {[0 := {| value := None; item := 0; released := true |}]})
    by (vm_compute; reflexivity).
  intros h this. rewrite Hh. intros Hl.
  apply lookup_singleton_Some in Hl as [_ <-]. reflexivity.
Defined.

Lemma mesh_destroyed_exactly_at_last_release_witness :
  ∃ it s1,
    items Reference.quad_shared !! 0 = Some it ∧
    release 1 Reference.quad_shared = (Normal tt, s1) ∧
    pmeshes s1 = pmeshes Reference.quad_shared ∧
    (item_pmesh it ≠ null_mesh → pmeshes s1 !! item_pmesh it = Some true) ∧
    cache s1 !! item_id it = Some 0 ∧
    log s1 = log Reference.quad_shared.
Proof.
  assert (Hh1 : handles Reference.quad_shared !! 1
                = Some {| value := Some 1; item := 0; released := false |})
    by (vm_compute; reflexivity).
  assert (Hh0 : handles Reference.quad_shared !! 0
                = Some {| value := Some 1; item := 0; released := false |})
    by (vm_compute; reflexivity).
  destruct (mesh_destroyed_exactly_at_last_release (H := Reference.env Accept)
              Reference.quad_shared 1 _ reachable_quad_shared Hh1 eq_refl)
    as (it & s1 & Hit & Hrun & Hshared & _).
  exists it, s1. split; [exact Hit|]. split; [exact Hrun|].
  apply Hshared. eexists 0, _. split; [lia|]. split; [exact Hh0|].
  split; reflexivity.
Defined.

Lemma cache_hit_reads_no_vertex_data_witness :
  ∃ h2 s2 this1 this2,
    @geometryToPxMesh (Reference.env Accept) Reference.world 2 false
      Reference.quad_emptied
      = (Normal (Some h2), s2) ∧
    h2 ≠ 0 ∧
    handles s2 !! 0 = Some this1 ∧ handles s2 !! h2 = Some this2 ∧
    released this1 = false ∧ released this2 = false ∧
    item this2 = item this1 ∧ value this2 = value this1 ∧
    native_cooks (log s2) = native_cooks (log Reference.quad_emptied) ∧
    mallocs (log s2) = mallocs (log Reference.quad_emptied) ∧
    allocated s2 = allocated Reference.quad_emptied ∧
    f32arrays s2 = f32arrays Reference.quad_emptied ∧
    indexarrays s2 = indexarrays Reference.quad_emptied.
Proof.
  assert (Hrun : @geometryToPxMesh (Reference.env Accept) Reference.world 2 false
                   Reference.sample = (Normal (Some 0), Reference.quad_cooked))
    by (vm_compute; reflexivity).
  assert (Hstep : caller_step Reference.quad_cooked Reference.quad_emptied)
    by (unfold caller_step; repeat apply conj; vm_compute; reflexivity).
  assert (HG1 : geometries Reference.quad_cooked !! 2 = Some Reference.quad_boxed)
    by (vm_compute; reflexivity).
  assert (HG' : geometries Reference.quad_emptied !! 2 = Some Reference.quad_stripped)
    by (vm_compute; reflexivity).
  assert (Hu : uuid Reference.quad_stripped = uuid Reference.quad_boxed)
    by (vm_compute; reflexivity).
  assert (Hb : boundingBox Reference.quad_stripped = boundingBox Reference.quad_boxed)
    by (vm_compute; reflexivity).
  exact (cache_hit_reads_no_vertex_data (H := Reference.env Accept)
           Reference.world Reference.world 2 false Reference.sample
           Reference.quad_cooked Reference.quad_emptied 0 Reference.quad_boxed
           Reference.quad_stripped
           Hrun Hstep HG1 HG' Hu Hb).
Defined.

Lemma only_the_bounding_box_is_stored_witness :
  geometries Reference.quad_cooked
    = <[2 := boxed Reference.quad
               (@current_boundingBox (Reference.env Accept) Reference.sample
                  Reference.quad)]> (geometries Reference.sample).
Proof.
  assert (Hrun : @geometryToPxMesh (Reference.env Accept) Reference.world 2 false
                   Reference.sample = (Normal (Some 0), Reference.quad_cooked))
    by (vm_compute; reflexivity).
  assert (HG : geometries Reference.sample !! 2 = Some Reference.quad)
    by (vm_compute; reflexivity).
  exact (proj1 (only_the_bounding_box_is_stored (H := Reference.env Accept)
                  Reference.world 2 false Reference.sample Reference.quad_cooked
                  (Normal (Some 0)) Reference.quad Hrun HG)).
Defined.

Lemma native_routine_gets_the_scaled_positions_witness :
  ∃ r s' o e,
    @geometryToPxMesh (Reference.env Accept) Reference.world 1 true Reference.sample
      = (r, s') ∧
    native_calls (log s') = e :: native_calls (log Reference.sample) ∧
    @cooks_points true (cookingParams Reference.world)
      (points_desc
         (length (@positions_in (Reference.env Accept) Reference.sample
                    Reference.wide_triangle))
         (next_block (allocated Reference.sample)))
      (F32 (@scaled_by
              (@bakeScale_in (Reference.env Accept) Reference.sample
                 Reference.wide_triangle)
              (@positions_in (Reference.env Accept) Reference.sample
                 Reference.wide_triangle))) o e ∧
    @acquire_result true o r.
Proof.
  assert (HG : geometries Reference.sample !! 1 = Some Reference.wide_triangle)
    by (vm_compute; reflexivity).
  assert (Hc : cache Reference.sample
                 !! @cache_id_in (Reference.env Accept) Reference.sample
                      Reference.wide_triangle true = None)
    by (vm_compute; reflexivity).
  assert (Hpos : @has_positions Reference.sample Reference.wide_triangle)
    by (eexists; vm_compute; reflexivity).
  assert (Hind : @has_indices Reference.sample Reference.wide_triangle true)
    by (intros Hconvex; discriminate Hconvex).
  exact (native_routine_gets_the_scaled_positions (H := Reference.env Accept)
           Reference.world 1 true Reference.sample Reference.wide_triangle
           HG Hc Hpos Hind).
Defined.

Lemma returning_call_frees_its_blocks_witness :
  allocated Reference.quad_cooked = allocated Reference.sample ∧
  ((native_cooks (log Reference.quad_cooked) = native_cooks (log Reference.sample) ∧
    mallocs (log Reference.quad_cooked) = mallocs (log Reference.sample))
   ∨
   (∃ o, native_cooks (log Reference.quad_cooked)
           = o :: native_cooks (log Reference.sample) ∧
         length (mallocs (log Reference.quad_cooked))
           = blocks_of false + length (mallocs (log Reference.sample)))).
Proof.
  assert (Hrun : @geometryToPxMesh (Reference.env Accept) Reference.world 2 false
                   Reference.sample = (Normal (Some 0), Reference.quad_cooked))
    by (vm_compute; reflexivity).
  exact (returning_call_frees_its_blocks (H := Reference.env Accept)
           Reference.world 2 false Reference.sample Reference.quad_cooked
           (Some 0) Hrun).
Defined.

Lemma triangle_cook_exception_is_swallowed_witness :
  Normal None = Normal (@None loc) ∧
  @box_errors (Reference.env Crash) Reference.sample_nan Reference.quad_nan = 1 ∧
  errors (log Reference.nan_crashed)
    = 2 + @box_errors (Reference.env Crash) Reference.sample_nan Reference.quad_nan
      + errors (log Reference.sample_nan) ∧
  cache Reference.nan_crashed = cache Reference.sample_nan ∧
  items Reference.nan_crashed = items Reference.sample_nan ∧
  handles Reference.nan_crashed = handles Reference.sample_nan ∧
  pmeshes Reference.nan_crashed = pmeshes Reference.sample_nan ∧
  allocated Reference.nan_crashed = allocated Reference.sample_nan ∧
  ∃ r2 s2 o,
    @geometryToPxMesh (Reference.env Crash) Reference.world 5 false Reference.nan_crashed
      = (r2, s2) ∧
    native_cooks (log s2) = o :: native_cooks (log Reference.nan_crashed).
Proof.
  assert (Hrun : @geometryToPxMesh (Reference.env Crash) Reference.world 5 false
                   Reference.sample_nan = (Normal None, Reference.nan_crashed))
    by (vm_compute; reflexivity).
  assert (Hthrew : native_cooks (log Reference.nan_crashed)
                   = Threw :: native_cooks (log Reference.sample_nan))
    by (vm_compute; reflexivity).
  assert (HG : geometries Reference.sample_nan !! 5 = Some Reference.quad_nan)
    by (vm_compute; reflexivity).
  destruct (triangle_cook_exception_is_swallowed (H := Reference.env Crash)
              Reference.world 5 Reference.sample_nan Reference.nan_crashed (Normal None)
              Hrun Hthrew)
    as (Hr & (G & HG' & Herrors) & Hrest).
  pose proof (eq_trans (eq_sym HG') HG) as HGeq. injection HGeq as ->.
  split; [exact Hr|]. split; [vm_compute; reflexivity|].
  split; [exact Herrors|exact Hrest].
Defined.

Lemma convex_cook_exception_reaches_the_caller_witness :
  Throw NativeError = @Throw (option loc) NativeError ∧
  @box_errors (Reference.env Crash) Reference.sample_nan Reference.quad_nan = 1 ∧
  errors (log Reference.nan_convex_crashed)
    = @box_errors (Reference.env Crash) Reference.sample_nan Reference.quad_nan
      + errors (log Reference.sample_nan) ∧
  cache Reference.nan_convex_crashed = cache Reference.sample_nan ∧
  items Reference.nan_convex_crashed = items Reference.sample_nan ∧
  handles Reference.nan_convex_crashed = handles Reference.sample_nan ∧
  pmeshes Reference.nan_convex_crashed = pmeshes Reference.sample_nan ∧
  ∃ r2 s2 o,
    @geometryToPxMesh (Reference.env Crash) Reference.world 5 true
      Reference.nan_convex_crashed = (r2, s2) ∧
    native_cooks (log s2) = o :: native_cooks (log Reference.nan_convex_crashed).
Proof.
  assert (Hrun : @geometryToPxMesh (Reference.env Crash) Reference.world 5 true
                   Reference.sample_nan
                 = (Throw NativeError, Reference.nan_convex_crashed))
    by (vm_compute; reflexivity).
  assert (Hthrew : native_cooks (log Reference.nan_convex_crashed)
                   = Threw :: native_cooks (log Reference.sample_nan))
    by (vm_compute; reflexivity).
  assert (HG : geometries Reference.sample_nan !! 5 = Some Reference.quad_nan)
    by (vm_compute; reflexivity).
  destruct (convex_cook_exception_reaches_the_caller (H := Reference.env Crash)
              Reference.world 5 Reference.sample_nan Reference.nan_convex_crashed
              (Throw NativeError) Hrun Hthrew)
    as (Hr & (G & HG' & Herrors) & Hrest).
  pose proof (eq_trans (eq_sym HG') HG) as HGeq. injection HGeq as ->.
  split; [exact Hr|]. split; [vm_compute; reflexivity|].
  split; [exact Herrors|exact Hrest].
Defined.

Lemma throwing_call_leaks_the_positions_block_witness :
  allocated Reference.sample !! next_block (allocated Reference.sample) = None ∧
  allocated Reference.wide_crashed =
    <[next_block (allocated Reference.sample) :=
        (Z.of_nat (length (@positions_in (Reference.env Crash) Reference.sample
                             Reference.wide_triangle)) * 4)%Z]>
      (allocated Reference.sample) ∧
  cache Reference.wide_crashed = cache Reference.sample ∧
  NativeError = NativeError ∧
  native_cooks (log Reference.wide_crashed)
    = Threw :: native_cooks (log Reference.sample).
Proof.
  assert (HG : geometries Reference.sample !! 1 = Some Reference.wide_triangle)
    by (vm_compute; reflexivity).
  assert (Hc : cache Reference.sample
                 !! @cache_id_in (Reference.env Crash) Reference.sample
                      Reference.wide_triangle true = None)
    by (vm_compute; reflexivity).
  assert (Hpos : @has_positions Reference.sample Reference.wide_triangle)
    by (eexists; vm_compute; reflexivity).
  assert (Hrun : @geometryToPxMesh (Reference.env Crash) Reference.world 1 true
                   Reference.sample = (Throw NativeError, Reference.wide_crashed))
    by (vm_compute; reflexivity).
  exact (throwing_call_leaks_the_positions_block (H := Reference.env Crash)
           Reference.world 1 true Reference.sample Reference.wide_crashed
           Reference.wide_triangle NativeError HG Hc Hpos Hrun).
Defined.

Lemma bake_scale_never_enlarges_witness :
  @box_errors (Reference.env Accept) Reference.sample_nan Reference.quad_nan = 1 ∧
  ∃ bakeScale s',
    @computeBakeScale (Reference.env Accept) 5 Reference.sample_nan
      = (Normal bakeScale, s') ∧
    is_nan bakeScale = false ∧
    (0 <=? bakeScale)%float = true ∧ (bakeScale <=? 1)%float = true ∧
    log s' = (if Number.strict_ne bakeScale 1
              then [console_warn (uuid Reference.quad_nan) bakeScale] else [])
             ++ replicate (@box_errors (Reference.env Accept) Reference.sample_nan
                             Reference.quad_nan) console_error
             ++ log Reference.sample_nan.
Proof.
  assert (HG : geometries Reference.sample_nan !! 5 = Some Reference.quad_nan)
    by (vm_compute; reflexivity).
  split; [vm_compute; reflexivity|].
  exact (bake_scale_never_enlarges (H := Reference.env Accept) Reference.sample_nan 5
           Reference.quad_nan HG).
Defined.

Lemma cache_id_tells_entries_apart_witness :
  @cache_id (Reference.env Accept) "quad" true 1
    = @cache_id (Reference.env Accept) "quad" false 1 ↔
  "quad" = "quad" ∧ true = false ∧
  @Number_toString (Reference.env Accept) 1 = @Number_toString (Reference.env Accept) 1.
Proof.
  assert (Hn : underscores (@Number_toString (Reference.env Accept) 1) = 0)
    by (vm_compute; reflexivity).
  exact (cache_id_tells_entries_apart (H := Reference.env Accept) "quad" "quad"
           true false 1 1 Hn Hn).
Defined.


Lemma reachable_sample : @reachable (Reference.env Accept) Reference.sample.
Proof.
  apply reach_start. unfold caller_step.
  repeat apply conj; vm_compute; reflexivity.
Qed.

Lemma acquire_then_release_is_neutral_witness :
  ∃ s2, release 0 Reference.quad_cooked = (Normal tt, s2) ∧
    cache s2 = cache Reference.sample ∧
    (∀ l it, items Reference.sample !! l = Some it → items s2 !! l = Some it) ∧
    (∀ pm b, pmeshes Reference.sample !! pm = Some b → pmeshes s2 !! pm = Some b) ∧
    (∀ pm, pmeshes s2 !! pm = Some true →
           pmeshes Reference.sample !! pm = Some true) ∧
    (∀ h' this, handles Reference.sample !! h' = Some this →
                handles s2 !! h' = Some this) ∧
    allocated s2 = allocated Reference.sample.
Proof.
  assert (Hrun : @geometryToPxMesh (Reference.env Accept) Reference.world 2 false
                   Reference.sample = (Normal (Some 0), Reference.quad_cooked))
    by (vm_compute; reflexivity).
  exact (acquire_then_release_is_neutral (H := Reference.env Accept)
           Reference.world 2 false Reference.sample Reference.quad_cooked 0
           reachable_sample Hrun).
Defined.

Lemma missing_positions_fail_before_any_allocation_witness :
  ∃ s', @geometryToPxMesh (Reference.env Accept) Reference.world 3 true Reference.sample_bare
          = (Throw TypeError, s') ∧
    allocated s' = allocated Reference.sample_bare ∧ HEAP s' = HEAP Reference.sample_bare ∧
    mallocs (log s') = mallocs (log Reference.sample_bare) ∧
    native_cooks (log s') = native_cooks (log Reference.sample_bare) ∧
    cache s' = cache Reference.sample_bare ∧ items s' = items Reference.sample_bare ∧
    handles s' = handles Reference.sample_bare ∧
    f32arrays s' = f32arrays Reference.sample_bare ∧ indexarrays s' = indexarrays Reference.sample_bare.
Proof.
  assert (HG : geometries Reference.sample_bare !! 3 = Some Reference.bare)
    by (vm_compute; reflexivity).
  assert (Hc : cache Reference.sample_bare
                 !! @cache_id_in (Reference.env Accept) Reference.sample_bare Reference.bare true = None)
    by (vm_compute; reflexivity).
  assert (Hxs : f32arrays Reference.sample_bare !! array (position Reference.bare) = None)
    by (vm_compute; reflexivity).
  exact (missing_positions_fail_before_any_allocation (H := Reference.env Accept)
           Reference.world 3 true Reference.sample_bare Reference.bare HG Hc Hxs).
Defined.

Lemma cooked_mesh_is_never_dropped_witness :
  (∀ pm, native_releases pm (log Reference.quad_cooked)
         = native_releases pm (log Reference.sample)) ∧
  (∀ pm b, pmeshes Reference.sample !! pm = Some b →
           pmeshes Reference.quad_cooked !! pm = Some b) ∧
  (∀ pm, pmeshes Reference.sample !! pm = None →
     is_Some (pmeshes Reference.quad_cooked !! pm) →
     pmeshes Reference.quad_cooked !! pm = Some true ∧
     ∃ h this, Normal (Some 0) = Normal (Some h) ∧
               handles Reference.sample !! h = None ∧
               handles Reference.quad_cooked !! h = Some this ∧
               value this = Some pm ∧ released this = false).
Proof.
  assert (Hrun : @geometryToPxMesh (Reference.env Accept) Reference.world 2 false
                   Reference.sample = (Normal (Some 0), Reference.quad_cooked))
    by (vm_compute; reflexivity).
  exact (cooked_mesh_is_never_dropped (H := Reference.env Accept)
           Reference.world 2 false Reference.sample Reference.quad_cooked
           (Normal (Some 0)) Hrun).
Defined.
